(** * bioviz: the actor-set synchronisation protocol of [VtkModel]

    A shallow embedding of [bioviz/biorbd_vtk.py], class [VtkModel]: for each
    visual category the model keeps the last frame pushed, a style and a list
    of VTK actors, and every update either repositions the actors in place or
    destroys and recreates them.

    Modelling choices, all read off the source:
    - Python numbers (sizes, colours, opacities, coordinates) are carried as
      rationals [Q]; only [update_rt] computes with them.
    - A pyomeca [Markers] array is seen through the three things the code
      reads: [.time.size], [.channel.size] and the column [[0:3, i]].
    - VTK objects live on the C++ side.  An actor is a record holding what the
      code sets on it (property colour, opacity, line width, mapper input)
      and an identity; the renderer and every actor are also observed
      through [vtk_calls], the chronological list of the calls made on them.
    - A method is a function [VtkModel -> Outcome * VtkModel]: an exception
      leaves the model as it was at the [raise], so partial mutations stay.
    - [update_*] and [new_*_set] call each other; the Python call stack is
      the decreasing argument [depth], exhausted into [RecursionError]. *)

From stdpp Require Import base list strings.
From Stdlib Require Import QArith.

Close Scope Q_scope.

Set Default Proof Using "Type".

(** ** Values *)

Definition point : Type := Q * Q * Q.
Definition rgb : Type := Q * Q * Q.

Definition origin : point := (0, 0, 0)%Q.
Definition black : rgb := (0, 0, 0)%Q.

(** One pyomeca [Markers] array: [time_size] is [.time.size], [channel] holds,
    per channel, the column [[0:3, i]] of the first time sample. *)
Record Markers := mkMarkers {
  time_size : nat;
  channel : list point
}.

Definition channel_size (m : Markers) : nat := length (channel m).

(** [Markers()]: pyomeca allocates [np.ndarray((0, 0, 0))]. *)
Definition Markers_empty : Markers := {| time_size := 0; channel := [] |}.

(** A [Mesh] is a [Markers] with a table of connections; [triangles] lists
    the columns of the table ([triangles[:, j]] is [triangles !! j], so
    [triangles.shape[1]] is its length and a column's length is
    [triangles.shape[0]]). *)
Record Mesh := mkMesh {
  mesh_time_size : nat;
  vertices : list point;
  triangles : list (list nat)
}.

Definition mesh_channel_size (m : Mesh) : nat := length (vertices m).

(** A [Rototrans]: its translation and the first three rows of its three
    basis columns. *)
Record Rototrans := mkRototrans {
  rt_time_size : nat;
  translation : point;
  col0 : point;
  col1 : point;
  col2 : point
}.

(** ** Exceptions *)

Inductive Exception :=
| IndexError (msg : string)
| TypeError (msg : string)
| RuntimeError (msg : string)
| AttributeError (msg : string)
| RecursionError.

Inductive Outcome :=
| Returned
| Raised (e : Exception).

Definition list_index_out_of_range : Exception :=
  IndexError "list index out of range".
Definition axis_index_out_of_bounds : Exception :=
  IndexError "index is out of bounds for axis 1".

(** ** The VTK side *)

Record PolyData := mkPolyData {
  pd_points : list point;
  pd_lines : list (list nat);
  pd_polys : list (list nat);
  pd_scalars : list (nat * nat * nat)
}.

Inductive MapperInput :=
| NoInput
| SphereSource (center : point) (radius : Q)
| PolyInput (pd : PolyData).

Record Actor := mkActor {
  actor_id : nat;
  prop_color : option rgb;
  prop_opacity : option Q;
  prop_line_width : option Q;
  mapper_input : MapperInput
}.

(** Calls received by the renderer ([ren]) and by the actors, in order. *)
Inductive VtkCall :=
| RemoveActor (a : nat)
| AddActor (a : nat)
| ResetCamera
| SetMapper (a : nat) (input : MapperInput)
| SetColor (a : nat) (c : rgb)
| SetOpacity (a : nat) (o : Q)
| SetLineWidth (a : nat) (w : Q)
| SetInputConnection (a : nat) (center : point) (radius : Q)
| SetPoints (a : nat) (pts : list point).

(** [vtkActor()] followed by [SetMapper(mapper)]. *)
Definition vtkActor (id : nat) (input : MapperInput) : Actor :=
  {| actor_id := id; prop_color := None; prop_opacity := None;
     prop_line_width := None; mapper_input := input |}.

Definition SetColor_ (c : rgb) (a : Actor) : Actor :=
  {| actor_id := actor_id a; prop_color := Some c;
     prop_opacity := prop_opacity a; prop_line_width := prop_line_width a;
     mapper_input := mapper_input a |}.

Definition SetOpacity_ (o : Q) (a : Actor) : Actor :=
  {| actor_id := actor_id a; prop_color := prop_color a;
     prop_opacity := Some o; prop_line_width := prop_line_width a;
     mapper_input := mapper_input a |}.

Definition SetLineWidth_ (w : Q) (a : Actor) : Actor :=
  {| actor_id := actor_id a; prop_color := prop_color a;
     prop_opacity := prop_opacity a; prop_line_width := Some w;
     mapper_input := mapper_input a |}.

Definition SetInput_ (i : MapperInput) (a : Actor) : Actor :=
  {| actor_id := actor_id a; prop_color := prop_color a;
     prop_opacity := prop_opacity a; prop_line_width := prop_line_width a;
     mapper_input := i |}.

(** [actor.GetMapper().GetInput().SetPoints(pts)]: [GetInput()] is [None]
    unless the mapper was given a poly data. *)
Definition SetPoints_ (pts : list point) (a : Actor) : option Actor :=
  match mapper_input a with
  | PolyInput pd =>
      Some (SetInput_ (PolyInput {| pd_points := pts; pd_lines := pd_lines pd;
                                    pd_polys := pd_polys pd;
                                    pd_scalars := pd_scalars pd |}) a)
  | _ => None
  end.

Definition none_has_no_SetPoints : Exception :=
  AttributeError "'NoneType' object has no attribute 'SetPoints'".

(** ** The model *)

(** The four sphere categories share one shape: [self.markers],
    [self.markers_size], [self.markers_color], [self.markers_opacity],
    [self.markers_actors], and likewise for contacts and centres of mass. *)
Record PointSet := mkPointSet {
  ps_frame : Markers;
  ps_size : Q;
  ps_color : rgb;
  ps_opacity : Q;
  ps_actors : list Actor
}.

Record MeshSet := mkMeshSet {
  all_meshes : list Mesh;
  mesh_color : rgb;
  mesh_opacity : Q;
  mesh_actors : list Actor
}.

Record MuscleSet := mkMuscleSet {
  all_muscles : list Mesh;
  muscle_color : rgb;
  muscle_opacity : Q;
  muscle_actors : list Actor
}.

Record WrappingSet := mkWrappingSet {
  all_wrappings : list (list Mesh);
  wrapping_color : rgb;
  wrapping_opacity : Q;
  wrapping_actors : list (list Actor)
}.

Record RtSet := mkRtSet {
  all_rt : list Rototrans;
  n_rt : nat;
  rt_length : Q;
  rt_width : Q;
  rt_actors : list Actor
}.

Record VtkModel := mkVtkModel {
  vtk_calls : list VtkCall;
  next_actor : nat;
  markers : PointSet;
  contacts : PointSet;
  has_global_ref_frame : bool;
  global_ref_frame_length : Q;
  global_ref_frame_width : Q;
  global_center_of_mass : PointSet;
  segments_center_of_mass : PointSet;
  rt : RtSet;
  mesh : MeshSet;
  muscle : MuscleSet;
  wrapping : WrappingSet
}.

(** The keyword arguments of [VtkModel.__init__]. *)
Record Options := mkOptions {
  opt_markers_size : Q;
  opt_markers_color : rgb;
  opt_markers_opacity : Q;
  opt_contacts_color : rgb;
  opt_contacts_size : Q;
  opt_contacts_opacity : Q;
  opt_global_ref_frame_length : Q;
  opt_global_ref_frame_width : Q;
  opt_global_center_of_mass_size : Q;
  opt_global_center_of_mass_color : rgb;
  opt_global_center_of_mass_opacity : Q;
  opt_segments_center_of_mass_size : Q;
  opt_segments_center_of_mass_color : rgb;
  opt_segments_center_of_mass_opacity : Q;
  opt_mesh_color : rgb;
  opt_mesh_opacity : Q;
  opt_wrapping_color : rgb;
  opt_wrapping_opacity : Q;
  opt_muscle_color : rgb;
  opt_muscle_opacity : Q;
  opt_rt_length : Q;
  opt_rt_width : Q
}.

Definition default_options : Options :=
  {| opt_markers_size := 0.010; opt_markers_color := (1, 1, 1)%Q;
     opt_markers_opacity := 1.0;
     opt_contacts_color := (0, 1, 0)%Q; opt_contacts_size := 0.01;
     opt_contacts_opacity := 1.0;
     opt_global_ref_frame_length := 0.15; opt_global_ref_frame_width := 5;
     opt_global_center_of_mass_size := 0.0075;
     opt_global_center_of_mass_color := (0, 0, 0)%Q;
     opt_global_center_of_mass_opacity := 1.0;
     opt_segments_center_of_mass_size := 0.005;
     opt_segments_center_of_mass_color := (0, 0, 0)%Q;
     opt_segments_center_of_mass_opacity := 1.0;
     opt_mesh_color := (0.89, 0.855, 0.788)%Q; opt_mesh_opacity := 0.8;
     opt_wrapping_color := (0, 0, 1)%Q; opt_wrapping_opacity := 1.0;
     opt_muscle_color := (150 # 255, 15 # 255, 15 # 255)%Q;
     opt_muscle_opacity := 1.0;
     opt_rt_length := 0.1; opt_rt_width := 2 |}.

(** [VtkModel.__init__] *)
Definition VtkModel_init (o : Options) : VtkModel :=
  {| vtk_calls := [];
     next_actor := 0;
     markers := mkPointSet Markers_empty (opt_markers_size o)
                  (opt_markers_color o) (opt_markers_opacity o) [];
     contacts := mkPointSet Markers_empty (opt_contacts_size o)
                  (opt_contacts_color o) (opt_contacts_opacity o) [];
     has_global_ref_frame := false;
     global_ref_frame_length := opt_global_ref_frame_length o;
     global_ref_frame_width := opt_global_ref_frame_width o;
     global_center_of_mass :=
       mkPointSet Markers_empty (opt_global_center_of_mass_size o)
         (opt_global_center_of_mass_color o)
         (opt_global_center_of_mass_opacity o) [];
     segments_center_of_mass :=
       mkPointSet Markers_empty (opt_segments_center_of_mass_size o)
         (opt_segments_center_of_mass_color o)
         (opt_segments_center_of_mass_opacity o) [];
     rt := mkRtSet [] 0 (opt_rt_length o) (opt_rt_width o) [];
     mesh := mkMeshSet [] (opt_mesh_color o) (opt_mesh_opacity o) [];
     muscle := mkMuscleSet [] (opt_muscle_color o) (opt_muscle_opacity o) [];
     wrapping :=
       mkWrappingSet [] (opt_wrapping_color o) (opt_wrapping_opacity o) [] |}.

(** Field assignments. *)
Definition call (evs : list VtkCall) (s : VtkModel) : VtkModel :=
  mkVtkModel (vtk_calls s ++ evs) (next_actor s) (markers s) (contacts s)
    (has_global_ref_frame s) (global_ref_frame_length s)
    (global_ref_frame_width s) (global_center_of_mass s)
    (segments_center_of_mass s) (rt s) (mesh s) (muscle s) (wrapping s).

Definition set_next_actor (n : nat) (s : VtkModel) : VtkModel :=
  mkVtkModel (vtk_calls s) n (markers s) (contacts s)
    (has_global_ref_frame s) (global_ref_frame_length s)
    (global_ref_frame_width s) (global_center_of_mass s)
    (segments_center_of_mass s) (rt s) (mesh s) (muscle s) (wrapping s).

Definition set_markers (p : PointSet) (s : VtkModel) : VtkModel :=
  mkVtkModel (vtk_calls s) (next_actor s) p (contacts s)
    (has_global_ref_frame s) (global_ref_frame_length s)
    (global_ref_frame_width s) (global_center_of_mass s)
    (segments_center_of_mass s) (rt s) (mesh s) (muscle s) (wrapping s).

Definition set_contacts (p : PointSet) (s : VtkModel) : VtkModel :=
  mkVtkModel (vtk_calls s) (next_actor s) (markers s) p
    (has_global_ref_frame s) (global_ref_frame_length s)
    (global_ref_frame_width s) (global_center_of_mass s)
    (segments_center_of_mass s) (rt s) (mesh s) (muscle s) (wrapping s).

Definition set_has_global_ref_frame (b : bool) (s : VtkModel) : VtkModel :=
  mkVtkModel (vtk_calls s) (next_actor s) (markers s) (contacts s)
    b (global_ref_frame_length s)
    (global_ref_frame_width s) (global_center_of_mass s)
    (segments_center_of_mass s) (rt s) (mesh s) (muscle s) (wrapping s).

Definition set_global_center_of_mass (p : PointSet) (s : VtkModel)
  : VtkModel :=
  mkVtkModel (vtk_calls s) (next_actor s) (markers s) (contacts s)
    (has_global_ref_frame s) (global_ref_frame_length s)
    (global_ref_frame_width s) p
    (segments_center_of_mass s) (rt s) (mesh s) (muscle s) (wrapping s).

Definition set_segments_center_of_mass (p : PointSet) (s : VtkModel)
  : VtkModel :=
  mkVtkModel (vtk_calls s) (next_actor s) (markers s) (contacts s)
    (has_global_ref_frame s) (global_ref_frame_length s)
    (global_ref_frame_width s) (global_center_of_mass s)
    p (rt s) (mesh s) (muscle s) (wrapping s).

Definition set_rt (r : RtSet) (s : VtkModel) : VtkModel :=
  mkVtkModel (vtk_calls s) (next_actor s) (markers s) (contacts s)
    (has_global_ref_frame s) (global_ref_frame_length s)
    (global_ref_frame_width s) (global_center_of_mass s)
    (segments_center_of_mass s) r (mesh s) (muscle s) (wrapping s).

Definition set_mesh (m : MeshSet) (s : VtkModel) : VtkModel :=
  mkVtkModel (vtk_calls s) (next_actor s) (markers s) (contacts s)
    (has_global_ref_frame s) (global_ref_frame_length s)
    (global_ref_frame_width s) (global_center_of_mass s)
    (segments_center_of_mass s) (rt s) m (muscle s) (wrapping s).

Definition set_muscle (m : MuscleSet) (s : VtkModel) : VtkModel :=
  mkVtkModel (vtk_calls s) (next_actor s) (markers s) (contacts s)
    (has_global_ref_frame s) (global_ref_frame_length s)
    (global_ref_frame_width s) (global_center_of_mass s)
    (segments_center_of_mass s) (rt s) (mesh s) m (wrapping s).

Definition set_wrapping (w : WrappingSet) (s : VtkModel) : VtkModel :=
  mkVtkModel (vtk_calls s) (next_actor s) (markers s) (contacts s)
    (has_global_ref_frame s) (global_ref_frame_length s)
    (global_ref_frame_width s) (global_center_of_mass s)
    (segments_center_of_mass s) (rt s) (mesh s) (muscle s) w.

(** ** Sphere categories: markers, contacts, centres of mass *)

Inductive Category :=
| CatMarkers
| CatContacts
| CatGlobalCoM
| CatSegmentsCoM.

Definition point_set (c : Category) (s : VtkModel) : PointSet :=
  match c with
  | CatMarkers => markers s
  | CatContacts => contacts s
  | CatGlobalCoM => global_center_of_mass s
  | CatSegmentsCoM => segments_center_of_mass s
  end.

Definition set_point_set (c : Category) (p : PointSet) (s : VtkModel)
  : VtkModel :=
  match c with
  | CatMarkers => set_markers p s
  | CatContacts => set_contacts p s
  | CatGlobalCoM => set_global_center_of_mass p s
  | CatSegmentsCoM => set_segments_center_of_mass p s
  end.

Definition with_frame (m : Markers) (p : PointSet) : PointSet :=
  mkPointSet m (ps_size p) (ps_color p) (ps_opacity p) (ps_actors p).
Definition with_size (v : Q) (p : PointSet) : PointSet :=
  mkPointSet (ps_frame p) v (ps_color p) (ps_opacity p) (ps_actors p).
Definition with_color (v : rgb) (p : PointSet) : PointSet :=
  mkPointSet (ps_frame p) (ps_size p) v (ps_opacity p) (ps_actors p).
Definition with_opacity (v : Q) (p : PointSet) : PointSet :=
  mkPointSet (ps_frame p) (ps_size p) (ps_color p) v (ps_actors p).
Definition with_actors (l : list Actor) (p : PointSet) : PointSet :=
  mkPointSet (ps_frame p) (ps_size p) (ps_color p) (ps_opacity p) l.

(** The first test of each [new_*_set] (lines 288, 385, 483, 580): three
    of them read [.time.size], the global centre of mass reads
    [.channel.size]. *)
Definition new_set_rejects (c : Category) (m : Markers) : bool :=
  match c with
  | CatGlobalCoM => negb (channel_size m =? 1)
  | _ => negb (time_size m =? 1)
  end.

Definition new_set_message (c : Category) : string :=
  match c with
  | CatMarkers => "Markers should be from one frame only"
  | CatContacts => "Contacts should be from one frame only"
  | CatGlobalCoM => "Global center of mass should be from one frame only"
  | CatSegmentsCoM => "Segments center of mass should be from one frame only"
  end.

(** The first test of each [update_*] (lines 322, 419, 517, 614). *)
Definition update_rejects (m : Markers) : bool := negb (time_size m =? 1).

Definition update_message (c : Category) : string :=
  match c with
  | CatMarkers => "Markers should be from one frame only"
  | CatContacts => "Contacts should be from one frame only"
  | CatGlobalCoM => "Segment center of mass should be from one frame only"
  | CatSegmentsCoM => "Segment center of mass should be from one frame only"
  end.

(** The loop [for i, actor in enumerate(self.markers_actors)] of
    [update_markers]: colour and opacity are set before [markers[0:3, i]] is
    read, which raises when the array has no column [i]. *)
Fixpoint sphere_loop (p : PointSet) (m : Markers) (i : nat)
    (acts : list Actor) : Outcome * list Actor * list VtkCall :=
  match acts with
  | [] => (Returned, [], [])
  | a :: rest =>
      let a' := SetOpacity_ (ps_opacity p) (SetColor_ (ps_color p) a) in
      let evs := [SetColor (actor_id a) (ps_color p);
                  SetOpacity (actor_id a) (ps_opacity p)] in
      match channel m !! i with
      | None => (Raised axis_index_out_of_bounds, a' :: rest, evs)
      | Some c =>
          let '(r, rest', evs') := sphere_loop p m (S i) rest in
          (r, SetInput_ (SphereSource c (ps_size p)) a' :: rest',
           evs ++ SetInputConnection (actor_id a) c (ps_size p) :: evs')
      end
  end.

(** The loop [for i in range(markers.channel.size)] of [new_marker_set]:
    [n] fresh actors, each registered and followed by a camera reset. *)
Definition fresh_ids (s : VtkModel) (n : nat) : list nat :=
  seq (next_actor s) n.

Definition sphere_actors (ids : list nat) : list Actor :=
  (fun id => vtkActor id NoInput) <$> ids.

Definition sphere_actor_calls (ids : list nat) : list VtkCall :=
  ids ≫= (fun id => [SetMapper id NoInput; AddActor id; ResetCamera]).

Definition remove_calls (acts : list Actor) : list VtkCall :=
  (fun a => RemoveActor (actor_id a)) <$> acts.

(** [update_markers] (lines 312-338) and [new_marker_set] (279-310), and
    their three copies. *)
Fixpoint update_point_set (depth : nat) (c : Category) (m : Markers)
    (s : VtkModel) : Outcome * VtkModel :=
  match depth with
  | 0 => (Raised RecursionError, s)
  | S d =>
      if update_rejects m then (Raised (IndexError (update_message c)), s)
      else if negb (channel_size m =? channel_size (ps_frame (point_set c s)))
      then new_point_set d c m s
      else
        let p := with_frame m (point_set c s) in
        let '(r, acts, evs) := sphere_loop p m 0 (ps_actors p) in
        (r, call evs (set_point_set c (with_actors acts p) s))
  end
with new_point_set (depth : nat) (c : Category) (m : Markers)
    (s : VtkModel) : Outcome * VtkModel :=
  match depth with
  | 0 => (Raised RecursionError, s)
  | S d =>
      if new_set_rejects c m then (Raised (IndexError (new_set_message c)), s)
      else
        let p := point_set c s in
        let ids := fresh_ids s (channel_size m) in
        let s1 :=
          call (remove_calls (ps_actors p) ++ sphere_actor_calls ids)
            (set_next_actor (next_actor s + channel_size m)
               (set_point_set c
                  (with_actors (sphere_actors ids) (with_frame m p)) s)) in
        update_point_set d c (ps_frame (point_set c s1)) s1
  end.

(** CPython's default [sys.getrecursionlimit()]. *)
Definition recursion_limit : nat := 1000.

Definition update_markers := update_point_set recursion_limit CatMarkers.
Definition new_marker_set := new_point_set recursion_limit CatMarkers.
Definition update_contacts := update_point_set recursion_limit CatContacts.
Definition new_contact_set := new_point_set recursion_limit CatContacts.
Definition update_global_center_of_mass :=
  update_point_set recursion_limit CatGlobalCoM.
Definition new_global_center_of_mass_set :=
  new_point_set recursion_limit CatGlobalCoM.
Definition update_segments_center_of_mass :=
  update_point_set recursion_limit CatSegmentsCoM.
Definition new_segments_center_of_mass_set :=
  new_point_set recursion_limit CatSegmentsCoM.

(** The style setters: store, then update with the stored frame. *)
Definition set_point_color (c : Category) (v : rgb) (s : VtkModel)
  : Outcome * VtkModel :=
  let s1 := set_point_set c (with_color v (point_set c s)) s in
  update_point_set recursion_limit c (ps_frame (point_set c s1)) s1.

Definition set_point_size (c : Category) (v : Q) (s : VtkModel)
  : Outcome * VtkModel :=
  let s1 := set_point_set c (with_size v (point_set c s)) s in
  update_point_set recursion_limit c (ps_frame (point_set c s1)) s1.

Definition set_point_opacity (c : Category) (v : Q) (s : VtkModel)
  : Outcome * VtkModel :=
  let s1 := set_point_set c (with_opacity v (point_set c s)) s in
  update_point_set recursion_limit c (ps_frame (point_set c s1)) s1.

Definition set_markers_color := set_point_color CatMarkers.
Definition set_markers_size := set_point_size CatMarkers.
Definition set_markers_opacity := set_point_opacity CatMarkers.
Definition set_contacts_color := set_point_color CatContacts.
Definition set_contacts_size := set_point_size CatContacts.
Definition set_contacts_opacity := set_point_opacity CatContacts.
Definition set_global_center_of_mass_color := set_point_color CatGlobalCoM.
Definition set_global_center_of_mass_size := set_point_size CatGlobalCoM.
Definition set_global_center_of_mass_opacity :=
  set_point_opacity CatGlobalCoM.
Definition set_segments_center_of_mass_color :=
  set_point_color CatSegmentsCoM.
Definition set_segments_center_of_mass_size := set_point_size CatSegmentsCoM.
Definition set_segments_center_of_mass_opacity :=
  set_point_opacity CatSegmentsCoM.

(** ** Meshes *)

Definition with_all_meshes (l : list Mesh) (m : MeshSet) : MeshSet :=
  mkMeshSet l (mesh_color m) (mesh_opacity m) (mesh_actors m).
Definition with_mesh_color (v : rgb) (m : MeshSet) : MeshSet :=
  mkMeshSet (all_meshes m) v (mesh_opacity m) (mesh_actors m).
Definition with_mesh_opacity (v : Q) (m : MeshSet) : MeshSet :=
  mkMeshSet (all_meshes m) (mesh_color m) v (mesh_actors m).
Definition with_mesh_actors (l : list Actor) (m : MeshSet) : MeshSet :=
  mkMeshSet (all_meshes m) (mesh_color m) (mesh_opacity m) l.

(** A [vtkPolyLine] of four ids: [SetId(k, triangles[k, j])] for every row
    [k], then [SetId(3, triangles[0, j])].  The repository's tables have
    three rows; VTK does not check the index, ids never set read as 0 here
    and rows past the fourth are dropped. *)
Definition polyline_ids (col : list nat) : list nat :=
  <[3 := hd 0 col]> (take 4 (col ++ [0; 0; 0; 0])).

(** A [vtkPolygon] of three ids: [SetId(jj, nodeId[jj])]. *)
Definition polygon_ids (col : list nat) : list nat :=
  take 3 (col ++ [0; 0; 0]).

(** Line 689:
    [mesh.triangles.shape[1]==0 or len(np.unique(mesh.triangles[:,0]))];
    the right operand is an integer used as a truth value. *)
Definition draws_outline (m : Mesh) : bool :=
  (length (triangles m) =? 0)
  || negb (length (remove_dups (default [] (triangles m !! 0))) =? 0).

Definition outline_polydata (pts : list point) (tri : list (list nat))
  : PolyData :=
  mkPolyData pts (polyline_ids <$> tri) [] [].

Definition surface_polydata (pts : list point) (tri : list (list nat))
  : PolyData :=
  mkPolyData pts [] (polygon_ids <$> tri) [].

Definition one_frame_only_mesh : Exception :=
  IndexError "Mesh should be from one frame only".

(** The loop [for (i, mesh) in enumerate(self.all_meshes)] of
    [new_mesh_set] (lines 680-737).  [col] is [self.mesh_color], which the
    outline branch overwrites (line 706) before the actor is coloured. *)
Fixpoint mesh_build_loop (opacity : Q) (col : rgb) (id : nat)
    (ms : list Mesh) : Outcome * rgb * list Actor * list VtkCall :=
  match ms with
  | [] => (Returned, col, [], [])
  | m :: rest =>
      if negb (mesh_time_size m =? 1)
      then (Raised one_frame_only_mesh, col, [], [])
      else
        let pts := vertices m in
        let input :=
          if draws_outline m
          then PolyInput (outline_polydata pts (triangles m))
          else PolyInput (surface_polydata pts (triangles m)) in
        let col1 := if draws_outline m then black else col in
        let a := SetOpacity_ opacity (SetColor_ col1 (vtkActor id input)) in
        let evs := [SetMapper id input; SetColor id col1;
                    SetOpacity id opacity; AddActor id; ResetCamera] in
        let '(r, col2, acts, evs') :=
          mesh_build_loop opacity col1 (S id) rest in
        (r, col2, a :: acts, evs ++ evs')
  end.

(** The first loop of [update_mesh], [update_muscle] (lines 756-762,
    880-886): raise, rebuild, or fall through. *)
Inductive Scan :=
| ScanRaise
| ScanRebuild
| ScanSame.

Fixpoint mesh_scan (stored : list Mesh) (i : nat) (incoming : list Mesh)
  : Scan :=
  match incoming with
  | [] => ScanSame
  | m :: rest =>
      if negb (mesh_time_size m =? 1) then ScanRaise
      else
        match stored !! i with
        | None => ScanRebuild
        | Some m0 =>
            if negb (mesh_channel_size m =? mesh_channel_size m0)
            then ScanRebuild
            else mesh_scan stored (S i) rest
        end
  end.

(** The second loop of [update_mesh], [update_muscle] and
    [update_wrapping]: actor [i] receives the vertices of mesh [i];
    [self.mesh_actors[i]] raises when there is no such actor. *)
Fixpoint points_loop (ms : list Mesh) (acts : list Actor)
  : Outcome * list Actor * list VtkCall :=
  match ms with
  | [] => (Returned, acts, [])
  | m :: rest =>
      match acts with
      | [] => (Raised list_index_out_of_range, [], [])
      | a :: acts' =>
          match SetPoints_ (vertices m) a with
          | None => (Raised none_has_no_SetPoints, a :: acts', [])
          | Some a' =>
              let '(r, acts'', evs) := points_loop rest acts' in
              (r, a' :: acts'', SetPoints (actor_id a) (vertices m) :: evs)
          end
      end
  end.

(** [update_mesh] (lines 742-777) and [new_mesh_set] (656-740), on a list
    of meshes. *)
Fixpoint update_mesh_at (depth : nat) (l : list Mesh) (s : VtkModel)
  : Outcome * VtkModel :=
  match depth with
  | 0 => (Raised RecursionError, s)
  | S d =>
      match mesh_scan (all_meshes (mesh s)) 0 l with
      | ScanRaise => (Raised one_frame_only_mesh, s)
      | ScanRebuild => new_mesh_set_at d l s
      | ScanSame =>
          let ms := with_all_meshes l (mesh s) in
          let '(r, acts, evs) := points_loop l (mesh_actors ms) in
          (r, call evs (set_mesh (with_mesh_actors acts ms) s))
      end
  end
with new_mesh_set_at (depth : nat) (l : list Mesh) (s : VtkModel)
  : Outcome * VtkModel :=
  match depth with
  | 0 => (Raised RecursionError, s)
  | S d =>
      let ms := mesh s in
      let '(r, col, acts, evs) :=
        mesh_build_loop (mesh_opacity ms) (mesh_color ms) (next_actor s) l in
      let s1 :=
        call (remove_calls (mesh_actors ms) ++ evs)
          (set_next_actor (next_actor s + length acts)
             (set_mesh (mkMeshSet l col (mesh_opacity ms) acts) s)) in
      match r with
      | Raised e => (Raised e, s1)
      | Returned => update_mesh_at d (all_meshes (mesh s1)) s1
      end
  end.

Definition update_mesh := update_mesh_at recursion_limit.
Definition new_mesh_set := new_mesh_set_at recursion_limit.

Definition set_mesh_color (v : rgb) (s : VtkModel) : Outcome * VtkModel :=
  let s1 := set_mesh (with_mesh_color v (mesh s)) s in
  update_mesh (all_meshes (mesh s1)) s1.

Definition set_mesh_opacity (v : Q) (s : VtkModel) : Outcome * VtkModel :=
  let s1 := set_mesh (with_mesh_opacity v (mesh s)) s in
  update_mesh (all_meshes (mesh s1)) s1.

(** ** Muscles *)

Definition with_all_muscles (l : list Mesh) (m : MuscleSet) : MuscleSet :=
  mkMuscleSet l (muscle_color m) (muscle_opacity m) (muscle_actors m).
Definition with_muscle_color (v : rgb) (m : MuscleSet) : MuscleSet :=
  mkMuscleSet (all_muscles m) v (muscle_opacity m) (muscle_actors m).
Definition with_muscle_opacity (v : Q) (m : MuscleSet) : MuscleSet :=
  mkMuscleSet (all_muscles m) (muscle_color m) v (muscle_actors m).
Definition with_muscle_actors (l : list Actor) (m : MuscleSet) : MuscleSet :=
  mkMuscleSet (all_muscles m) (muscle_color m) (muscle_opacity m) l.

(** [points.InsertNextPoint([0, 0, 0])] once per channel. *)
Definition placeholder_points (m : Mesh) : list point :=
  replicate (mesh_channel_size m) origin.

Definition one_frame_only_muscles : Exception :=
  IndexError "Muscles should be from one frame only".
Definition one_frame_only_muscle : Exception :=
  IndexError "Muscle should be from one frame only".

(** The loop of [new_muscle_set] (lines 828-861). *)
Fixpoint muscle_build_loop (opacity : Q) (col : rgb) (id : nat)
    (ms : list Mesh) : Outcome * list Actor * list VtkCall :=
  match ms with
  | [] => (Returned, [], [])
  | m :: rest =>
      if negb (mesh_time_size m =? 1)
      then (Raised one_frame_only_muscles, [], [])
      else
        let input :=
          PolyInput (outline_polydata (placeholder_points m) (triangles m)) in
        let a :=
          SetLineWidth_ 5
            (SetOpacity_ opacity (SetColor_ col (vtkActor id input))) in
        let evs := [SetMapper id input; SetColor id col;
                    SetOpacity id opacity; SetLineWidth id 5;
                    AddActor id; ResetCamera] in
        let '(r, acts, evs') := muscle_build_loop opacity col (S id) rest in
        (r, a :: acts, evs ++ evs')
  end.

(** [update_muscle] (lines 866-901) and [new_muscle_set] (804-864). *)
Fixpoint update_muscle_at (depth : nat) (l : list Mesh) (s : VtkModel)
  : Outcome * VtkModel :=
  match depth with
  | 0 => (Raised RecursionError, s)
  | S d =>
      match mesh_scan (all_muscles (muscle s)) 0 l with
      | ScanRaise => (Raised one_frame_only_muscle, s)
      | ScanRebuild => new_muscle_set_at d l s
      | ScanSame =>
          let ms := with_all_muscles l (muscle s) in
          let '(r, acts, evs) := points_loop l (muscle_actors ms) in
          (r, call evs (set_muscle (with_muscle_actors acts ms) s))
      end
  end
with new_muscle_set_at (depth : nat) (l : list Mesh) (s : VtkModel)
  : Outcome * VtkModel :=
  match depth with
  | 0 => (Raised RecursionError, s)
  | S d =>
      let ms := muscle s in
      let '(r, acts, evs) :=
        muscle_build_loop (muscle_opacity ms) (muscle_color ms)
          (next_actor s) l in
      let s1 :=
        call (remove_calls (muscle_actors ms) ++ evs)
          (set_next_actor (next_actor s + length acts)
             (set_muscle
                (mkMuscleSet l (muscle_color ms) (muscle_opacity ms) acts)
                s)) in
      match r with
      | Raised e => (Raised e, s1)
      | Returned => update_muscle_at d (all_muscles (muscle s1)) s1
      end
  end.

Definition update_muscle := update_muscle_at recursion_limit.
Definition new_muscle_set := new_muscle_set_at recursion_limit.

(** The methods of [VtkModel] that take one list of meshes, by name.
    Neither the rest of the class nor [QWidget] has an attribute called
    [update_muscles]. *)
Definition mesh_list_methods
  : list (string * (list Mesh → VtkModel → Outcome * VtkModel)) :=
  [("new_mesh_set", new_mesh_set); ("update_mesh", update_mesh);
   ("new_muscle_set", new_muscle_set); ("update_muscle", update_muscle)].

Fixpoint getattr {A} (table : list (string * A)) (name : string)
  : option A :=
  match table with
  | [] => None
  | (n, f) :: rest => if String.eqb n name then Some f else getattr rest name
  end.

Definition no_attribute (name : string) : Exception :=
  AttributeError ("'VtkModel' object has no attribute '" +:+ name +:+ "'").

Definition call_method (name : string) (l : list Mesh) (s : VtkModel)
  : Outcome * VtkModel :=
  match getattr mesh_list_methods name with
  | Some f => f l s
  | None => (Raised (no_attribute name), s)
  end.

(** [set_muscle_color] (lines 779-788) calls [self.update_muscles];
    [set_muscle_opacity] (790-802) calls [self.update_muscle]. *)
Definition set_muscle_color (v : rgb) (s : VtkModel) : Outcome * VtkModel :=
  let s1 := set_muscle (with_muscle_color v (muscle s)) s in
  call_method "update_muscles" (all_muscles (muscle s1)) s1.

Definition set_muscle_opacity (v : Q) (s : VtkModel) : Outcome * VtkModel :=
  let s1 := set_muscle (with_muscle_opacity v (muscle s)) s in
  call_method "update_muscle" (all_muscles (muscle s1)) s1.

(** ** Wrapping surfaces, one list of meshes per segment *)

Definition with_all_wrappings (l : list (list Mesh)) (w : WrappingSet)
  : WrappingSet :=
  mkWrappingSet l (wrapping_color w) (wrapping_opacity w)
    (wrapping_actors w).
Definition with_wrapping_color (v : rgb) (w : WrappingSet) : WrappingSet :=
  mkWrappingSet (all_wrappings w) v (wrapping_opacity w) (wrapping_actors w).
Definition with_wrapping_opacity (v : Q) (w : WrappingSet) : WrappingSet :=
  mkWrappingSet (all_wrappings w) (wrapping_color w) v (wrapping_actors w).
Definition with_wrapping_actors (l : list (list Actor)) (w : WrappingSet)
  : WrappingSet :=
  mkWrappingSet (all_wrappings w) (wrapping_color w) (wrapping_opacity w) l.

Definition list_assignment_out_of_range : Exception :=
  IndexError "list assignment index out of range".

(** The loop of [new_wrapping_set] (lines 952-984). *)
Fixpoint wrapping_build_loop (opacity : Q) (col : rgb) (id : nat)
    (ms : list Mesh) : Outcome * list Actor * list VtkCall :=
  match ms with
  | [] => (Returned, [], [])
  | m :: rest =>
      if negb (mesh_time_size m =? 1)
      then (Raised one_frame_only_mesh, [], [])
      else
        let input :=
          PolyInput (outline_polydata (placeholder_points m) (triangles m)) in
        let a := SetOpacity_ opacity (SetColor_ col (vtkActor id input)) in
        let evs := [SetMapper id input; SetColor id col;
                    SetOpacity id opacity; AddActor id; ResetCamera] in
        let '(r, acts, evs') :=
          wrapping_build_loop opacity col (S id) rest in
        (r, a :: acts, evs ++ evs')
  end.

(** [new_wrapping_set] (lines 928-987).  The update call that ends the
    other rebuilds is commented out here (lines 986-987). *)
Definition new_wrapping_set (l : list Mesh) (seg : nat) (s : VtkModel)
  : Outcome * VtkModel :=
  let w := wrapping s in
  if decide (length (all_wrappings w) ≤ seg)
  then (Raised list_assignment_out_of_range, s)
  else
    let w1 := with_all_wrappings (<[seg := l]> (all_wrappings w)) w in
    match wrapping_actors w1 !! seg with
    | None => (Raised list_index_out_of_range, set_wrapping w1 s)
    | Some old =>
        let '(r, acts, evs) :=
          wrapping_build_loop (wrapping_opacity w1) (wrapping_color w1)
            (next_actor s) l in
        (r,
         call (remove_calls old ++ evs)
           (set_next_actor (next_actor s + length acts)
              (set_wrapping
                 (with_wrapping_actors (<[seg := acts]> (wrapping_actors w1))
                    w1) s)))
    end.

(** The inner loop [for i, wrapping in enumerate(wrappings)] of
    [update_wrapping] (lines 1003-1009): the rebuild does not end the loop,
    the [return] is commented out. *)
Fixpoint wrapping_scan (wrappings : list Mesh) (seg : nat) (i : nat)
    (todo : list Mesh) (s : VtkModel) : Outcome * VtkModel :=
  match todo with
  | [] => (Returned, s)
  | m :: rest =>
      if negb (mesh_time_size m =? 1) then (Raised one_frame_only_mesh, s)
      else
        match all_wrappings (wrapping s) !! seg with
        | None => (Raised list_index_out_of_range, s)
        | Some stored =>
            let differs :=
              match stored !! i with
              | None => true
              | Some m0 =>
                  negb (mesh_channel_size m =? mesh_channel_size m0)
              end in
            if differs
            then
              match new_wrapping_set wrappings seg s with
              | (Returned, s1) => wrapping_scan wrappings seg (S i) rest s1
              | (Raised e, s1) => (Raised e, s1)
              end
            else wrapping_scan wrappings seg (S i) rest s
        end
  end.

(** The body of [for seg, wrappings in enumerate(all_wrappings)]
    (lines 1002-1024). *)
Definition update_wrapping_segment (seg : nat) (wrappings : list Mesh)
    (s : VtkModel) : Outcome * VtkModel :=
  match wrapping_scan wrappings seg 0 wrappings s with
  | (Raised e, s1) => (Raised e, s1)
  | (Returned, s1) =>
      let w := wrapping s1 in
      if decide (length (all_wrappings w) ≤ seg)
      then (Raised list_assignment_out_of_range, s1)
      else
        let w1 := with_all_wrappings (<[seg := wrappings]> (all_wrappings w))
                    w in
        match wrapping_actors w1 !! seg with
        | None =>
            match wrappings with
            | [] => (Returned, set_wrapping w1 s1)
            | _ :: _ => (Raised list_index_out_of_range, set_wrapping w1 s1)
            end
        | Some acts =>
            let '(r, acts', evs) := points_loop wrappings acts in
            (r,
             call evs
               (set_wrapping
                  (with_wrapping_actors (<[seg := acts']> (wrapping_actors w1))
                     w1) s1))
        end
  end.

Fixpoint update_wrapping_loop (seg : nat) (l : list (list Mesh))
    (s : VtkModel) : Outcome * VtkModel :=
  match l with
  | [] => (Returned, s)
  | wrappings :: rest =>
      match update_wrapping_segment seg wrappings s with
      | (Raised e, s1) => (Raised e, s1)
      | (Returned, s1) => update_wrapping_loop (S seg) rest s1
      end
  end.

(** [update_wrapping] (lines 989-1024).  [[[]] * n] repeats one empty
    list; the code never mutates it, it only replaces whole entries. *)
Definition update_wrapping (l : list (list Mesh)) (s : VtkModel)
  : Outcome * VtkModel :=
  let w := wrapping s in
  let s0 :=
    match all_wrappings w with
    | [] =>
        set_wrapping
          (with_wrapping_actors (replicate (length l) [])
             (with_all_wrappings (replicate (length l) []) w)) s
    | _ :: _ => s
    end in
  update_wrapping_loop 0 l s0.

Definition set_wrapping_color (v : rgb) (s : VtkModel)
  : Outcome * VtkModel :=
  let s1 := set_wrapping (with_wrapping_color v (wrapping s)) s in
  update_wrapping (all_wrappings (wrapping s1)) s1.

Definition set_wrapping_opacity (v : Q) (s : VtkModel)
  : Outcome * VtkModel :=
  let s1 := set_wrapping (with_wrapping_opacity v (wrapping s)) s in
  update_wrapping (all_wrappings (wrapping s1)) s1.

(** ** Local frames (rt) *)

Definition with_all_rt (l : list Rototrans) (r : RtSet) : RtSet :=
  mkRtSet l (n_rt r) (rt_length r) (rt_width r) (rt_actors r).
Definition with_n_rt (n : nat) (r : RtSet) : RtSet :=
  mkRtSet (all_rt r) n (rt_length r) (rt_width r) (rt_actors r).
Definition with_rt_actors (l : list Actor) (r : RtSet) : RtSet :=
  mkRtSet (all_rt r) (n_rt r) (rt_length r) (rt_width r) l.

(** Three lines from point 0, coloured red, green and blue. *)
Definition axes_polydata (pts : list point) : PolyData :=
  mkPolyData pts [[0; 1]; [0; 2]; [0; 3]] []
    [(255, 0, 0); (0, 255, 0); (0, 0, 255)].

Definition unit_axes : list point :=
  [(0, 0, 0)%Q; (1, 0, 0)%Q; (0, 1, 0)%Q; (0, 0, 1)%Q].

Definition one_frame_only_rt : Exception :=
  IndexError "RT should be from one frame only".

(** The loop of [new_rt_set] (lines 1048-1105). *)
Fixpoint rt_build_loop (width : Q) (id : nat) (l : list Rototrans)
  : Outcome * list Actor * list VtkCall :=
  match l with
  | [] => (Returned, [], [])
  | r :: rest =>
      if negb (rt_time_size r =? 1) then (Raised one_frame_only_rt, [], [])
      else
        let input := PolyInput (axes_polydata unit_axes) in
        let a := SetLineWidth_ width (vtkActor id input) in
        let evs := [SetMapper id input; SetLineWidth id width;
                    AddActor id; ResetCamera] in
        let '(o, acts, evs') := rt_build_loop width (S id) rest in
        (o, a :: acts, evs ++ evs')
  end.

(** [translation + rt.isel(col=k)[0:3] * self.rt_length] *)
Definition axis_tip (t c : point) (len : Q) : point :=
  match t, c with
  | (tx, ty, tz), (cx, cy, cz) =>
      (tx + cx * len, ty + cy * len, tz + cz * len)%Q
  end.

Definition rt_points (r : Rototrans) (len : Q) : list point :=
  [translation r; axis_tip (translation r) (col0 r) len;
   axis_tip (translation r) (col1 r) len;
   axis_tip (translation r) (col2 r) len].

(** The loop of [update_rt] (lines 1134-1147). *)
Fixpoint rt_points_loop (len : Q) (l : list Rototrans) (acts : list Actor)
  : Outcome * list Actor * list VtkCall :=
  match l with
  | [] => (Returned, acts, [])
  | r :: rest =>
      if negb (rt_time_size r =? 1) then (Raised one_frame_only_rt, acts, [])
      else
        match acts with
        | [] => (Raised list_index_out_of_range, [], [])
        | a :: acts' =>
            match SetPoints_ (rt_points r len) a with
            | None => (Raised none_has_no_SetPoints, a :: acts', [])
            | Some a' =>
                let '(o, acts'', evs) := rt_points_loop len rest acts' in
                (o, a' :: acts'',
                 SetPoints (actor_id a) (rt_points r len) :: evs)
            end
        end
  end.

(** [update_rt] (lines 1111-1147) and [new_rt_set] (1026-1109), on a list
    of transforms. *)
Fixpoint update_rt_at (depth : nat) (l : list Rototrans) (s : VtkModel)
  : Outcome * VtkModel :=
  match depth with
  | 0 => (Raised RecursionError, s)
  | S d =>
      if negb (length l =? n_rt (rt s)) then new_rt_set_at d l s
      else
        let rs := with_all_rt l (rt s) in
        let '(o, acts, evs) :=
          rt_points_loop (rt_length rs) l (rt_actors rs) in
        (o, call evs (set_rt (with_rt_actors acts rs) s))
  end
with new_rt_set_at (depth : nat) (l : list Rototrans) (s : VtkModel)
  : Outcome * VtkModel :=
  match depth with
  | 0 => (Raised RecursionError, s)
  | S d =>
      let rs := rt s in
      let '(o, acts, evs) := rt_build_loop (rt_width rs) (next_actor s) l in
      let s1 :=
        call (remove_calls (rt_actors rs) ++ evs)
          (set_next_actor (next_actor s + length acts)
             (set_rt (with_rt_actors acts rs) s)) in
      match o with
      | Raised e => (Raised e, s1)
      | Returned =>
          let s2 := set_rt (with_n_rt (length l) (rt s1)) s1 in
          update_rt_at d l s2
      end
  end.

Definition update_rt := update_rt_at recursion_limit.
Definition new_rt_set := new_rt_set_at recursion_limit.

(** ** The global reference frame *)

Definition called_once_only : Exception :=
  RuntimeError "create_global_ref_frame should only be called once".

(** [create_global_ref_frame] (lines 1149-1216).  The actor is handed to
    the renderer and kept nowhere in the model. *)
Definition create_global_ref_frame (s : VtkModel) : Outcome * VtkModel :=
  if has_global_ref_frame s then (Raised called_once_only, s)
  else
    let len := global_ref_frame_length s in
    let id := next_actor s in
    let input :=
      PolyInput
        (axes_polydata
           [(0, 0, 0)%Q; (len, 0, 0)%Q; (0, len, 0)%Q; (0, 0, len)%Q]) in
    (Returned,
     call [SetMapper id input; SetLineWidth id (global_ref_frame_width s);
           AddActor id; ResetCamera]
       (set_next_actor (S id) (set_has_global_ref_frame true s))).

(** ** Sequences of calls on one model *)

Inductive Call :=
| UpdatePoints (c : Category) (m : Markers)
| NewPointSet (c : Category) (m : Markers)
| SetPointSize (c : Category) (v : Q)
| SetPointColor (c : Category) (v : rgb)
| SetPointOpacity (c : Category) (v : Q)
| UpdateMesh (l : list Mesh)
| NewMeshSet (l : list Mesh)
| SetMeshColor (v : rgb)
| SetMeshOpacity (v : Q)
| UpdateMuscle (l : list Mesh)
| NewMuscleSet (l : list Mesh)
| SetMuscleColor (v : rgb)
| SetMuscleOpacity (v : Q)
| UpdateWrapping (l : list (list Mesh))
| NewWrappingSet (l : list Mesh) (seg : nat)
| SetWrappingColor (v : rgb)
| SetWrappingOpacity (v : Q)
| UpdateRt (l : list Rototrans)
| NewRtSet (l : list Rototrans)
| CreateGlobalRefFrame.

Definition perform (k : Call) (s : VtkModel) : Outcome * VtkModel :=
  match k with
  | UpdatePoints c m => update_point_set recursion_limit c m s
  | NewPointSet c m => new_point_set recursion_limit c m s
  | SetPointSize c v => set_point_size c v s
  | SetPointColor c v => set_point_color c v s
  | SetPointOpacity c v => set_point_opacity c v s
  | UpdateMesh l => update_mesh l s
  | NewMeshSet l => new_mesh_set l s
  | SetMeshColor v => set_mesh_color v s
  | SetMeshOpacity v => set_mesh_opacity v s
  | UpdateMuscle l => update_muscle l s
  | NewMuscleSet l => new_muscle_set l s
  | SetMuscleColor v => set_muscle_color v s
  | SetMuscleOpacity v => set_muscle_opacity v s
  | UpdateWrapping l => update_wrapping l s
  | NewWrappingSet l seg => new_wrapping_set l seg s
  | SetWrappingColor v => set_wrapping_color v s
  | SetWrappingOpacity v => set_wrapping_opacity v s
  | UpdateRt l => update_rt l s
  | NewRtSet l => new_rt_set l s
  | CreateGlobalRefFrame => create_global_ref_frame s
  end.

(** The caller goes on after an exception: the model keeps whatever the
    failed call had already changed. *)
Definition run (ks : list Call) (s : VtkModel) : VtkModel :=
  foldl (fun s k => snd (perform k s)) s ks.

(** * Vocabulary of the statements *)

Definition touches {X} (set : X → VtkModel → VtkModel) (s s' : VtkModel)
  : Prop :=
  ∃ evs n x, s' = call evs (set_next_actor n (set x s)).

(** What a call leaves alone. *)
Inductive Part :=
| PartPoints (c : Category)
| PartMesh
| PartMuscle
| PartWrapping
| PartRt
| PartGlobalRefFrame.

#[global] Instance Category_eq_dec : EqDecision Category.
Proof. solve_decision. Defined.
#[global] Instance Part_eq_dec : EqDecision Part.
Proof. solve_decision. Defined.

Definition part_of (k : Call) : Part :=
  match k with
  | UpdatePoints c _ | NewPointSet c _ | SetPointSize c _
  | SetPointColor c _ | SetPointOpacity c _ => PartPoints c
  | UpdateMesh _ | NewMeshSet _ | SetMeshColor _ | SetMeshOpacity _ =>
      PartMesh
  | UpdateMuscle _ | NewMuscleSet _ | SetMuscleColor _
  | SetMuscleOpacity _ => PartMuscle
  | UpdateWrapping _ | NewWrappingSet _ _ | SetWrappingColor _
  | SetWrappingOpacity _ => PartWrapping
  | UpdateRt _ | NewRtSet _ => PartRt
  | CreateGlobalRefFrame => PartGlobalRefFrame
  end.

Definition touches_part (p : Part) (s s' : VtkModel) : Prop :=
  match p with
  | PartPoints c => touches (set_point_set c) s s'
  | PartMesh => touches set_mesh s s'
  | PartMuscle => touches set_muscle s s'
  | PartWrapping => touches set_wrapping s s'
  | PartRt => touches set_rt s s'
  | PartGlobalRefFrame => touches set_has_global_ref_frame s s'
  end.

(** What the update pass leaves on an actor. *)
Definition placed (p : PointSet) (c : point) (a : Actor) : Actor :=
  SetInput_ (SphereSource c (ps_size p))
    (SetOpacity_ (ps_opacity p) (SetColor_ (ps_color p) a)).

Definition is_SetInputConnection (e : VtkCall) : bool :=
  match e with SetInputConnection _ _ _ => true | _ => false end.

(** The calls that reach the Scene: the renderer's. *)
Definition is_renderer_call (e : VtkCall) : bool :=
  match e with
  | RemoveActor _ | AddActor _ | ResetCamera => true
  | _ => false
  end.

Definition is_ResetCamera (e : VtkCall) : bool :=
  match e with ResetCamera => true | _ => false end.

Definition count (f : VtkCall → bool) (evs : list VtkCall) : nat :=
  length (filter (fun e => f e = true) evs).

(** The invariant of a sphere category: one actor per channel of the
    stored frame. *)
Definition actors_match_frame (c : Category) (s : VtkModel) : Prop :=
  length (ps_actors (point_set c s)) = channel_size (ps_frame (point_set c s)).

(** The two halves of [update_*]: the pass alone, and what [new_*_set]
    does before it calls the pass. *)
Definition fast_path (c : Category) (m : Markers) (s : VtkModel)
  : Outcome * VtkModel :=
  let p := with_frame m (point_set c s) in
  let '(r, acts, evs) := sphere_loop p m 0 (ps_actors p) in
  (r, call evs (set_point_set c (with_actors acts p) s)).

Definition recreated (c : Category) (m : Markers) (s : VtkModel) : VtkModel :=
  let p := point_set c s in
  let ids := fresh_ids s (channel_size m) in
  call (remove_calls (ps_actors p) ++ sphere_actor_calls ids)
    (set_next_actor (next_actor s + channel_size m)
       (set_point_set c (with_actors (sphere_actors ids) (with_frame m p)) s)).

Definition one_frame (m : Mesh) : Prop := mesh_time_size m = 1.

Definition has_polydata (a : Actor) : Prop :=
  ∃ pd, mapper_input a = PolyInput pd.

(** Actor [a] shows the vertices [pts]. *)
Definition shows (pts : list point) (a : Actor) : Prop :=
  ∃ pd, mapper_input a = PolyInput pd ∧ pd_points pd = pts.

(** The pass moves points and nothing else. *)
Definition same_look (a a' : Actor) : Prop :=
  actor_id a' = actor_id a ∧ prop_color a' = prop_color a
  ∧ prop_opacity a' = prop_opacity a
  ∧ prop_line_width a' = prop_line_width a.

Definition rt_one_frame (r : Rototrans) : Prop := rt_time_size r = 1.

(** Sample inputs. *)
Definition fresh_model : VtkModel := VtkModel_init default_options.

Definition two_markers : Markers :=
  mkMarkers 1 [(1, 2, 3)%Q; (4, 5, 6)%Q].

Definition triangle : Mesh :=
  mkMesh 1 [(0, 0, 0)%Q; (1, 0, 0)%Q; (0, 1, 0)%Q] [[0; 1; 2]].

Definition two_triangles : Mesh :=
  mkMesh 1 [(0, 0, 0)%Q; (1, 0, 0)%Q; (0, 1, 0)%Q; (1, 1, 0)%Q]
    [[0; 1; 2]; [1; 2; 3]].

Definition identity_rt : Rototrans :=
  mkRototrans 1 (0, 0, 0)%Q (1, 0, 0)%Q (0, 1, 0)%Q (0, 0, 1)%Q.

(** A model whose wrappings have one, still empty, segment. *)
Definition one_segment_model : VtkModel :=
  (update_wrapping [[]] fresh_model).2.

(** Segment [seg] of the wrappings: its stored meshes and its actors. *)
Definition segment (seg : nat) (s : VtkModel)
  : option (list Mesh) * option (list Actor) :=
  (all_wrappings (wrapping s) !! seg, wrapping_actors (wrapping s) !! seg).

(** The test of the specification, in its words: the triangle table is
    degenerate when it has zero triangles or when its first row is
    constant. *)
Definition spec_first_row (m : Mesh) : list nat := hd 0 <$> triangles m.

Definition spec_degenerate_table (m : Mesh) : bool :=
  (length (triangles m) =? 0)
  || bool_decide (Forall (fun x => x = hd 0 (spec_first_row m))
                    (spec_first_row m)).


(** What a model holds apart from the log of calls: the actors with their
    geometry and look, the stored frames and the styles. *)
Definition scene (s : VtkModel) : VtkModel :=
  mkVtkModel [] (next_actor s) (markers s) (contacts s)
    (has_global_ref_frame s) (global_ref_frame_length s)
    (global_ref_frame_width s) (global_center_of_mass s)
    (segments_center_of_mass s) (rt s) (mesh s) (muscle s) (wrapping s).

(** Every incoming segment, from index [seg] on, passes the tests of
    [update_wrapping] against the stored segment without a rebuild. *)
Fixpoint wrappings_match (stored : list (list Mesh)) (seg : nat)
    (l : list (list Mesh)) : bool :=
  match l with
  | [] => true
  | wr :: rest =>
      match stored !! seg with
      | None => false
      | Some st =>
          match mesh_scan st 0 wr with
          | ScanSame => wrappings_match stored (S seg) rest
          | _ => false
          end
      end
  end.

(** A segment on which the pass for [wr] has run, with outcome [r]. *)
Definition settled (wr : list Mesh) (r : Outcome)
    (sg : option (list Mesh) * option (list Actor)) : Prop :=
  sg.1 = Some wr ∧ Forall one_frame wr
  ∧ match sg.2 with
    | None =>
        r = match wr with
            | [] => Returned
            | _ :: _ => Raised list_index_out_of_range
            end
    | Some acts => ∃ evs, points_loop wr acts = (r, acts, evs)
    end.

(** The outcome [r] of a style setter of category [c] called on [s]: it
    returned, the frame is the one [s] stored, the style is [size],
    [color], [opacity], the actors are the ones [s] had, each now a sphere
    at its channel's point in that style, and the renderer was not
    called. *)
Definition restyled (c : Category) (s : VtkModel) (size : Q) (color : rgb)
    (opacity : Q) (r : Outcome * VtkModel) : Prop :=
  r.1 = Returned
  ∧ ps_frame (point_set c r.2) = ps_frame (point_set c s)
  ∧ ps_size (point_set c r.2) = size
  ∧ ps_color (point_set c r.2) = color
  ∧ ps_opacity (point_set c r.2) = opacity
  ∧ actor_id <$> ps_actors (point_set c r.2)
    = actor_id <$> ps_actors (point_set c s)
  ∧ Forall2 (fun a pt =>
               mapper_input a = SphereSource pt size
               ∧ prop_color a = Some color
               ∧ prop_opacity a = Some opacity)
      (ps_actors (point_set c r.2)) (channel (ps_frame (point_set c s)))
  ∧ ∃ evs, vtk_calls r.2 = vtk_calls s ++ evs
           ∧ filter (fun e => is_renderer_call e = true) evs = [].

Definition is_SetPoints (e : VtkCall) : bool :=
  match e with SetPoints _ _ => true | _ => false end.

(** What the style setters of the meshes and of the muscles leave of the
    actors [old]: the same actors with the colour, opacity and line width
    they had, after calls that only move points. *)
Definition look_kept (old new : list Actor) (before after : list VtkCall)
  : Prop :=
  Forall2 same_look old new
  ∧ ∃ evs, after = before ++ evs
           ∧ Forall (fun e => is_SetPoints e = true) evs.

Definition is_AddActor (e : VtkCall) : bool :=
  match e with AddActor _ => true | _ => false end.

(** * The window (class [VtkWindow]) *)

(** The calls [update_frame] and [record] make on the renderer, the
    interactor, the application, the recorder, the image filter and the
    window itself, in the order they are made. *)
Inductive WinCall :=
| RenResetCamera
| InteractorRender
| ProcessEvents
| RecorderSetInputConnection
| RecorderSetFileName (f : string)
| RecorderStart
| RecorderWrite
| RecorderEnd
| FilterSetInput
| FilterReadFrontBufferOff
| FilterUpdate
| SetFixedSize (sz : nat * nat)
| SetMinimumSize (sz : nat * nat)
| SetMaximumSize (sz : nat * nat).

Record VtkWindow := mkVtkWindow {
  win_calls : list WinCall;
  should_reset_camera : bool;
  is_fixed_sized : bool;
  minimum_size : nat * nat;
  maximum_size : nat * nat;
  (** what [self.size()] answers *)
  win_size : nat * nat
}.

Definition win_call (evs : list WinCall) (w : VtkWindow) : VtkWindow :=
  mkVtkWindow (win_calls w ++ evs) (should_reset_camera w)
    (is_fixed_sized w) (minimum_size w) (maximum_size w) (win_size w).

Definition set_should_reset_camera (v : bool) (w : VtkWindow) : VtkWindow :=
  mkVtkWindow (win_calls w) v (is_fixed_sized w) (minimum_size w)
    (maximum_size w) (win_size w).

(** [update_frame] (lines 93-101). *)
Definition update_frame (w : VtkWindow) : VtkWindow :=
  let w1 :=
    if should_reset_camera w
    then set_should_reset_camera false (win_call [RenResetCamera] w)
    else w in
  win_call [InteractorRender; ProcessEvents] w1.

(** The buttons handed to [record] are objects of the caller: a button is
    named by a number, a list may name the same button more than once, and
    [isEnabled] and [setEnabled] read and write one shared table. *)
Definition Buttons := nat → bool.

Definition setEnabled (b : nat) (v : bool) (e : Buttons) : Buttons :=
  fun x => if x =? b then v else e x.

(** [for b in button_to_block: was_true.append(b.isEnabled());
    b.setEnabled(False)] (lines 129-131). *)
Fixpoint block_buttons (bs : list nat) (e : Buttons) : list bool * Buttons :=
  match bs with
  | [] => ([], e)
  | b :: rest =>
      let '(was_true, e') := block_buttons rest (setEnabled b false e) in
      (e b :: was_true, e')
  end.

(** [for i, b in enumerate(button_to_block): if was_true[i]:
    b.setEnabled(True)] (lines 133-135); [was_true] is as long as the
    list of buttons. *)
Fixpoint restore_buttons (bs : list nat) (was_true : list bool) (e : Buttons)
  : Buttons :=
  match bs, was_true with
  | b :: rest, t :: ts =>
      restore_buttons rest ts (if t then setEnabled b true e else e)
  | _, _ => e
  end.

(** [if file_name:] holds for a string that is not empty. *)
Definition truthy (file_name : option string) : bool :=
  match file_name with
  | Some (String _ _) => true
  | _ => false
  end.

(** [record] (lines 113-141). *)
Definition record (finish : bool) (button_to_block : list nat)
    (file_name : option string) (st : Buttons * VtkWindow)
  : Buttons * VtkWindow :=
  let '(e, w) := st in
  let w1 := win_call [RecorderSetInputConnection] w in
  let w2 :=
    if truthy file_name
    then
      win_call
        ([RecorderSetFileName (default EmptyString file_name); RecorderStart]
         ++ (if is_fixed_sized w1 then []
             else [SetFixedSize (win_size w1)])) w1
    else w1 in
  let w3 :=
    win_call [FilterSetInput; FilterReadFrontBufferOff; FilterUpdate] w2 in
  let '(was_true, e1) := block_buttons button_to_block e in
  let w4 := win_call [RecorderWrite] w3 in
  let e2 := restore_buttons button_to_block was_true e1 in
  let w5 :=
    if finish
    then
      win_call
        (RecorderEnd
         :: (if is_fixed_sized w4 then []
             else [SetMinimumSize (minimum_size w4);
                   SetMaximumSize (maximum_size w4)])) w4
    else w4 in
  (e2, w5).

Definition is_RenResetCamera (e : WinCall) : bool :=
  match e with RenResetCamera => true | _ => false end.

Definition is_InteractorRender (e : WinCall) : bool :=
  match e with InteractorRender => true | _ => false end.

Definition win_count (f : WinCall → bool) (evs : list WinCall) : nat :=
  length (filter (fun e => f e = true) evs).





(** Some pushed mesh has no stored counterpart at its index, or one with
    another channel count. *)
Definition differs_from (stored l : list Mesh) : Prop :=
  ∃ i m, l !! i = Some m
         ∧ ∀ m0, stored !! i = Some m0 →
                 mesh_channel_size m ≠ mesh_channel_size m0.

(** What an update of the wrappings with the stored list leaves of model
    [s]: the stored segments, the colour, the opacity, and the actors of
    every segment with the look they had, after calls that only move
    points. *)
Definition wrapping_look_kept (s s' : VtkModel) : Prop :=
  all_wrappings (wrapping s') = all_wrappings (wrapping s)
  ∧ wrapping_color (wrapping s') = wrapping_color (wrapping s)
  ∧ wrapping_opacity (wrapping s') = wrapping_opacity (wrapping s)
  ∧ Forall2 (Forall2 same_look) (wrapping_actors (wrapping s))
      (wrapping_actors (wrapping s'))
  ∧ ∃ evs, vtk_calls s' = vtk_calls s ++ evs
           ∧ Forall (fun e => is_SetPoints e = true) evs.

(** * Proofs *)

(** The call stack bound is never unfolded by [simpl]. *)
Arguments recursion_limit : simpl never.

Lemma call_call evs1 evs2 s : call evs2 (call evs1 s) = call (evs1 ++ evs2) s.
Proof. unfold call; simpl. by rewrite app_assoc. Qed.

Lemma call_nil s : call [] s = s.
Proof. destruct s; unfold call; simpl. by rewrite app_nil_r. Qed.

Ltac footprint_refl :=
  intros s; destruct s; exists [];
  eexists; eexists; unfold call; simpl; rewrite app_nil_r; reflexivity.

Ltac footprint_trans :=
  intros s1 s2 s3 (evs1 & n1 & x1 & ->) (evs2 & n2 & x2 & ->);
  exists (evs1 ++ evs2), n2, x2;
  unfold call; simpl; rewrite app_assoc; reflexivity.

Lemma touches_points_refl c s : touches (set_point_set c) s s.
Proof. revert s; destruct c; footprint_refl. Qed.

Lemma touches_points_trans c s1 s2 s3 :
  touches (set_point_set c) s1 s2 → touches (set_point_set c) s2 s3 →
  touches (set_point_set c) s1 s3.
Proof. revert s1 s2 s3; destruct c; footprint_trans. Qed.

Lemma touches_mesh_refl s : touches set_mesh s s.
Proof. revert s; footprint_refl. Qed.
Lemma touches_mesh_trans s1 s2 s3 :
  touches set_mesh s1 s2 → touches set_mesh s2 s3 → touches set_mesh s1 s3.
Proof. revert s1 s2 s3; footprint_trans. Qed.

Lemma touches_muscle_refl s : touches set_muscle s s.
Proof. revert s; footprint_refl. Qed.
Lemma touches_muscle_trans s1 s2 s3 :
  touches set_muscle s1 s2 → touches set_muscle s2 s3 →
  touches set_muscle s1 s3.
Proof. revert s1 s2 s3; footprint_trans. Qed.

Lemma touches_wrapping_refl s : touches set_wrapping s s.
Proof. revert s; footprint_refl. Qed.
Lemma touches_wrapping_trans s1 s2 s3 :
  touches set_wrapping s1 s2 → touches set_wrapping s2 s3 →
  touches set_wrapping s1 s3.
Proof. revert s1 s2 s3; footprint_trans. Qed.

Lemma touches_rt_refl s : touches set_rt s s.
Proof. revert s; footprint_refl. Qed.
Lemma touches_rt_trans s1 s2 s3 :
  touches set_rt s1 s2 → touches set_rt s2 s3 → touches set_rt s1 s3.
Proof. revert s1 s2 s3; footprint_trans. Qed.

(** One step of a footprint: the tactic closes goals of the shape
    [touches set s (call evs (set_next_actor n (set x s)))]. *)
Lemma touches_step {X} (set : X → VtkModel → VtkModel) evs n x s :
  touches set s (call evs (set_next_actor n (set x s))).
Proof. by exists evs, n, x. Qed.

Lemma touches_points_set c evs p s :
  touches (set_point_set c) s (call evs (set_point_set c p s)).
Proof.
  exists evs, (next_actor s), p. by destruct c, s.
Qed.

Lemma touches_points_set' c p s :
  touches (set_point_set c) s (set_point_set c p s).
Proof.
  exists [], (next_actor s), p. destruct c, s; unfold call; simpl;
    by rewrite app_nil_r.
Qed.

Lemma point_set_footprint c d m s :
  touches (set_point_set c) s (snd (update_point_set d c m s))
  ∧ touches (set_point_set c) s (snd (new_point_set d c m s)).
Proof.
  revert m s. induction d as [|d IH]; intros m s.
  { split; apply touches_points_refl. }
  split.
  - simpl. destruct (update_rejects m); [apply touches_points_refl|].
    destruct (negb _); [apply (IH m s)|].
    destruct (sphere_loop _ _ _ _) as [[r acts] evs]. simpl.
    apply touches_points_set.
  - simpl. destruct (new_set_rejects c m); [apply touches_points_refl|].
    eapply touches_points_trans; [|apply IH].
    destruct c; apply touches_step.
Qed.

Lemma touches_mesh_set evs x s : touches set_mesh s (call evs (set_mesh x s)).
Proof. exists evs, (next_actor s), x. by destruct s. Qed.
Lemma touches_muscle_set evs x s :
  touches set_muscle s (call evs (set_muscle x s)).
Proof. exists evs, (next_actor s), x. by destruct s. Qed.
Lemma touches_rt_set evs x s : touches set_rt s (call evs (set_rt x s)).
Proof. exists evs, (next_actor s), x. by destruct s. Qed.
Lemma touches_wrapping_set_calls evs x s :
  touches set_wrapping s (call evs (set_wrapping x s)).
Proof. exists evs, (next_actor s), x. by destruct s. Qed.
Lemma touches_set_only {X} (set : X → VtkModel → VtkModel) x s :
  touches set s (call [] (set_next_actor (next_actor s) (set x s))).
Proof. by exists [], (next_actor s), x. Qed.

Lemma mesh_footprint d l s :
  touches set_mesh s (snd (update_mesh_at d l s))
  ∧ touches set_mesh s (snd (new_mesh_set_at d l s)).
Proof.
  revert l s. induction d as [|d IH]; intros l s.
  { split; apply touches_mesh_refl. }
  split.
  - simpl. destruct (mesh_scan _ _ _); [apply touches_mesh_refl|apply IH|].
    destruct (points_loop _ _) as [[r acts] evs]. simpl.
    apply touches_mesh_set.
  - simpl. destruct (mesh_build_loop _ _ _ _) as [[[r col] acts] evs].
    destruct r as [|e]; simpl.
    + eapply touches_mesh_trans; [|apply IH]. apply touches_step.
    + apply touches_step.
Qed.

Lemma muscle_footprint d l s :
  touches set_muscle s (snd (update_muscle_at d l s))
  ∧ touches set_muscle s (snd (new_muscle_set_at d l s)).
Proof.
  revert l s. induction d as [|d IH]; intros l s.
  { split; apply touches_muscle_refl. }
  split.
  - simpl. destruct (mesh_scan _ _ _); [apply touches_muscle_refl|apply IH|].
    destruct (points_loop _ _) as [[r acts] evs]. simpl.
    apply touches_muscle_set.
  - simpl. destruct (muscle_build_loop _ _ _ _) as [[r acts] evs].
    destruct r as [|e]; simpl.
    + eapply touches_muscle_trans; [|apply IH]. apply touches_step.
    + apply touches_step.
Qed.

Lemma rt_footprint d l s :
  touches set_rt s (snd (update_rt_at d l s))
  ∧ touches set_rt s (snd (new_rt_set_at d l s)).
Proof.
  revert l s. induction d as [|d IH]; intros l s.
  { split; apply touches_rt_refl. }
  split.
  - simpl. destruct (negb _); [apply IH|].
    destruct (rt_points_loop _ _ _) as [[r acts] evs]. simpl.
    apply touches_rt_set.
  - simpl. destruct (rt_build_loop _ _ _) as [[r acts] evs].
    destruct r as [|e]; simpl.
    + eapply touches_rt_trans; [|apply IH].
      by exists (remove_calls (rt_actors (rt s)) ++ evs),
        (next_actor s + length acts),
        (with_n_rt (length l) (with_rt_actors acts (rt s))).
    + apply touches_step.
Qed.

Lemma touches_wrapping_set w s : touches set_wrapping s (set_wrapping w s).
Proof.
  exists [], (next_actor s), w. destruct s; unfold call; simpl.
  by rewrite app_nil_r.
Qed.

Lemma new_wrapping_set_footprint l seg s :
  touches set_wrapping s (snd (new_wrapping_set l seg s)).
Proof.
  unfold new_wrapping_set. case_decide; [apply touches_wrapping_refl|].
  simpl. destruct (_ !! seg).
  - destruct (wrapping_build_loop _ _ _ _) as [[r acts] evs]. simpl.
    apply touches_step.
  - apply touches_wrapping_set.
Qed.

Lemma wrapping_scan_footprint wr seg i todo s :
  touches set_wrapping s (snd (wrapping_scan wr seg i todo s)).
Proof.
  revert i s. induction todo as [|m rest IH]; intros i s; simpl.
  { apply touches_wrapping_refl. }
  destruct (negb _); [apply touches_wrapping_refl|].
  destruct (_ !! seg) as [stored|]; [|apply touches_wrapping_refl].
  match goal with |- context [if ?b then _ else _] => destruct b end;
    [|apply IH].
  pose proof (new_wrapping_set_footprint wr seg s) as H.
  destruct (new_wrapping_set wr seg s) as [[|e] s1]; simpl in *; [|done].
  eapply touches_wrapping_trans; [exact H|apply IH].
Qed.

Lemma update_wrapping_segment_footprint seg wr s :
  touches set_wrapping s (snd (update_wrapping_segment seg wr s)).
Proof.
  unfold update_wrapping_segment.
  pose proof (wrapping_scan_footprint wr seg 0 wr s) as H.
  destruct (wrapping_scan wr seg 0 wr s) as [[|e] s1]; simpl in *; [|done].
  eapply touches_wrapping_trans; [exact H|].
  case_decide; [apply touches_wrapping_refl|]. simpl.
  destruct (_ !! seg).
  - destruct (points_loop _ _) as [[r acts] evs]. simpl.
    apply touches_wrapping_set_calls.
  - destruct wr; apply touches_wrapping_set.
Qed.

Lemma update_wrapping_loop_footprint seg l s :
  touches set_wrapping s (snd (update_wrapping_loop seg l s)).
Proof.
  revert seg s. induction l as [|wr rest IH]; intros seg s; simpl.
  { apply touches_wrapping_refl. }
  pose proof (update_wrapping_segment_footprint seg wr s) as H.
  destruct (update_wrapping_segment seg wr s) as [[|e] s1]; simpl in *;
    [|done].
  eapply touches_wrapping_trans; [exact H|apply IH].
Qed.

Lemma update_wrapping_footprint l s :
  touches set_wrapping s (snd (update_wrapping l s)).
Proof.
  unfold update_wrapping.
  eapply touches_wrapping_trans; [|apply update_wrapping_loop_footprint].
  destruct (all_wrappings _);
    [apply touches_wrapping_set|apply touches_wrapping_refl].
Qed.

Lemma perform_footprint k s : touches_part (part_of k) s (snd (perform k s)).
Proof.
  destruct k; cbn [perform part_of touches_part].
  - apply point_set_footprint.
  - apply point_set_footprint.
  - unfold set_point_size.
    eapply touches_points_trans; [apply touches_points_set'|].
    apply point_set_footprint.
  - unfold set_point_color.
    eapply touches_points_trans; [apply touches_points_set'|].
    apply point_set_footprint.
  - unfold set_point_opacity.
    eapply touches_points_trans; [apply touches_points_set'|].
    apply point_set_footprint.
  - apply mesh_footprint.
  - apply mesh_footprint.
  - unfold set_mesh_color.
    eapply touches_mesh_trans; [|apply mesh_footprint].
    first [rewrite <- (call_nil (set_mesh _ _)); apply touches_mesh_set
          |rewrite <- (call_nil (set_muscle _ _)); apply touches_muscle_set].
  - unfold set_mesh_opacity.
    eapply touches_mesh_trans; [|apply mesh_footprint].
    first [rewrite <- (call_nil (set_mesh _ _)); apply touches_mesh_set
          |rewrite <- (call_nil (set_muscle _ _)); apply touches_muscle_set].
  - apply muscle_footprint.
  - apply muscle_footprint.
  - unfold set_muscle_color, call_method. cbn [getattr mesh_list_methods].
    change (String.eqb _ "update_muscles") with false at 1.
    change (String.eqb _ "update_muscles") with false at 1.
    change (String.eqb _ "update_muscles") with false at 1.
    change (String.eqb _ "update_muscles") with false at 1. cbn [snd].
    first [rewrite <- (call_nil (set_mesh _ _)); apply touches_mesh_set
          |rewrite <- (call_nil (set_muscle _ _)); apply touches_muscle_set].
  - unfold set_muscle_opacity, call_method. cbn [getattr mesh_list_methods].
    change (String.eqb _ "update_muscle") with false at 1.
    change (String.eqb _ "update_muscle") with false at 1.
    change (String.eqb _ "update_muscle") with false at 1.
    change (String.eqb _ "update_muscle") with true at 1. cbn iota.
    eapply touches_muscle_trans; [|apply muscle_footprint].
    first [rewrite <- (call_nil (set_mesh _ _)); apply touches_mesh_set
          |rewrite <- (call_nil (set_muscle _ _)); apply touches_muscle_set].
  - apply update_wrapping_footprint.
  - apply new_wrapping_set_footprint.
  - unfold set_wrapping_color.
    eapply touches_wrapping_trans; [apply touches_wrapping_set|].
    apply update_wrapping_footprint.
  - unfold set_wrapping_opacity.
    eapply touches_wrapping_trans; [apply touches_wrapping_set|].
    apply update_wrapping_footprint.
  - apply rt_footprint.
  - apply rt_footprint.
  - unfold create_global_ref_frame. destruct (has_global_ref_frame s) eqn:E.
    + exists [], (next_actor s), true. destruct s; unfold call; simpl in *.
      rewrite app_nil_r. by subst.
    + cbn [snd]. apply touches_step.
Qed.

Lemma count_app f evs1 evs2 : count f (evs1 ++ evs2) = count f evs1 + count f evs2.
Proof. unfold count. by rewrite filter_app, length_app. Qed.

Lemma count_cons f e evs :
  count f (e :: evs) = (if f e then 1 else 0) + count f evs.
Proof.
  unfold count. rewrite filter_cons. destruct (f e) eqn:E.
  - by rewrite decide_True.
  - by rewrite decide_False.
Qed.

Lemma sphere_loop_length p m i acts :
  length (sphere_loop p m i acts).1.2 = length acts.
Proof.
  revert i. induction acts as [|a rest IH]; intros i; simpl; [done|].
  destruct (channel m !! i); simpl; [|done].
  specialize (IH (S i)). destruct (sphere_loop p m (S i) rest) as [[r l] e].
  simpl in *. by rewrite IH.
Qed.

Lemma sphere_loop_ids p m i acts :
  actor_id <$> (sphere_loop p m i acts).1.2 = actor_id <$> acts.
Proof.
  revert i. induction acts as [|a rest IH]; intros i; simpl; [done|].
  destruct (channel m !! i); simpl; [|done].
  specialize (IH (S i)). destruct (sphere_loop p m (S i) rest) as [[r l] e].
  simpl in *. by f_equal.
Qed.

(** With a column for every actor the pass returns, and actor [j] ends as
    the sphere of column [i + j] in the current style. *)
Lemma sphere_loop_ok p m i acts :
  i + length acts ≤ channel_size m →
  ∃ acts' evs,
    sphere_loop p m i acts = (Returned, acts', evs)
    ∧ Forall2 (fun a' '(a, c) => a' = placed p c a) acts'
        (zip acts (drop i (channel m)))
    ∧ count is_SetInputConnection evs = length acts
    ∧ count is_renderer_call evs = 0.
Proof.
  unfold channel_size. revert i.
  induction acts as [|a rest IH]; intros i Hlen; simpl in *.
  { exists [], []. by repeat split. }
  destruct (channel m !! i) as [c|] eqn:Hc.
  2: { apply lookup_ge_None in Hc. lia. }
  destruct (IH (S i)) as (acts' & evs & -> & Hf & Hn & Hr); [lia|].
  eexists _, _. split; [done|].
  erewrite drop_S by done. simpl. split; [|split].
  - by constructor.
  - rewrite !count_cons. simpl. by rewrite Hn.
  - rewrite !count_cons. simpl. by rewrite Hr.
Qed.

(** Running the pass on its own result changes nothing. *)
Lemma sphere_loop_idem p m i acts r acts' evs :
  sphere_loop p m i acts = (r, acts', evs) →
  sphere_loop p m i acts' = (r, acts', evs).
Proof.
  revert i r acts' evs.
  induction acts as [|a rest IH]; intros i r acts' evs; simpl.
  { by intros [= <- <- <-]. }
  destruct (channel m !! i) as [c|] eqn:Hc.
  - destruct (sphere_loop p m (S i) rest) as [[r1 l1] e1] eqn:E.
    intros [= <- <- <-]. simpl. rewrite Hc.
    by rewrite (IH _ _ _ _ E).
  - intros [= <- <- <-]. simpl. by rewrite Hc.
Qed.

Lemma point_set_set_point_set c p s : point_set c (set_point_set c p s) = p.
Proof. by destruct c. Qed.

Lemma point_set_call c evs s : point_set c (call evs s) = point_set c s.
Proof. by destruct c. Qed.

Lemma point_set_set_next_actor c n s :
  point_set c (set_next_actor n s) = point_set c s.
Proof. by destruct c. Qed.

Lemma point_set_other c c' p s :
  c ≠ c' → point_set c' (set_point_set c p s) = point_set c' s.
Proof. by destruct c, c'. Qed.

Lemma touches_points_other c c' s s' :
  c ≠ c' → touches (set_point_set c) s s' → point_set c' s' = point_set c' s.
Proof.
  intros Hne (evs & n & x & ->).
  by rewrite point_set_call, point_set_set_next_actor, point_set_other.
Qed.

Lemma touches_part_points p c s s' :
  p ≠ PartPoints c → touches_part p s s' → point_set c s' = point_set c s.
Proof.
  intros Hne H. destruct p as [c0| | | | |]; simpl in H.
  - apply (touches_points_other c0); [congruence|done].
  - destruct H as (evs & n & x & ->). by destruct c.
  - destruct H as (evs & n & x & ->). by destruct c.
  - destruct H as (evs & n & x & ->). by destruct c.
  - destruct H as (evs & n & x & ->). by destruct c.
  - destruct H as (evs & n & x & ->). by destruct c.
Qed.

Lemma sphere_actors_length ids : length (sphere_actors ids) = length ids.
Proof. unfold sphere_actors. by rewrite length_fmap. Qed.

Lemma sphere_actors_ids ids : actor_id <$> sphere_actors ids = ids.
Proof.
  unfold sphere_actors. induction ids as [|i ids IH]; [done|].
  rewrite !fmap_cons, IH. done.
Qed.

Lemma fresh_ids_length s n : length (fresh_ids s n) = n.
Proof. unfold fresh_ids. by rewrite length_seq. Qed.

Lemma point_set_invariant d c m s :
  actors_match_frame c s →
  actors_match_frame c (update_point_set d c m s).2
  ∧ actors_match_frame c (new_point_set d c m s).2.
Proof.
  revert m s. induction d as [|d IH]; intros m s Hinv; [by split|].
  split.
  - simpl. destruct (update_rejects m); [done|].
    destruct (channel_size m =? _) eqn:E; simpl.
    + apply Nat.eqb_eq in E.
      pose proof (sphere_loop_length (with_frame m (point_set c s)) m 0
                    (ps_actors (point_set c s))) as Hl.
      destruct (sphere_loop _ _ _ _) as [[r acts] evs]. simpl in *.
      unfold actors_match_frame.
      rewrite point_set_call, point_set_set_point_set. simpl.
      rewrite Hl, E. apply Hinv.
    + by apply IH.
  - simpl. destruct (new_set_rejects c m); [done|].
    apply IH. unfold actors_match_frame.
    rewrite point_set_call, point_set_set_next_actor, point_set_set_point_set.
    simpl. by rewrite sphere_actors_length, fresh_ids_length.
Qed.

Lemma perform_invariant k c s :
  actors_match_frame c s → actors_match_frame c (perform k s).2.
Proof.
  intros Hinv.
  destruct (decide (part_of k = PartPoints c)) as [Hk|Hk].
  - destruct k; try discriminate Hk; injection Hk as ->;
      cbn [perform].
    + by apply point_set_invariant.
    + by apply point_set_invariant.
    + apply point_set_invariant. unfold actors_match_frame.
      by rewrite point_set_set_point_set.
    + apply point_set_invariant. unfold actors_match_frame.
      by rewrite point_set_set_point_set.
    + apply point_set_invariant. unfold actors_match_frame.
      by rewrite point_set_set_point_set.
  - unfold actors_match_frame.
    by rewrite (touches_part_points _ _ _ _ Hk (perform_footprint k s)).
Qed.

Lemma run_invariant ks c s :
  actors_match_frame c s → actors_match_frame c (run ks s).
Proof.
  revert s. induction ks as [|k ks IH]; intros s Hinv; [done|].
  apply IH. by apply perform_invariant.
Qed.

Lemma init_invariant o c : actors_match_frame c (VtkModel_init o).
Proof. by destruct c. Qed.

Lemma update_rejects_false m : time_size m = 1 → update_rejects m = false.
Proof. unfold update_rejects. by intros ->. Qed.

Lemma update_point_set_fast d c m s :
  time_size m = 1 →
  channel_size m = channel_size (ps_frame (point_set c s)) →
  update_point_set (S d) c m s = fast_path c m s.
Proof.
  intros Ht Hc. simpl. rewrite (update_rejects_false _ Ht), <- Hc.
  by rewrite Nat.eqb_refl.
Qed.

Lemma update_point_set_rebuild d c m s :
  time_size m = 1 →
  channel_size m ≠ channel_size (ps_frame (point_set c s)) →
  update_point_set (S d) c m s = new_point_set d c m s.
Proof.
  intros Ht Hc. simpl. rewrite (update_rejects_false _ Ht).
  apply Nat.eqb_neq in Hc. by rewrite Hc.
Qed.

Lemma point_set_recreated c m s :
  point_set c (recreated c m s)
  = with_actors (sphere_actors (fresh_ids s (channel_size m)))
      (with_frame m (point_set c s)).
Proof.
  unfold recreated.
  by rewrite point_set_call, point_set_set_next_actor, point_set_set_point_set.
Qed.

Lemma new_point_set_rebuild d c m s :
  new_set_rejects c m = false → time_size m = 1 →
  new_point_set (S (S d)) c m s = fast_path c m (recreated c m s).
Proof.
  intros Hr Ht. cbn [new_point_set]. rewrite Hr.
  fold (recreated c m s). rewrite point_set_recreated. cbn [ps_frame with_actors with_frame].
  apply update_point_set_fast; [done|].
  by rewrite point_set_recreated.
Qed.

(** The pass on a model whose actors match the frame. *)
Lemma fast_path_spec c m s :
  length (ps_actors (point_set c s)) = channel_size m →
  ∃ acts evs,
    fast_path c m s
    = (Returned,
       call evs (set_point_set c (with_actors acts (with_frame m (point_set c s))) s))
    ∧ Forall2 (fun a' '(a, pt) => a' = placed (point_set c s) pt a) acts
        (zip (ps_actors (point_set c s)) (channel m))
    ∧ count is_SetInputConnection evs = channel_size m
    ∧ count is_renderer_call evs = 0.
Proof.
  intros Hlen. unfold fast_path.
  destruct (sphere_loop_ok (with_frame m (point_set c s)) m 0
              (ps_actors (point_set c s)))
    as (acts & evs & E & Hf & Hn & Hr); [simpl; lia|].
  simpl in E. cbn [ps_actors with_frame]. rewrite E.
  exists acts, evs. rewrite drop_0 in Hf. by rewrite <- Hlen.
Qed.

Lemma points_loop_length l acts :
  length (points_loop l acts).1.2 = length acts.
Proof.
  revert acts. induction l as [|m rest IH]; intros acts; simpl; [done|].
  destruct acts as [|a acts']; [done|].
  destruct (SetPoints_ (vertices m) a); [|done].
  specialize (IH acts'). destruct (points_loop rest acts') as [[r x] e].
  simpl in *. by rewrite IH.
Qed.

Lemma SetPoints_idem pts a a' :
  SetPoints_ pts a = Some a' → SetPoints_ pts a' = Some a' ∧ actor_id a' = actor_id a.
Proof.
  unfold SetPoints_. destruct (mapper_input a) as [| |pd] eqn:E; try done.
  intros [= <-]. simpl. done.
Qed.

Lemma SetPoints_None pts a :
  SetPoints_ pts a = None → ¬ has_polydata a.
Proof.
  unfold SetPoints_. intros H [pd Hpd]. by rewrite Hpd in H.
Qed.

Lemma SetPoints_shows pts a a' : SetPoints_ pts a = Some a' → shows pts a'.
Proof.
  unfold SetPoints_. destruct (mapper_input a) as [| |pd]; try done.
  intros [= <-]. eexists. by split.
Qed.

Lemma points_loop_idem l acts r acts' evs :
  points_loop l acts = (r, acts', evs) →
  points_loop l acts' = (r, acts', evs).
Proof.
  revert acts r acts' evs.
  induction l as [|m rest IH]; intros acts r acts' evs; simpl.
  { by intros [= <- <- <-]. }
  destruct acts as [|a acts0]; [by intros [= <- <- <-]|].
  destruct (SetPoints_ (vertices m) a) as [a1|] eqn:Ea.
  - destruct (points_loop rest acts0) as [[r1 x1] e1] eqn:E.
    intros [= <- <- <-].
    destruct (SetPoints_idem _ _ _ Ea) as [-> ->].
    by rewrite (IH _ _ _ _ E).
  - intros [= <- <- <-]. by rewrite Ea.
Qed.

Lemma points_loop_ok l acts :
  length l ≤ length acts → Forall has_polydata acts →
  ∃ acts' evs,
    points_loop l acts = (Returned, acts', evs)
    ∧ Forall2 (fun m a => shows (vertices m) a) l (take (length l) acts')
    ∧ count is_renderer_call evs = 0.
Proof.
  revert acts. induction l as [|m rest IH]; intros acts Hlen Hp; simpl in *.
  { exists acts, []. rewrite take_0. by repeat split. }
  destruct acts as [|a acts0]; simpl in *; [lia|].
  apply Forall_cons in Hp as [[pd Ha] Hp].
  unfold SetPoints_ at 1. rewrite Ha.
  destruct (IH acts0) as (acts' & evs & -> & Hf & Hc); [lia|done|].
  eexists _, _. split; [done|]. split.
  - simpl. constructor; [|done]. eexists. by split.
  - rewrite count_cons. simpl. done.
Qed.

Lemma points_loop_returned l acts acts' evs :
  points_loop l acts = (Returned, acts', evs) →
  Forall2 (fun m a => shows (vertices m) a) l (take (length l) acts').
Proof.
  revert acts acts' evs.
  induction l as [|m rest IH]; intros acts acts' evs; simpl.
  { intros _. rewrite take_0. constructor. }
  destruct acts as [|a acts0]; [done|].
  destruct (SetPoints_ (vertices m) a) as [a1|] eqn:Ea; [|done].
  destruct (points_loop rest acts0) as [[r1 x1] e1] eqn:E.
  intros [= -> <- <-]. simpl. constructor.
  - by eapply SetPoints_shows.
  - by eapply IH.
Qed.

Lemma mesh_scan_same st i l :
  mesh_scan st i l = ScanSame →
  Forall one_frame l
  ∧ ∀ j m, l !! j = Some m →
      ∃ m0, st !! (i + j) = Some m0
            ∧ mesh_channel_size m = mesh_channel_size m0.
Proof.
  revert i. induction l as [|m rest IH]; intros i; simpl.
  { intros _. split; [constructor|]. intros j m H. by destruct j. }
  destruct (mesh_time_size m =? 1) eqn:Et; simpl; [|done].
  destruct (st !! i) as [m0|] eqn:Es; [|done].
  destruct (mesh_channel_size m =? mesh_channel_size m0) eqn:Ec; simpl;
    [|done].
  intros H. destruct (IH _ H) as [Hf Hj].
  apply Nat.eqb_eq in Et, Ec. split; [by constructor|].
  intros [|j] m' Hm'; simpl in Hm'.
  - injection Hm' as <-. exists m0. by rewrite Nat.add_0_r.
  - destruct (Hj j m' Hm') as (m1 & H1 & H2). exists m1.
    by rewrite <- Nat.add_succ_comm.
Qed.

Lemma mesh_scan_self pre l :
  Forall one_frame l → mesh_scan (pre ++ l) (length pre) l = ScanSame.
Proof.
  revert pre. induction l as [|m rest IH]; intros pre Hf; simpl; [done|].
  apply Forall_cons in Hf as [Hm Hf]. unfold one_frame in Hm. rewrite Hm.
  simpl. rewrite lookup_app_r, Nat.sub_diag by lia. simpl.
  rewrite Nat.eqb_refl. simpl.
  specialize (IH (pre ++ [m]) Hf).
  by rewrite <- app_assoc, length_app, Nat.add_1_r in IH.
Qed.

Lemma mesh_scan_raise st i l :
  mesh_scan st i l = ScanRaise → ¬ Forall one_frame l.
Proof.
  revert i. induction l as [|m rest IH]; intros i; simpl; [done|].
  destruct (mesh_time_size m =? 1) eqn:Et; simpl.
  - destruct (st !! i) as [m0|]; [|done].
    destruct (negb _); [done|].
    intros H Hf. apply Forall_cons in Hf as [_ Hf]. by eapply IH.
  - intros _ Hf. apply Forall_cons in Hf as [Hm _].
    apply Nat.eqb_neq in Et. done.
Qed.

Lemma points_loop_calls f l acts :
  (∀ a p, f (SetPoints a p) = false) → count f (points_loop l acts).2 = 0.
Proof.
  intros Hf. revert acts. induction l as [|m rest IH]; intros acts; simpl;
    [done|].
  destruct acts as [|a acts0]; [done|].
  destruct (SetPoints_ (vertices m) a); [|done].
  specialize (IH acts0). destruct (points_loop rest acts0) as [[r x] e].
  simpl in *. by rewrite count_cons, Hf, IH.
Qed.

Lemma SetPoints_same_look pts a a' : SetPoints_ pts a = Some a' → same_look a a'.
Proof.
  unfold SetPoints_. destruct (mapper_input a); try done.
  by intros [= <-].
Qed.

Lemma points_loop_same_look l acts :
  Forall2 same_look acts (points_loop l acts).1.2.
Proof.
  revert acts. induction l as [|m rest IH]; intros acts; simpl.
  { apply Forall2_same_length_lookup_2; [done|]. by intros i x y -> [= <-]. }
  destruct acts as [|a acts0]; [constructor|].
  destruct (SetPoints_ (vertices m) a) as [a'|] eqn:Ea; simpl.
  - specialize (IH acts0). destruct (points_loop rest acts0) as [[r x] e].
    simpl in *. constructor; [by eapply SetPoints_same_look|done].
  - apply Forall2_same_length_lookup_2; [done|]. by intros i x y -> [= <-].
Qed.

(** ** Meshes *)

Lemma mesh_build_loop_ok op col id l :
  Forall one_frame l →
  ∃ col' acts evs,
    mesh_build_loop op col id l = (Returned, col', acts, evs)
    ∧ length acts = length l
    ∧ Forall has_polydata acts
    ∧ count is_ResetCamera evs = length l
    ∧ (col = black → col' = black
                     ∧ Forall (fun a => prop_color a = Some black) acts).
Proof.
  revert col id. induction l as [|m rest IH]; intros col id Hf; simpl.
  { exists col, [], []. by repeat split. }
  apply Forall_cons in Hf as [Hm Hf]. unfold one_frame in Hm. rewrite Hm.
  simpl.
  destruct (IH (if draws_outline m then black else col) (S id) Hf)
    as (col' & acts & evs & -> & Hl & Hp & Hc & Hb).
  eexists _, _, _. split; [done|]. simpl.
  split; [by rewrite Hl|]. split.
  { constructor; [|done]. destruct (draws_outline m); by eexists. }
  split.
  { rewrite !count_cons. simpl. by rewrite Hc. }
  intros ->.
  destruct Hb as [Hb1 Hb2]; [by destruct (draws_outline m)|].
  split; [done|]. constructor; [|done].
  simpl. by destruct (draws_outline m).
Qed.

Lemma mesh_build_loop_returned op col id l col' acts evs :
  mesh_build_loop op col id l = (Returned, col', acts, evs) →
  Forall one_frame l.
Proof.
  revert col id col' acts evs.
  induction l as [|m rest IH]; intros col id col' acts evs; simpl;
    [constructor|].
  destruct (mesh_time_size m =? 1) eqn:Et; simpl; [|done].
  destruct (mesh_build_loop _ _ _ rest) as [[[r c] a] e] eqn:E.
  intros [= -> <- <- <-]. constructor; [by apply Nat.eqb_eq|by eapply IH].
Qed.

(** Black stays black through the loop, whatever its outcome. *)
Lemma mesh_build_loop_black op id l :
  (mesh_build_loop op black id l).1.1.2 = black
  ∧ Forall (fun a => prop_color a = Some black)
      (mesh_build_loop op black id l).1.2.
Proof.
  revert id. induction l as [|m rest IH]; intros id; simpl; [done|].
  destruct (negb _); [done|].
  replace (if draws_outline m then black else black) with black
    by by destruct (draws_outline m).
  specialize (IH (S id)).
  destruct (mesh_build_loop op black (S id) rest) as [[[r c] a] e].
  simpl in *. destruct IH as [-> Ha]. split; [done|].
  constructor; [|done]. done.
Qed.

(** Once the loop reaches a mesh that takes the outline branch, the colour
    it hands back is black. *)
Lemma mesh_build_loop_outline op col id l i m :
  l !! i = Some m → Forall one_frame (take (S i) l) →
  draws_outline m = true →
  (mesh_build_loop op col id l).1.1.2 = black.
Proof.
  revert col id i. induction l as [|m0 rest IH]; intros col id i; [done|].
  intros Hi Hf Hd. rewrite firstn_cons in Hf.
  apply Forall_cons in Hf as [Hm0 Hf]. unfold one_frame in Hm0.
  simpl. rewrite Hm0. simpl.
  destruct i as [|i]; simpl in Hi.
  - injection Hi as ->. rewrite Hd.
    pose proof (mesh_build_loop_black op (S id) rest) as [Hb _].
    destruct (mesh_build_loop op black (S id) rest) as [[[r c] a] e].
    simpl in *. done.
  - specialize (IH (if draws_outline m0 then black else col) (S id) i Hi Hf Hd).
    destruct (mesh_build_loop _ _ _ rest) as [[[r c] a] e]. simpl in *. done.
Qed.

Lemma count_remove_calls f acts :
  (∀ a, f (RemoveActor a) = false) → count f (remove_calls acts) = 0.
Proof.
  intros Hf. unfold remove_calls.
  induction acts as [|a acts IH]; [done|].
  rewrite fmap_cons, count_cons, Hf. done.
Qed.

Lemma update_mesh_at_same d l s :
  mesh_scan (all_meshes (mesh s)) 0 l = ScanSame →
  update_mesh_at (S d) l s
  = let '(r, acts, evs) := points_loop l (mesh_actors (mesh s)) in
    (r, call evs (set_mesh (mkMeshSet l (mesh_color (mesh s))
                              (mesh_opacity (mesh s)) acts) s)).
Proof. intros H. simpl. rewrite H. by destruct (points_loop _ _) as [[??]?]. Qed.

(** The rebuild of a list of single-frame meshes at call depth two or
    more. *)
Lemma new_mesh_set_at_ok d l s :
  Forall one_frame l →
  let r := new_mesh_set_at (S (S d)) l s in
  r.1 = Returned
  ∧ all_meshes (mesh r.2) = l
  ∧ length (mesh_actors (mesh r.2)) = length l
  ∧ Forall2 (fun m a => shows (vertices m) a) l (mesh_actors (mesh r.2))
  ∧ (mesh_color (mesh s) = black →
     Forall (fun a => prop_color a = Some black) (mesh_actors (mesh r.2)))
  ∧ ∃ evs, vtk_calls r.2 = vtk_calls s ++ evs
           ∧ count is_ResetCamera evs = length l.
Proof.
  intros Hf.
  destruct (mesh_build_loop_ok (mesh_opacity (mesh s)) (mesh_color (mesh s))
              (next_actor s) l Hf)
    as (col & acts0 & evs0 & E & Hl & Hp & Hc & Hb).
  cbn [new_mesh_set_at]. rewrite E. cbn zeta iota beta.
  rewrite update_mesh_at_same
    by (cbn [mesh all_meshes set_mesh call set_next_actor];
        apply (mesh_scan_self [] l Hf)).
  cbn [mesh all_meshes mesh_actors mesh_color mesh_opacity set_mesh call
         set_next_actor].
  destruct (points_loop_ok l acts0) as (acts & evs & E2 & Hs & Hr);
    [lia|done|].
  pose proof (points_loop_length l acts0) as Hlen. rewrite E2 in Hlen |- *.
  simpl in Hlen. simpl. split; [done|]. split; [done|]. split; [lia|].
  split. { rewrite <- Hl, <- Hlen, firstn_all in Hs. done. }
  pose proof (points_loop_same_look l acts0) as Hlook.
  pose proof (points_loop_calls is_ResetCamera l acts0) as Hcalls.
  rewrite E2 in Hlook, Hcalls. simpl in Hlook, Hcalls.
  split.
  { intros Hblack. destruct (Hb Hblack) as [_ Hcols].
    eapply Forall2_Forall_r; [exact Hlook|].
    eapply Forall_impl; [exact Hcols|].
    intros a Ha a' (_ & -> & _). done. }
  eexists. rewrite <- app_assoc. split; [done|].
  rewrite !count_app, count_remove_calls, Hc, Hcalls by done. lia.
Qed.

Lemma new_mesh_set_at_returned d l s :
  (new_mesh_set_at (S d) l s).1 = Returned → Forall one_frame l.
Proof.
  cbn [new_mesh_set_at].
  destruct (mesh_build_loop _ _ _ l) as [[[r c] a] e] eqn:E.
  destruct r; [|done]. intros _. by eapply mesh_build_loop_returned.
Qed.

(** ** Muscles *)

Lemma muscle_build_loop_ok op col id l :
  Forall one_frame l →
  ∃ acts evs,
    muscle_build_loop op col id l = (Returned, acts, evs)
    ∧ length acts = length l
    ∧ Forall has_polydata acts
    ∧ count is_ResetCamera evs = length l.
Proof.
  revert id. induction l as [|m rest IH]; intros id Hf; simpl.
  { exists [], []. by repeat split. }
  apply Forall_cons in Hf as [Hm Hf]. unfold one_frame in Hm. rewrite Hm.
  simpl. destruct (IH (S id) Hf) as (acts & evs & -> & Hl & Hp & Hc).
  eexists _, _. split; [done|]. simpl.
  split; [by rewrite Hl|]. split.
  { constructor; [by eexists|done]. }
  rewrite !count_cons. simpl. by rewrite Hc.
Qed.

Lemma muscle_build_loop_returned op col id l acts evs :
  muscle_build_loop op col id l = (Returned, acts, evs) → Forall one_frame l.
Proof.
  revert id acts evs.
  induction l as [|m rest IH]; intros id acts evs; simpl; [constructor|].
  destruct (mesh_time_size m =? 1) eqn:Et; simpl; [|done].
  destruct (muscle_build_loop _ _ _ rest) as [[r a] e] eqn:E.
  intros [= -> <- <-]. constructor; [by apply Nat.eqb_eq|by eapply IH].
Qed.

Lemma update_muscle_at_same d l s :
  mesh_scan (all_muscles (muscle s)) 0 l = ScanSame →
  update_muscle_at (S d) l s
  = let '(r, acts, evs) := points_loop l (muscle_actors (muscle s)) in
    (r, call evs (set_muscle (mkMuscleSet l (muscle_color (muscle s))
                                (muscle_opacity (muscle s)) acts) s)).
Proof. intros H. simpl. rewrite H. by destruct (points_loop _ _) as [[??]?]. Qed.

Lemma new_muscle_set_at_ok d l s :
  Forall one_frame l →
  let r := new_muscle_set_at (S (S d)) l s in
  r.1 = Returned
  ∧ all_muscles (muscle r.2) = l
  ∧ length (muscle_actors (muscle r.2)) = length l
  ∧ Forall2 (fun m a => shows (vertices m) a) l (muscle_actors (muscle r.2))
  ∧ ∃ evs, vtk_calls r.2 = vtk_calls s ++ evs
           ∧ count is_ResetCamera evs = length l.
Proof.
  intros Hf.
  destruct (muscle_build_loop_ok (muscle_opacity (muscle s))
              (muscle_color (muscle s)) (next_actor s) l Hf)
    as (acts0 & evs0 & E & Hl & Hp & Hc).
  cbn [new_muscle_set_at]. rewrite E. cbn zeta iota beta.
  rewrite update_muscle_at_same
    by (cbn [muscle all_muscles set_muscle call set_next_actor];
        apply (mesh_scan_self [] l Hf)).
  cbn [muscle all_muscles muscle_actors muscle_color muscle_opacity
         set_muscle call set_next_actor].
  destruct (points_loop_ok l acts0) as (acts & evs & E2 & Hs & Hr);
    [lia|done|].
  pose proof (points_loop_length l acts0) as Hlen.
  pose proof (points_loop_calls is_ResetCamera l acts0) as Hcalls.
  rewrite E2 in Hlen, Hcalls |- *.
  simpl in Hlen, Hcalls. simpl. split; [done|]. split; [done|].
  split; [lia|].
  split. { rewrite <- Hl, <- Hlen, firstn_all in Hs. done. }
  eexists. rewrite <- app_assoc. split; [done|].
  rewrite !count_app, count_remove_calls, Hc, Hcalls by done. lia.
Qed.

Lemma new_muscle_set_at_returned d l s :
  (new_muscle_set_at (S d) l s).1 = Returned → Forall one_frame l.
Proof.
  cbn [new_muscle_set_at].
  destruct (muscle_build_loop _ _ _ l) as [[r a] e] eqn:E.
  destruct r; [|done]. intros _. by eapply muscle_build_loop_returned.
Qed.

(** ** Local frames *)

Lemma rt_build_loop_ok w id l :
  Forall rt_one_frame l →
  ∃ acts evs,
    rt_build_loop w id l = (Returned, acts, evs)
    ∧ length acts = length l
    ∧ Forall has_polydata acts
    ∧ count is_ResetCamera evs = length l.
Proof.
  revert id. induction l as [|m rest IH]; intros id Hf; simpl.
  { exists [], []. by repeat split. }
  apply Forall_cons in Hf as [Hm Hf]. unfold rt_one_frame in Hm. rewrite Hm.
  simpl. destruct (IH (S id) Hf) as (acts & evs & -> & Hl & Hp & Hc).
  eexists _, _. split; [done|]. simpl.
  split; [by rewrite Hl|]. split.
  { constructor; [by eexists|done]. }
  rewrite !count_cons. simpl. by rewrite Hc.
Qed.

Lemma rt_build_loop_returned w id l acts evs :
  rt_build_loop w id l = (Returned, acts, evs) → Forall rt_one_frame l.
Proof.
  revert id acts evs.
  induction l as [|m rest IH]; intros id acts evs; simpl; [constructor|].
  destruct (rt_time_size m =? 1) eqn:Et; simpl; [|done].
  destruct (rt_build_loop _ _ rest) as [[r a] e] eqn:E.
  intros [= -> <- <-]. constructor; [by apply Nat.eqb_eq|by eapply IH].
Qed.

Lemma rt_points_loop_length len l acts :
  length (rt_points_loop len l acts).1.2 = length acts.
Proof.
  revert acts. induction l as [|m rest IH]; intros acts; simpl; [done|].
  destruct (negb _); [done|].
  destruct acts as [|a acts']; [done|].
  destruct (SetPoints_ _ a); [|done].
  specialize (IH acts'). destruct (rt_points_loop len rest acts') as [[r x] e].
  simpl in *. by rewrite IH.
Qed.

Lemma rt_points_loop_calls f len l acts :
  (∀ a p, f (SetPoints a p) = false) →
  count f (rt_points_loop len l acts).2 = 0.
Proof.
  intros Hf. revert acts. induction l as [|m rest IH]; intros acts; simpl;
    [done|].
  destruct (negb _); [done|].
  destruct acts as [|a acts0]; [done|].
  destruct (SetPoints_ _ a); [|done].
  specialize (IH acts0). destruct (rt_points_loop len rest acts0) as [[r x] e].
  simpl in *. by rewrite count_cons, Hf, IH.
Qed.

Lemma rt_points_loop_idem len l acts r acts' evs :
  rt_points_loop len l acts = (r, acts', evs) →
  rt_points_loop len l acts' = (r, acts', evs).
Proof.
  revert acts r acts' evs.
  induction l as [|m rest IH]; intros acts r acts' evs; simpl.
  { by intros [= <- <- <-]. }
  destruct (negb _); [by intros [= <- <- <-]|].
  destruct acts as [|a acts0]; [by intros [= <- <- <-]|].
  destruct (SetPoints_ _ a) as [a1|] eqn:Ea.
  - destruct (rt_points_loop len rest acts0) as [[r1 x1] e1] eqn:E.
    intros [= <- <- <-].
    destruct (SetPoints_idem _ _ _ Ea) as [-> ->].
    by rewrite (IH _ _ _ _ E).
  - intros [= <- <- <-]. by rewrite Ea.
Qed.

Lemma rt_points_loop_ok len l acts :
  Forall rt_one_frame l → length l ≤ length acts →
  Forall has_polydata acts →
  ∃ acts' evs,
    rt_points_loop len l acts = (Returned, acts', evs)
    ∧ Forall2 (fun r a => shows (rt_points r len) a) l
        (take (length l) acts').
Proof.
  revert acts. induction l as [|m rest IH]; intros acts Hf Hlen Hp;
    simpl in *.
  { exists acts, []. rewrite take_0. by repeat split. }
  apply Forall_cons in Hf as [Hm Hf]. unfold rt_one_frame in Hm. rewrite Hm.
  simpl.
  destruct acts as [|a acts0]; simpl in *; [lia|].
  apply Forall_cons in Hp as [[pd Ha] Hp].
  unfold SetPoints_ at 1. rewrite Ha.
  destruct (IH acts0) as (acts' & evs & -> & Hs); [done|lia|done|].
  eexists _, _. split; [done|].
  simpl. constructor; [|done]. eexists. by split.
Qed.

Lemma update_rt_at_same d l s :
  length l = n_rt (rt s) →
  update_rt_at (S d) l s
  = let '(o, acts, evs) :=
      rt_points_loop (rt_length (rt s)) l (rt_actors (rt s)) in
    (o, call evs (set_rt (mkRtSet l (n_rt (rt s)) (rt_length (rt s))
                            (rt_width (rt s)) acts) s)).
Proof.
  intros H. simpl. rewrite H, Nat.eqb_refl. simpl.
  by destruct (rt_points_loop _ _ _) as [[??]?].
Qed.

Lemma new_rt_set_at_ok d l s :
  Forall rt_one_frame l →
  let r := new_rt_set_at (S (S d)) l s in
  r.1 = Returned
  ∧ all_rt (rt r.2) = l ∧ n_rt (rt r.2) = length l
  ∧ length (rt_actors (rt r.2)) = length l
  ∧ Forall2 (fun x a => shows (rt_points x (rt_length (rt s))) a) l
      (rt_actors (rt r.2))
  ∧ ∃ evs, vtk_calls r.2 = vtk_calls s ++ evs
           ∧ count is_ResetCamera evs = length l.
Proof.
  intros Hf.
  destruct (rt_build_loop_ok (rt_width (rt s)) (next_actor s) l Hf)
    as (acts0 & evs0 & E & Hl & Hp & Hc).
  cbn [new_rt_set_at]. rewrite E. cbn zeta iota beta.
  rewrite update_rt_at_same by done.
  cbn [rt all_rt n_rt rt_length rt_width rt_actors set_rt call
         set_next_actor with_n_rt with_rt_actors].
  destruct (rt_points_loop_ok (rt_length (rt s)) l acts0)
    as (acts & evs & E2 & Hs); [done|lia|done|].
  pose proof (rt_points_loop_length (rt_length (rt s)) l acts0) as Hlen.
  pose proof (rt_points_loop_calls is_ResetCamera (rt_length (rt s)) l acts0)
    as Hcalls.
  rewrite E2 in Hlen, Hcalls |- *.
  simpl in Hlen, Hcalls. simpl. split; [done|]. split; [done|].
  split; [done|]. split; [lia|].
  split. { rewrite <- Hl, <- Hlen, firstn_all in Hs. done. }
  eexists. rewrite <- app_assoc. split; [done|].
  rewrite !count_app, count_remove_calls, Hc, Hcalls by done. lia.
Qed.

Lemma new_rt_set_at_returned d l s :
  (new_rt_set_at (S d) l s).1 = Returned → Forall rt_one_frame l.
Proof.
  cbn [new_rt_set_at].
  destruct (rt_build_loop _ _ l) as [[r a] e] eqn:E.
  destruct r; [|done]. intros _. by eapply rt_build_loop_returned.
Qed.

(** ** Wrappings *)

Lemma wrapping_build_loop_ok op col id l :
  Forall one_frame l →
  ∃ acts evs,
    wrapping_build_loop op col id l = (Returned, acts, evs)
    ∧ length acts = length l
    ∧ Forall2 (fun m a => shows (placeholder_points m) a) l acts
    ∧ count is_ResetCamera evs = length l.
Proof.
  revert id. induction l as [|m rest IH]; intros id Hf; simpl.
  { exists [], []. by repeat split. }
  apply Forall_cons in Hf as [Hm Hf]. unfold one_frame in Hm. rewrite Hm.
  simpl. destruct (IH (S id) Hf) as (acts & evs & -> & Hl & Hp & Hc).
  eexists _, _. split; [done|]. simpl.
  split; [by rewrite Hl|]. split.
  { constructor; [|done]. eexists. by split. }
  rewrite !count_cons. simpl. by rewrite Hc.
Qed.

Lemma wrapping_build_loop_returned op col id l acts evs :
  wrapping_build_loop op col id l = (Returned, acts, evs) →
  Forall one_frame l.
Proof.
  revert id acts evs.
  induction l as [|m rest IH]; intros id acts evs; simpl; [constructor|].
  destruct (mesh_time_size m =? 1) eqn:Et; simpl; [|done].
  destruct (wrapping_build_loop _ _ _ rest) as [[r a] e] eqn:E.
  intros [= -> <- <-]. constructor; [by apply Nat.eqb_eq|by eapply IH].
Qed.

(** When the wrapping rebuild returns, the segment holds one fresh actor
    per mesh, each at its placeholder points. *)
Lemma new_wrapping_set_returned l seg s :
  (new_wrapping_set l seg s).1 = Returned →
  let s' := (new_wrapping_set l seg s).2 in
  all_wrappings (wrapping s') !! seg = Some l
  ∧ ∃ acts evs,
      wrapping_actors (wrapping s') !! seg = Some acts
      ∧ length acts = length l
      ∧ Forall2 (fun m a => shows (placeholder_points m) a) l acts
      ∧ vtk_calls s' = vtk_calls s ++ evs
      ∧ count is_ResetCamera evs = length l.
Proof.
  unfold new_wrapping_set. case_decide as Hseg; [done|].
  cbn [wrapping_actors with_all_wrappings].
  destruct (wrapping_actors (wrapping s) !! seg) as [old|] eqn:Eold; [|done].
  cbn [wrapping_color wrapping_opacity with_all_wrappings].
  destruct (wrapping_build_loop _ _ _ l) as [[r acts] evs] eqn:E.
  cbn [fst snd]. intros ->.
  pose proof (wrapping_build_loop_returned _ _ _ _ _ _ E) as Hf.
  destruct (wrapping_build_loop_ok (wrapping_opacity (wrapping s))
              (wrapping_color (wrapping s)) (next_actor s) l Hf)
    as (acts' & evs' & E' & Hl & Hs & Hc).
  rewrite E in E'. injection E' as <- <-.
  cbn. split.
  { apply list_lookup_insert_eq. lia. }
  exists acts, (remove_calls old ++ evs). split.
  { apply list_lookup_insert_eq. by eapply lookup_lt_Some. }
  repeat split; try done.
  rewrite count_app, count_remove_calls, Hc by done. lia.
Qed.

(** When a segment's update returns, its first actors show the vertices of
    the meshes pushed. *)
Lemma update_wrapping_segment_returned seg l s :
  (update_wrapping_segment seg l s).1 = Returned →
  let s' := (update_wrapping_segment seg l s).2 in
  all_wrappings (wrapping s') !! seg = Some l
  ∧ (l = [] ∨ ∃ acts,
       wrapping_actors (wrapping s') !! seg = Some acts
       ∧ Forall2 (fun m a => shows (vertices m) a) l (take (length l) acts)).
Proof.
  unfold update_wrapping_segment.
  destruct (wrapping_scan l seg 0 l s) as [[|e] s1]; [|done].
  case_decide as Hseg; [done|].
  cbn [wrapping_actors with_all_wrappings].
  destruct (wrapping_actors (wrapping s1) !! seg) as [acts|] eqn:Ea.
  - destruct (points_loop l acts) as [[r acts'] evs] eqn:E.
    cbn [fst snd]. intros ->. cbn. split.
    { apply list_lookup_insert_eq. lia. }
    right. exists acts'. split.
    { apply list_lookup_insert_eq. by eapply lookup_lt_Some. }
    by eapply points_loop_returned.
  - destruct l as [|m rest]; [|done]. intros _. cbn. split; [|by left].
    apply list_lookup_insert_eq. lia.
Qed.

(** A segment's rebuild and update leave the other segments alone. *)
Lemma new_wrapping_set_other l seg s seg' :
  seg ≠ seg' → segment seg' (new_wrapping_set l seg s).2 = segment seg' s.
Proof.
  intros Hne. unfold new_wrapping_set, segment.
  case_decide; [done|]. cbn [wrapping_actors with_all_wrappings].
  destruct (wrapping_actors (wrapping s) !! seg); cbn.
  - destruct (wrapping_build_loop _ _ _ _) as [[r acts] evs]. cbn.
    by rewrite !list_lookup_insert_ne.
  - by rewrite list_lookup_insert_ne.
Qed.

Lemma wrapping_scan_other wr seg i todo s seg' :
  seg ≠ seg' → segment seg' (wrapping_scan wr seg i todo s).2 = segment seg' s.
Proof.
  intros Hne. revert i s. induction todo as [|m rest IH]; intros i s; simpl;
    [done|].
  destruct (negb _); [done|].
  destruct (_ !! seg) as [stored|]; [|done].
  match goal with |- context [if ?b then _ else _] => destruct b end;
    [|apply IH].
  pose proof (new_wrapping_set_other wr seg s seg' Hne) as H.
  destruct (new_wrapping_set wr seg s) as [[|e] s1]; simpl in *; [|done].
  by rewrite IH.
Qed.

Lemma update_wrapping_segment_other seg wr s seg' :
  seg ≠ seg' →
  segment seg' (update_wrapping_segment seg wr s).2 = segment seg' s.
Proof.
  intros Hne. unfold update_wrapping_segment.
  pose proof (wrapping_scan_other wr seg 0 wr s seg' Hne) as H.
  destruct (wrapping_scan wr seg 0 wr s) as [[|e] s1]; simpl in *; [|done].
  rewrite <- H. case_decide; [done|].
  cbn [wrapping_actors with_all_wrappings].
  destruct (wrapping_actors (wrapping s1) !! seg).
  - destruct (points_loop _ _) as [[r acts] evs]. unfold segment. cbn.
    by rewrite !list_lookup_insert_ne.
  - unfold segment. destruct wr; cbn; by rewrite list_lookup_insert_ne.
Qed.

Lemma update_wrapping_loop_other seg l s seg' :
  seg' < seg →
  segment seg' (update_wrapping_loop seg l s).2 = segment seg' s.
Proof.
  revert seg s. induction l as [|wr rest IH]; intros seg s Hlt; simpl;
    [done|].
  pose proof (update_wrapping_segment_other seg wr s seg') as H.
  destruct (update_wrapping_segment seg wr s) as [[|e] s1]; simpl in *.
  - rewrite IH by lia. apply H. lia.
  - apply H. lia.
Qed.

(** When the whole update returns, every segment pushed shows the vertices
    of its meshes. *)
Lemma update_wrapping_loop_returned seg0 l s :
  (update_wrapping_loop seg0 l s).1 = Returned →
  ∀ j wr, l !! j = Some wr →
    wr = [] ∨ ∃ acts,
      wrapping_actors (wrapping (update_wrapping_loop seg0 l s).2)
        !! (seg0 + j) = Some acts
      ∧ Forall2 (fun m a => shows (vertices m) a) wr (take (length wr) acts).
Proof.
  revert seg0 s. induction l as [|wr0 rest IH]; intros seg0 s; simpl;
    [done|].
  pose proof (update_wrapping_segment_returned seg0 wr0 s) as Hseg.
  destruct (update_wrapping_segment seg0 wr0 s) as [[|e] s1] eqn:E;
    simpl in *; [|done].
  intros Hret [|j] wr Hj; simpl in Hj.
  - injection Hj as <-. destruct (Hseg eq_refl) as [_ [->|(acts & Ha & Hf)]];
      [by left|].
    right. exists acts. split; [|done].
    pose proof (update_wrapping_loop_other (S seg0) rest s1 seg0) as Ho.
    unfold segment in Ho. rewrite Nat.add_0_r.
    specialize (Ho ltac:(lia)). injection Ho as _ ->. done.
  - rewrite <- Nat.add_succ_comm. by apply IH.
Qed.

(** ** The sphere rebuild as a whole *)

Lemma count_sphere_actor_calls ids :
  count is_ResetCamera (sphere_actor_calls ids) = length ids
  ∧ count is_SetInputConnection (sphere_actor_calls ids) = 0
  ∧ filter (fun e => is_renderer_call e = true) (sphere_actor_calls ids)
    = ids ≫= (fun id => [AddActor id; ResetCamera]).
Proof.
  unfold sphere_actor_calls. induction ids as [|id ids (IH1 & IH2 & IH3)];
    [done|].
  cbn [mbind list_bind]. change (?a :: ?b :: ?c :: nil) with ([a; b; c]).
  rewrite !count_app, filter_app, IH1, IH2, IH3. done.
Qed.

Lemma count_0_filter f evs :
  count f evs = 0 → filter (fun e => f e = true) evs = [].
Proof. unfold count. apply nil_length_inv. Qed.

Lemma sphere_loop_calls p m i acts :
  count is_ResetCamera (sphere_loop p m i acts).2 = 0
  ∧ count is_renderer_call (sphere_loop p m i acts).2 = 0.
Proof.
  revert i. induction acts as [|a rest IH]; intros i; simpl; [done|].
  destruct (channel m !! i); simpl; [|done].
  specialize (IH (S i)). destruct (sphere_loop p m (S i) rest) as [[r l] e].
  simpl in *. destruct IH as [IH1 IH2].
  rewrite !count_cons, IH1, IH2. done.
Qed.

Lemma filter_remove_calls acts :
  filter (fun e => is_renderer_call e = true) (remove_calls acts)
  = remove_calls acts.
Proof.
  unfold remove_calls. induction acts as [|a acts IH]; [done|].
  rewrite fmap_cons, filter_cons_True by done. by rewrite IH.
Qed.

(** A rebuild that passes its first test, at call depth two or more. *)
Lemma new_point_set_ok d c m s :
  new_set_rejects c m = false → time_size m = 1 →
  let r := new_point_set (S (S d)) c m s in
  let p := point_set c r.2 in
  r.1 = Returned
  ∧ ps_frame p = m
  ∧ length (ps_actors p) = channel_size m
  ∧ actor_id <$> ps_actors p = fresh_ids s (channel_size m)
  ∧ Forall2 (fun a pt =>
               mapper_input a = SphereSource pt (ps_size (point_set c s))
               ∧ prop_color a = Some (ps_color (point_set c s))
               ∧ prop_opacity a = Some (ps_opacity (point_set c s)))
      (ps_actors p) (channel m)
  ∧ ∃ evs, vtk_calls r.2 = vtk_calls s ++ evs
           ∧ count is_ResetCamera evs = channel_size m
           ∧ count is_SetInputConnection evs = channel_size m
           ∧ filter (fun e => is_renderer_call e = true) evs
             = remove_calls (ps_actors (point_set c s))
               ++ (fresh_ids s (channel_size m)
                     ≫= (fun id => [AddActor id; ResetCamera])).
Proof.
  intros Hr Ht. rewrite new_point_set_rebuild by done.
  unfold fast_path. rewrite point_set_recreated.
  cbn [ps_actors with_actors with_frame].
  set (ids := fresh_ids s (channel_size m)).
  set (p0 := with_frame m (with_actors (sphere_actors ids)
                             (with_frame m (point_set c s)))).
  destruct (sphere_loop_ok p0 m 0 (sphere_actors ids))
    as (acts & evs & E & Hf & Hn & _).
  { rewrite sphere_actors_length. unfold ids. rewrite fresh_ids_length. lia. }
  pose proof (sphere_loop_length p0 m 0 (sphere_actors ids)) as Hlen.
  pose proof (sphere_loop_ids p0 m 0 (sphere_actors ids)) as Hids.
  pose proof (sphere_loop_calls p0 m 0 (sphere_actors ids)) as [Hc1 Hc2].
  rewrite E in Hlen, Hids, Hc1, Hc2 |- *.
  cbn [fst snd] in *. rewrite point_set_call, point_set_set_point_set.
  cbn [ps_frame ps_actors with_actors with_frame].
  rewrite sphere_actors_length in Hlen. unfold ids in Hlen.
  rewrite fresh_ids_length in Hlen.
  split; [done|]. split; [done|]. split; [done|]. split.
  { rewrite Hids. apply sphere_actors_ids. }
  split.
  { rewrite drop_0 in Hf.
    apply Forall2_same_length_lookup_2.
    { by rewrite Hlen. }
    intros i a pt Ha Hpt.
    destruct (lookup_lt_is_Some_2 (sphere_actors ids) i) as [a0 Ha0].
    { rewrite sphere_actors_length. unfold ids. rewrite fresh_ids_length.
      apply lookup_lt_Some in Hpt. done. }
    eapply Forall2_lookup_lr in Hf; [|exact Ha|].
    2: { apply lookup_zip_with_Some. eexists _, _. split; [done|].
         split; [exact Ha0|exact Hpt]. }
    simpl in Hf. subst a. done. }
  exists (remove_calls (ps_actors (point_set c s)) ++ sphere_actor_calls ids
            ++ evs).
  destruct (count_sphere_actor_calls ids) as (H1 & H2 & H3).
  split.
  { unfold recreated. cbn [vtk_calls call set_next_actor set_point_set].
    destruct c; cbn; rewrite <- ?app_assoc; done. }
  rewrite !count_app, !filter_app, !count_remove_calls by done.
  rewrite H1, H2, H3, Hc1, (count_0_filter _ _ Hc2), Hn, filter_remove_calls.
  rewrite sphere_actors_length. unfold ids. rewrite fresh_ids_length.
  rewrite app_nil_r. repeat split; lia.
Qed.

(** * The claims *)

Lemma new_mesh_set_ok l s :
  Forall one_frame l →
  let r := new_mesh_set l s in
  r.1 = Returned
  ∧ all_meshes (mesh r.2) = l
  ∧ length (mesh_actors (mesh r.2)) = length l
  ∧ Forall2 (fun m a => shows (vertices m) a) l (mesh_actors (mesh r.2))
  ∧ (mesh_color (mesh s) = black →
     Forall (fun a => prop_color a = Some black) (mesh_actors (mesh r.2)))
  ∧ ∃ evs, vtk_calls r.2 = vtk_calls s ++ evs
           ∧ count is_ResetCamera evs = length l.
Proof. apply (new_mesh_set_at_ok 998). Qed.

Lemma new_mesh_set_returned l s :
  (new_mesh_set l s).1 = Returned → Forall one_frame l.
Proof. apply (new_mesh_set_at_returned 999). Qed.

Lemma new_muscle_set_ok l s :
  Forall one_frame l →
  let r := new_muscle_set l s in
  r.1 = Returned
  ∧ all_muscles (muscle r.2) = l
  ∧ length (muscle_actors (muscle r.2)) = length l
  ∧ Forall2 (fun m a => shows (vertices m) a) l (muscle_actors (muscle r.2))
  ∧ ∃ evs, vtk_calls r.2 = vtk_calls s ++ evs
           ∧ count is_ResetCamera evs = length l.
Proof. apply (new_muscle_set_at_ok 998). Qed.

Lemma new_muscle_set_returned l s :
  (new_muscle_set l s).1 = Returned → Forall one_frame l.
Proof. apply (new_muscle_set_at_returned 999). Qed.

Lemma new_rt_set_ok l s :
  Forall rt_one_frame l →
  let r := new_rt_set l s in
  r.1 = Returned
  ∧ all_rt (rt r.2) = l ∧ n_rt (rt r.2) = length l
  ∧ length (rt_actors (rt r.2)) = length l
  ∧ Forall2 (fun x a => shows (rt_points x (rt_length (rt s))) a) l
      (rt_actors (rt r.2))
  ∧ ∃ evs, vtk_calls r.2 = vtk_calls s ++ evs
           ∧ count is_ResetCamera evs = length l.
Proof. apply (new_rt_set_at_ok 998). Qed.

Lemma new_rt_set_returned l s :
  (new_rt_set l s).1 = Returned → Forall rt_one_frame l.
Proof. apply (new_rt_set_at_returned 999). Qed.

(** C1, as stated, fails for meshes: after pushing two meshes and then one
    of them again, both updates returning, two actors are alive for a
    frame of one mesh of three channels. *)
Lemma C1_mesh_actors_outlive_frame :
  let r1 := update_mesh [triangle; triangle] fresh_model in
  let r2 := update_mesh [triangle] r1.2 in
  r1.1 = Returned ∧ r2.1 = Returned
  ∧ all_meshes (mesh r2.2) = [triangle]
  ∧ length (mesh_actors (mesh r2.2)) ≠ length (all_meshes (mesh r2.2))
  ∧ length (mesh_actors (mesh r2.2)) ≠ mesh_channel_size triangle.
Proof. vm_compute. repeat split; discriminate. Qed.

(** C1, amended.  In every model reached from the initial one by any
    sequence of calls, raising or not, each sphere category (markers,
    contacts, global and segment centres of mass) has as many actors as
    the stored frame has channels.  Meshes, muscles, local frames and
    wrappings keep one actor per sub-entity instead: whenever their rebuild
    returns, the actors are as many as the sub-entities pushed. *)
Theorem C1_actor_count (o : Options) (ks : list Call) :
  (∀ c, actors_match_frame c (run ks (VtkModel_init o)))
  ∧ (∀ l s, (new_mesh_set l s).1 = Returned →
            length (mesh_actors (mesh (new_mesh_set l s).2)) = length l)
  ∧ (∀ l s, (new_muscle_set l s).1 = Returned →
            length (muscle_actors (muscle (new_muscle_set l s).2)) = length l)
  ∧ (∀ l s, (new_rt_set l s).1 = Returned →
            length (rt_actors (rt (new_rt_set l s).2)) = length l)
  ∧ (∀ l seg s, (new_wrapping_set l seg s).1 = Returned →
       ∃ acts,
         wrapping_actors (wrapping (new_wrapping_set l seg s).2) !! seg
         = Some acts ∧ length acts = length l).
Proof.
  split; [|split; [|split; [|split]]].
  - intros c. apply run_invariant, init_invariant.
  - intros l s H.
    by pose proof (new_mesh_set_ok l s (new_mesh_set_returned l s H))
      as (_ & _ & Hl & _).
  - intros l s H.
    by pose proof (new_muscle_set_ok l s (new_muscle_set_returned l s H))
      as (_ & _ & Hl & _).
  - intros l s H.
    by pose proof (new_rt_set_ok l s (new_rt_set_returned l s H))
      as (_ & _ & _ & Hl & _).
  - intros l seg s H.
    destruct (new_wrapping_set_returned l seg s H)
      as (_ & acts & evs & Ha & Hl & _).
    by exists acts.
Qed.

Lemma C1_actor_count_witness :
  actors_match_frame CatMarkers
    (run [UpdatePoints CatMarkers two_markers; SetPointSize CatMarkers 1%Q;
          NewPointSet CatGlobalCoM two_markers]
       fresh_model)
  ∧ length (mesh_actors (mesh (new_mesh_set [triangle; two_triangles]
                                 fresh_model).2)) = 2.
Proof.
  pose proof (C1_actor_count default_options
                [UpdatePoints CatMarkers two_markers;
                 SetPointSize CatMarkers 1%Q;
                 NewPointSet CatGlobalCoM two_markers])
    as (H1 & H2 & _).
  split; [apply H1|]. apply (H2 [triangle; two_triangles] fresh_model).
  vm_compute. reflexivity.
Defined.

(** The fast path on a model whose actors match the stored frame. *)
Lemma update_point_set_fast_ok d c m s :
  time_size m = 1 → actors_match_frame c s →
  channel_size m = channel_size (ps_frame (point_set c s)) →
  let r := update_point_set (S d) c m s in
  let p := point_set c r.2 in
  r.1 = Returned
  ∧ ps_frame p = m
  ∧ actor_id <$> ps_actors p = actor_id <$> ps_actors (point_set c s)
  ∧ Forall2 (fun a pt =>
               mapper_input a = SphereSource pt (ps_size (point_set c s))
               ∧ prop_color a = Some (ps_color (point_set c s))
               ∧ prop_opacity a = Some (ps_opacity (point_set c s)))
      (ps_actors p) (channel m)
  ∧ ∃ evs, vtk_calls r.2 = vtk_calls s ++ evs
           ∧ count is_SetInputConnection evs = channel_size m
           ∧ filter (fun e => is_renderer_call e = true) evs = [].
Proof.
  intros Ht Hinv Hc. rewrite update_point_set_fast by done.
  unfold actors_match_frame in Hinv. rewrite <- Hc in Hinv.
  destruct (sphere_loop_ok (with_frame m (point_set c s)) m 0
              (ps_actors (point_set c s)))
    as (acts & evs & E & Hf & Hn & Hr); [simpl; lia|].
  pose proof (sphere_loop_ids (with_frame m (point_set c s)) m 0
                (ps_actors (point_set c s))) as Hids.
  rewrite E in Hids. cbn [fst snd] in Hids. rewrite drop_0 in Hf.
  unfold fast_path. cbn [ps_actors with_frame]. rewrite E. cbn [fst snd].
  rewrite point_set_call, point_set_set_point_set.
  cbn [ps_frame ps_actors with_actors with_frame].
  split; [done|]. split; [done|]. split; [done|]. split.
  { apply Forall2_same_length_lookup_2.
    { apply Forall2_length in Hf. rewrite length_zip_with in Hf.
      unfold channel_size in *. lia. }
    intros i a pt Ha Hpt.
    destruct (lookup_lt_is_Some_2 (ps_actors (point_set c s)) i)
      as [a0 Ha0].
    { apply lookup_lt_Some in Hpt. unfold channel_size in Hinv. lia. }
    eapply Forall2_lookup_lr in Hf; [|exact Ha|].
    2: { apply lookup_zip_with_Some. eexists _, _. split; [done|].
         split; [exact Ha0|exact Hpt]. }
    simpl in Hf. subst a. unfold placed. cbn. by repeat split. }
  exists evs. split.
  { destruct c; reflexivity. }
  split; [by rewrite Hn|]. by apply count_0_filter.
Qed.

(** C2.  A single-frame push on a sphere category whose actors match the
    stored frame returns, and it reaches the renderer (removing the old
    actors, adding fresh ones) exactly when the channel count differs from
    the stored frame's; either way each actor receives one sphere, so the
    pass runs once, and ends at its channel's point in the current
    style.  With equal counts the actors are the same ones and the
    renderer hears nothing. *)
Theorem C2_update_rebuilds_iff_channel_count_differs
    (c : Category) (m : Markers) (s : VtkModel) :
  time_size m = 1 → new_set_rejects c m = false → actors_match_frame c s →
  let stored := ps_frame (point_set c s) in
  let old := ps_actors (point_set c s) in
  let r := update_point_set recursion_limit c m s in
  let p := point_set c r.2 in
  r.1 = Returned
  ∧ ps_frame p = m
  ∧ Forall2 (fun a pt =>
               mapper_input a = SphereSource pt (ps_size (point_set c s))
               ∧ prop_color a = Some (ps_color (point_set c s))
               ∧ prop_opacity a = Some (ps_opacity (point_set c s)))
      (ps_actors p) (channel m)
  ∧ ∃ evs,
      vtk_calls r.2 = vtk_calls s ++ evs
      ∧ count is_SetInputConnection evs = channel_size m
      ∧ (filter (fun e => is_renderer_call e = true) evs = []
         ↔ channel_size m = channel_size stored)
      ∧ (channel_size m = channel_size stored →
         actor_id <$> ps_actors p = actor_id <$> old)
      ∧ (channel_size m ≠ channel_size stored →
         r = new_point_set recursion_limit c m s
         ∧ actor_id <$> ps_actors p = fresh_ids s (channel_size m)
         ∧ filter (fun e => is_renderer_call e = true) evs
           = remove_calls old
             ++ (fresh_ids s (channel_size m)
                   ≫= (fun id => [AddActor id; ResetCamera]))).
Proof.
  intros Ht Hr Hinv stored old.
  destruct (decide (channel_size m = channel_size stored)) as [Hc|Hc].
  - destruct (update_point_set_fast_ok 999 c m s Ht Hinv Hc)
      as (H1 & H2 & H3 & H4 & evs & H5 & H6 & H7).
    cbn zeta. split; [done|]. split; [done|]. split; [done|].
    exists evs. split; [done|]. split; [done|]. split; [done|]. done.
  - assert (update_point_set recursion_limit c m s
            = new_point_set recursion_limit c m s) as Hupd.
    { change recursion_limit with (S 999) at 1.
      rewrite (update_point_set_rebuild 999) by done.
      change 999 with (S (S 997)). change recursion_limit with (S (S 998)).
      by rewrite !new_point_set_rebuild. }
    cbn zeta. rewrite Hupd.
    destruct (new_point_set_ok 998 c m s Hr Ht)
      as (H1 & H2 & H3 & H4 & H5 & evs & H6 & H7 & H8 & H9).
    split; [done|]. split; [done|]. split; [done|].
    exists evs. split; [done|]. split; [done|]. split; [|split; [done|]].
    + split; [|done]. rewrite H9. intros Hnil.
      apply (f_equal length) in Hnil. rewrite length_app in Hnil.
      unfold remove_calls in Hnil. rewrite length_fmap in Hnil.
      simpl in Hnil. unfold actors_match_frame in Hinv. fold old in Hnil.
      assert (length old = 0) as Hold by lia.
      assert (channel_size m = 0); [|unfold stored, old in *; lia].
      destruct (channel_size m); [done|].
      unfold fresh_ids in Hnil. simpl in Hnil. lia.
    + intros _. done.
Qed.

Lemma C2_update_rebuilds_iff_channel_count_differs_witness :
  (update_point_set recursion_limit CatMarkers two_markers fresh_model).1
  = Returned.
Proof.
  pose proof (C2_update_rebuilds_iff_channel_count_differs CatMarkers
                two_markers fresh_model eq_refl eq_refl eq_refl) as [H _].
  exact H.
Defined.

(** C7, as stated, fails: rebuilding the markers for a frame of two
    channels asks the renderer for two camera resets, not one. *)
Lemma C7_two_resets_for_two_markers :
  let r := new_marker_set two_markers fresh_model in
  r.1 = Returned
  ∧ length (ps_actors (markers r.2)) = 2
  ∧ count is_ResetCamera (vtk_calls r.2) ≠ 1.
Proof. vm_compute. repeat split; discriminate. Qed.

(** C7, amended.  After a rebuild returns, the actors are as many as the
    channels of the new frame (as the meshes of the new list), and the
    renderer has received one camera reset per actor created: as many as
    the channels (the meshes), none for an empty frame. *)
Theorem C7_rebuild_resets_camera_once_per_actor :
  (∀ c m s,
     new_set_rejects c m = false → time_size m = 1 →
     let r := new_point_set recursion_limit c m s in
     r.1 = Returned
     ∧ length (ps_actors (point_set c r.2)) = channel_size m
     ∧ ∃ evs, vtk_calls r.2 = vtk_calls s ++ evs
              ∧ count is_ResetCamera evs = channel_size m)
  ∧ (∀ l s,
       Forall one_frame l →
       let r := new_mesh_set l s in
       r.1 = Returned
       ∧ length (mesh_actors (mesh r.2)) = length l
       ∧ ∃ evs, vtk_calls r.2 = vtk_calls s ++ evs
                ∧ count is_ResetCamera evs = length l).
Proof.
  split.
  - intros c m s Hr Ht.
    destruct (new_point_set_ok 998 c m s Hr Ht)
      as (H1 & H2 & H3 & H4 & H5 & evs & H6 & H7 & _).
    cbn zeta. split; [done|]. split; [done|]. by exists evs.
  - intros l s Hf.
    destruct (new_mesh_set_ok l s Hf) as (H1 & H2 & H3 & H4 & H5 & H6).
    cbn zeta. done.
Qed.

Lemma C7_rebuild_resets_camera_once_per_actor_witness :
  (new_point_set recursion_limit CatContacts two_markers fresh_model).1
  = Returned
  ∧ length (mesh_actors (mesh (new_mesh_set [triangle] fresh_model).2)) = 1.
Proof.
  destruct C7_rebuild_resets_camera_once_per_actor as [Hp Hm]. split.
  - by destruct (Hp CatContacts two_markers fresh_model eq_refl eq_refl).
  - assert (Forall one_frame [triangle]) as Hf by (by constructor).
    by destruct (Hm [triangle] fresh_model Hf) as (_ & H & _).
Defined.

(** C8, as stated, fails for wrappings: when [new_wrapping_set] returns,
    its actor still sits at the placeholder origin points, not at the
    vertices of the mesh it was built for. *)
Lemma C8_wrapping_rebuild_leaves_placeholders :
  let r := new_wrapping_set [triangle] 0 one_segment_model in
  r.1 = Returned
  ∧ ∃ a, wrapping_actors (wrapping r.2) !! 0 = Some [a]
         ∧ shows [origin; origin; origin] a
         ∧ ¬ shows (vertices triangle) a.
Proof.
  vm_compute. split; [done|]. eexists. split; [done|]. split.
  - eexists. split; reflexivity.
  - intros (pd & [= <-] & H). discriminate H.
Qed.

(** C8, amended.  The rebuilds of the sphere categories, of the meshes, of
    the muscles and of the local frames end with the update pass on the
    frame they were given: when they return, every new actor carries that
    frame's geometry.  The wrapping rebuild does not run the pass: when it
    returns its actors sit at placeholder points, and it is
    [update_wrapping] that moves them to the vertices afterwards. *)
Theorem C8_rebuild_leaves_frame_geometry :
  (∀ c m s,
     new_set_rejects c m = false → time_size m = 1 →
     let r := new_point_set recursion_limit c m s in
     r.1 = Returned
     ∧ Forall2 (fun a pt =>
                  mapper_input a = SphereSource pt (ps_size (point_set c s)))
         (ps_actors (point_set c r.2)) (channel m))
  ∧ (∀ l s, (new_mesh_set l s).1 = Returned →
       Forall2 (fun m a => shows (vertices m) a) l
         (mesh_actors (mesh (new_mesh_set l s).2)))
  ∧ (∀ l s, (new_muscle_set l s).1 = Returned →
       Forall2 (fun m a => shows (vertices m) a) l
         (muscle_actors (muscle (new_muscle_set l s).2)))
  ∧ (∀ l s, (new_rt_set l s).1 = Returned →
       Forall2 (fun x a => shows (rt_points x (rt_length (rt s))) a) l
         (rt_actors (rt (new_rt_set l s).2)))
  ∧ (∀ l seg s, (new_wrapping_set l seg s).1 = Returned →
       ∃ acts,
         wrapping_actors (wrapping (new_wrapping_set l seg s).2) !! seg
         = Some acts
         ∧ Forall2 (fun m a => shows (placeholder_points m) a) l acts)
  ∧ (∀ l s, (update_wrapping l s).1 = Returned →
       ∀ seg wr, l !! seg = Some wr →
         wr = [] ∨ ∃ acts,
           wrapping_actors (wrapping (update_wrapping l s).2) !! seg
           = Some acts
           ∧ Forall2 (fun m a => shows (vertices m) a) wr
               (take (length wr) acts)).
Proof.
  split; [|split; [|split; [|split; [|split]]]].
  - intros c m s Hr Ht.
    destruct (new_point_set_ok 998 c m s Hr Ht)
      as (H1 & H2 & H3 & H4 & H5 & _).
    cbn zeta. split; [done|].
    eapply Forall2_impl; [exact H5|]. by intros a pt (? & _).
  - intros l s H.
    by pose proof (new_mesh_set_ok l s (new_mesh_set_returned l s H))
      as (_ & _ & _ & Hs & _).
  - intros l s H.
    by pose proof (new_muscle_set_ok l s (new_muscle_set_returned l s H))
      as (_ & _ & _ & Hs & _).
  - intros l s H.
    by pose proof (new_rt_set_ok l s (new_rt_set_returned l s H))
      as (_ & _ & _ & _ & Hs & _).
  - intros l seg s H.
    destruct (new_wrapping_set_returned l seg s H)
      as (_ & acts & evs & Ha & _ & Hs & _).
    by exists acts.
  - intros l s H seg wr Hwr. unfold update_wrapping in *.
    by apply (update_wrapping_loop_returned 0 l _ H seg wr).
Qed.

Lemma C8_rebuild_leaves_frame_geometry_witness :
  (new_point_set recursion_limit CatMarkers two_markers fresh_model).1
  = Returned
  ∧ Forall2 (fun m a => shows (vertices m) a) [triangle]
      (mesh_actors (mesh (new_mesh_set [triangle] fresh_model).2))
  ∧ ∃ acts,
      wrapping_actors
        (wrapping (new_wrapping_set [triangle] 0 one_segment_model).2) !! 0
      = Some acts
      ∧ Forall2 (fun m a => shows (placeholder_points m) a) [triangle] acts.
Proof.
  destruct C8_rebuild_leaves_frame_geometry as (Hp & Hm & _ & _ & Hw & _).
  split; [|split].
  - by destruct (Hp CatMarkers two_markers fresh_model eq_refl eq_refl).
  - apply Hm. vm_compute. reflexivity.
  - apply Hw. vm_compute. reflexivity.
Defined.

(** ** The outline test of the mesh rebuild *)

Lemma remove_dups_cons_nonempty (x : nat) (l : list nat) :
  length (remove_dups (x :: l)) ≠ 0.
Proof.
  assert (x ∈ remove_dups (x :: l)) as H.
  { apply elem_of_remove_dups. by left. }
  destruct (remove_dups (x :: l)); [by apply elem_of_nil in H|done].
Qed.

(** C3.  The test of line 689 holds for every table whose first column has
    a row, so the outline branch is the only one such a mesh can take.  For
    two triangles with first row (0, 1), which the specification sends to
    the triangulated surface, the rebuild draws two closed polylines, no
    polygon, and paints the actor black. *)
Theorem C3_outline_built_for_triangulated_table :
  (∀ ts verts x col cols,
     draws_outline (mkMesh ts verts ((x :: col) :: cols)) = true)
  ∧ spec_degenerate_table two_triangles = false
  ∧ let r := new_mesh_set [two_triangles] fresh_model in
    r.1 = Returned
    ∧ ∃ a pd,
        mesh_actors (mesh r.2) = [a]
        ∧ mapper_input a = PolyInput pd
        ∧ pd_lines pd = [[0; 1; 2; 0]; [1; 2; 3; 1]]
        ∧ pd_polys pd = []
        ∧ prop_color a = Some black.
Proof.
  split; [|split].
  - intros ts verts x col cols.
    change (draws_outline (mkMesh ts verts ((x :: col) :: cols)))
      with (negb (length (remove_dups (x :: col)) =? 0)).
    pose proof (remove_dups_cons_nonempty x col) as H.
    apply Nat.eqb_neq in H. by rewrite H.
  - reflexivity.
  - vm_compute. split; [done|]. eexists _, _. by repeat split.
Qed.

(** ** The first test of the global centre of mass rebuild *)

(** C4.  [new_global_center_of_mass_set] tests the channel count where its
    message and its three siblings speak of the frame: a single-frame
    payload of two channels is refused, on any model and before anything
    changes, while a two-sample payload of one channel passes the test and
    is only refused later, by the update that ends the rebuild, with the
    actor list already replaced. *)
Theorem C4_global_center_of_mass_rebuild_tests_channels :
  (∀ s p q,
     new_global_center_of_mass_set (mkMarkers 1 [p; q]) s
     = (Raised (IndexError
                  "Global center of mass should be from one frame only"), s))
  ∧ (∀ s p q, (new_marker_set (mkMarkers 1 [p; q]) s).1 = Returned)
  ∧ let r := new_global_center_of_mass_set (mkMarkers 2 [origin])
               fresh_model in
    r.1 = Raised (IndexError
                    "Segment center of mass should be from one frame only")
    ∧ length (ps_actors (global_center_of_mass r.2)) = 1.
Proof.
  split; [|split].
  - intros s p q. reflexivity.
  - intros s p q.
    by destruct (new_point_set_ok 998 CatMarkers (mkMarkers 1 [p; q]) s
                   eq_refl eq_refl).
  - vm_compute. done.
Qed.

(** ** The muscle colour setter *)

(** C5.  [set_muscle_color] stores the colour and then looks up
    [update_muscles], a name the class does not define: on every model it
    raises an AttributeError, and no update runs.  Its sibling
    [set_muscle_opacity] calls [update_muscle] and returns. *)
Theorem C5_set_muscle_color_raises :
  (∀ v s,
     set_muscle_color v s
     = (Raised (AttributeError
                  "'VtkModel' object has no attribute 'update_muscles'"),
        set_muscle (with_muscle_color v (muscle s)) s))
  ∧ (set_muscle_opacity 1 fresh_model).1 = Returned.
Proof. split; [intros v s; reflexivity|]. vm_compute. reflexivity. Qed.

(** Before any frame is pushed the stored [Markers()] has no time sample,
    and the sphere setters raise on the first test of the update. *)
Lemma set_markers_color_before_first_frame :
  set_markers_color black fresh_model
  = (Raised (IndexError "Markers should be from one frame only"),
     set_markers (with_color black (markers fresh_model)) fresh_model).
Proof. vm_compute. reflexivity. Qed.

(** ** The global reference frame *)

Lemma touches_part_flag p s s' :
  p ≠ PartGlobalRefFrame → touches_part p s s' →
  has_global_ref_frame s' = has_global_ref_frame s.
Proof.
  intros Hne H. destruct p as [c| | | | |]; simpl in H; try done;
    destruct H as (evs & n & x & ->); try done.
  by destruct c.
Qed.

Lemma perform_flag_true k s :
  has_global_ref_frame s = true → has_global_ref_frame (perform k s).2 = true.
Proof.
  intros H. destruct (decide (part_of k = PartGlobalRefFrame)) as [Hk|Hk].
  - destruct k; try discriminate Hk. cbn [perform].
    unfold create_global_ref_frame. by rewrite H.
  - by rewrite (touches_part_flag _ _ _ Hk (perform_footprint k s)).
Qed.

Lemma run_flag_true ks s :
  has_global_ref_frame s = true → has_global_ref_frame (run ks s) = true.
Proof.
  revert s. induction ks as [|k ks IH]; intros s H; [done|].
  apply IH. by apply perform_flag_true.
Qed.

Lemma run_flag_false ks s :
  CreateGlobalRefFrame ∉ ks → has_global_ref_frame s = false →
  has_global_ref_frame (run ks s) = false.
Proof.
  revert s. induction ks as [|k ks IH]; intros s Hin H; [done|].
  apply not_elem_of_cons in Hin as [Hk Hin]. apply IH; [done|].
  rewrite (touches_part_flag (part_of k) s); [done| |apply perform_footprint].
  destruct k; try done.
Qed.

(** C6.  On a model on which [create_global_ref_frame] was never called,
    whatever else was, the creation returns, hands one new actor to the
    renderer and touches no category; after it, whatever is called in
    between, every further creation raises the RuntimeError of line 1160
    and leaves the model exactly as it found it. *)
Theorem C6_global_ref_frame_created_once
    (o : Options) (before after : list Call) :
  CreateGlobalRefFrame ∉ before →
  let s := run before (VtkModel_init o) in
  let r := create_global_ref_frame s in
  r.1 = Returned
  ∧ (∃ input,
       vtk_calls r.2
       = vtk_calls s
         ++ [SetMapper (next_actor s) input;
             SetLineWidth (next_actor s) (global_ref_frame_width s);
             AddActor (next_actor s); ResetCamera])
  ∧ (∀ c, point_set c r.2 = point_set c s)
  ∧ mesh r.2 = mesh s ∧ muscle r.2 = muscle s
  ∧ wrapping r.2 = wrapping s ∧ rt r.2 = rt s
  ∧ create_global_ref_frame (run after r.2)
    = (Raised called_once_only, run after r.2).
Proof.
  intros Hin s r.
  assert (has_global_ref_frame s = false) as Hs.
  { by apply run_flag_false. }
  assert (∃ input,
            r = (Returned,
                 call [SetMapper (next_actor s) input;
                       SetLineWidth (next_actor s) (global_ref_frame_width s);
                       AddActor (next_actor s); ResetCamera]
                   (set_next_actor (S (next_actor s))
                      (set_has_global_ref_frame true s))))
    as [input ->].
  { unfold r, create_global_ref_frame. rewrite Hs. by eexists. }
  cbn [fst snd]. split; [done|]. split; [by exists input|].
  split; [by intros []|]. split; [done|]. split; [done|]. split; [done|].
  split; [done|].
  unfold create_global_ref_frame at 1.
  rewrite run_flag_true; reflexivity.
Qed.

Lemma C6_global_ref_frame_created_once_witness :
  create_global_ref_frame
    (run [UpdatePoints CatMarkers two_markers]
       (create_global_ref_frame
          (run [UpdateMesh [triangle]] fresh_model)).2)
  = (Raised called_once_only,
     run [UpdatePoints CatMarkers two_markers]
       (create_global_ref_frame
          (run [UpdateMesh [triangle]] fresh_model)).2).
Proof.
  assert (CreateGlobalRefFrame ∉ [UpdateMesh [triangle]]) as Hin.
  { intros H. apply list_elem_of_singleton in H. discriminate H. }
  pose proof (C6_global_ref_frame_created_once default_options
                [UpdateMesh [triangle]]
                [UpdatePoints CatMarkers two_markers] Hin)
    as (_ & _ & _ & _ & _ & _ & _ & H).
  exact H.
Defined.

(** ** The mesh colour *)

Lemma mesh_black_invariant d l s :
  mesh_color (mesh s) = black →
  mesh_color (mesh (update_mesh_at d l s).2) = black
  ∧ mesh_color (mesh (new_mesh_set_at d l s).2) = black.
Proof.
  revert l s. induction d as [|d IH]; intros l s Hb; [done|]. split.
  - simpl. destruct (mesh_scan _ _ _); [done|by apply IH|].
    by destruct (points_loop _ _) as [[r acts] evs].
  - cbn [new_mesh_set_at]. rewrite Hb.
    pose proof (mesh_build_loop_black (mesh_opacity (mesh s)) (next_actor s) l)
      as [Hc _].
    destruct (mesh_build_loop _ _ _ l) as [[[r col] acts] evs].
    cbn [fst snd] in Hc. subst col.
    destruct r as [|e]; [|done]. by apply IH.
Qed.

Lemma new_mesh_set_at_outline d l s i m :
  l !! i = Some m → Forall one_frame (take (S i) l) →
  draws_outline m = true →
  mesh_color (mesh (new_mesh_set_at (S d) l s).2) = black.
Proof.
  intros Hi Hf Hd. cbn [new_mesh_set_at].
  pose proof (mesh_build_loop_outline (mesh_opacity (mesh s))
                (mesh_color (mesh s)) (next_actor s) l i m Hi Hf Hd) as Hc.
  destruct (mesh_build_loop _ _ _ l) as [[[r col] acts] evs].
  cbn [fst snd] in Hc. subst col.
  destruct r as [|e]; [|done]. by apply mesh_black_invariant.
Qed.

Lemma touches_part_mesh p s s' :
  p ≠ PartMesh → touches_part p s s' → mesh s' = mesh s.
Proof.
  intros Hne H. destruct p as [c| | | | |]; simpl in H; try done;
    destruct H as (evs & n & x & ->); try done.
  by destruct c.
Qed.

Lemma perform_black k s :
  (∀ v, k ≠ SetMeshColor v) → mesh_color (mesh s) = black →
  mesh_color (mesh (perform k s).2) = black.
Proof.
  intros Hk Hb. destruct (decide (part_of k = PartMesh)) as [Hp|Hp].
  - destruct k; try discriminate Hp; cbn [perform].
    + by apply mesh_black_invariant.
    + by apply mesh_black_invariant.
    + by destruct (Hk v).
    + unfold set_mesh_opacity. by apply mesh_black_invariant.
  - by rewrite (touches_part_mesh _ _ _ Hp (perform_footprint k s)).
Qed.

Lemma run_black ks s :
  (∀ v, SetMeshColor v ∉ ks) → mesh_color (mesh s) = black →
  mesh_color (mesh (run ks s)) = black.
Proof.
  revert s. induction ks as [|k ks IH]; intros s Hin Hb; [done|].
  apply IH.
  - intros v Hv. apply (Hin v). by right.
  - apply perform_black; [|done]. intros v ->. apply (Hin v). by left.
Qed.

(** C10.  When the mesh rebuild reaches a mesh that takes the outline
    branch, the model's mesh colour is black when the call ends, returned
    or raised; it stays black through every later sequence of calls that
    holds no [set_mesh_color], and every later mesh rebuild that returns
    leaves all its actors black, whatever the colour the model was built
    with. *)
Theorem C10_outline_branch_blackens_mesh_color
    (l : list Mesh) (s : VtkModel) (i : nat) (m : Mesh) (ks : list Call) :
  l !! i = Some m → Forall one_frame (take (S i) l) →
  draws_outline m = true →
  (∀ v, SetMeshColor v ∉ ks) →
  let s1 := (new_mesh_set l s).2 in
  mesh_color (mesh s1) = black
  ∧ mesh_color (mesh (run ks s1)) = black
  ∧ ∀ l', (new_mesh_set l' (run ks s1)).1 = Returned →
      Forall (fun a => prop_color a = Some black)
        (mesh_actors (mesh (new_mesh_set l' (run ks s1)).2)).
Proof.
  intros Hi Hf Hd Hin s1.
  assert (mesh_color (mesh s1) = black) as H1.
  { by apply (new_mesh_set_at_outline 999 l s i m). }
  assert (mesh_color (mesh (run ks s1)) = black) as H2.
  { by apply run_black. }
  split; [done|]. split; [done|]. intros l' Hret.
  pose proof (new_mesh_set_ok l' (run ks s1) (new_mesh_set_returned _ _ Hret))
    as (_ & _ & _ & _ & Hb & _).
  by apply Hb.
Qed.

Lemma C10_outline_branch_blackens_mesh_color_witness :
  mesh_color (mesh (run [SetMeshOpacity 1%Q; UpdateMesh [two_triangles]]
                      (new_mesh_set [triangle] fresh_model).2)) = black.
Proof.
  assert (∀ v, SetMeshColor v
               ∉ [SetMeshOpacity 1%Q; UpdateMesh [two_triangles]]) as Hin.
  { intros v H. apply elem_of_cons in H as [H|H]; [discriminate H|].
    apply list_elem_of_singleton in H. discriminate H. }
  assert (Forall one_frame (take 1 [triangle])) as Hf.
  { by constructor. }
  pose proof (C10_outline_branch_blackens_mesh_color [triangle] fresh_model
                0 triangle _ eq_refl Hf eq_refl Hin) as (_ & H & _).
  exact H.
Defined.

(** ** The same frame twice *)

Lemma scene_call evs s : scene (call evs s) = scene s.
Proof. reflexivity. Qed.

Lemma sphere_loop_ext p p' m i acts :
  ps_size p' = ps_size p → ps_color p' = ps_color p →
  ps_opacity p' = ps_opacity p →
  sphere_loop p' m i acts = sphere_loop p m i acts.
Proof.
  intros Hs Hc Ho. revert i.
  induction acts as [|a rest IH]; intros i; simpl; [done|].
  rewrite Hs, Hc, Ho. destruct (channel m !! i); [|done].
  by rewrite IH.
Qed.

Lemma update_point_set_twice d c m s :
  channel_size m = channel_size (ps_frame (point_set c s)) →
  ∃ evs,
    update_point_set (S d) c m (update_point_set (S d) c m s).2
    = ((update_point_set (S d) c m s).1,
       call evs (update_point_set (S d) c m s).2).
Proof.
  intros Hc. simpl. destruct (update_rejects m) eqn:Er.
  { simpl. exists []. by rewrite call_nil. }
  rewrite <- Hc, Nat.eqb_refl. simpl.
  destruct (sphere_loop _ m 0 _) as [[r acts] evs] eqn:E. simpl.
  rewrite point_set_call, point_set_set_point_set. simpl.
  rewrite Nat.eqb_refl. simpl.
  apply sphere_loop_idem in E.
  rewrite (sphere_loop_ext (with_frame m (point_set c s))) by done.
  rewrite E. exists evs. f_equal. by destruct c, s.
Qed.
Lemma update_mesh_at_twice d l s :
  mesh_scan (all_meshes (mesh s)) 0 l = ScanSame →
  ∃ evs,
    update_mesh_at (S d) l (update_mesh_at (S d) l s).2
    = ((update_mesh_at (S d) l s).1, call evs (update_mesh_at (S d) l s).2).
Proof.
  intros H. rewrite (update_mesh_at_same d l s H).
  destruct (points_loop l _) as [[r acts] evs] eqn:E. cbn [fst snd].
  apply mesh_scan_same in H as [Hf _].
  rewrite update_mesh_at_same by apply (mesh_scan_self [] l Hf).
  cbn. rewrite (points_loop_idem _ _ _ _ _ E). exists evs.
  reflexivity.
Qed.

Lemma update_muscle_at_twice d l s :
  mesh_scan (all_muscles (muscle s)) 0 l = ScanSame →
  ∃ evs,
    update_muscle_at (S d) l (update_muscle_at (S d) l s).2
    = ((update_muscle_at (S d) l s).1,
       call evs (update_muscle_at (S d) l s).2).
Proof.
  intros H. rewrite (update_muscle_at_same d l s H).
  destruct (points_loop l _) as [[r acts] evs] eqn:E. cbn [fst snd].
  apply mesh_scan_same in H as [Hf _].
  rewrite update_muscle_at_same by apply (mesh_scan_self [] l Hf).
  cbn. rewrite (points_loop_idem _ _ _ _ _ E). exists evs.
  reflexivity.
Qed.

Lemma update_rt_at_twice d l s :
  length l = n_rt (rt s) →
  ∃ evs,
    update_rt_at (S d) l (update_rt_at (S d) l s).2
    = ((update_rt_at (S d) l s).1, call evs (update_rt_at (S d) l s).2).
Proof.
  intros H. rewrite (update_rt_at_same d l s H).
  destruct (rt_points_loop _ l _) as [[r acts] evs] eqn:E. cbn [fst snd].
  rewrite update_rt_at_same by done.
  cbn. rewrite (rt_points_loop_idem _ _ _ _ _ _ E). exists evs.
  reflexivity.
Qed.
Lemma wrapping_scan_same wr seg st i todo s :
  all_wrappings (wrapping s) !! seg = Some st →
  mesh_scan st i todo = ScanSame →
  wrapping_scan wr seg i todo s = (Returned, s).
Proof.
  intros Hst. revert i. induction todo as [|m rest IH]; intros i; simpl;
    [done|].
  destruct (negb (mesh_time_size m =? 1)); [done|].
  rewrite Hst. destruct (st !! i) as [m0|]; [|done].
  destruct (negb (mesh_channel_size m =? mesh_channel_size m0)); [done|].
  apply IH.
Qed.

Lemma update_wrapping_segment_first seg wr s st :
  all_wrappings (wrapping s) !! seg = Some st →
  mesh_scan st 0 wr = ScanSame →
  settled wr (update_wrapping_segment seg wr s).1
    (segment seg (update_wrapping_segment seg wr s).2).
Proof.
  intros Hst Hscan. unfold update_wrapping_segment.
  rewrite (wrapping_scan_same wr seg st 0 wr s Hst Hscan).
  pose proof (lookup_lt_Some _ _ _ Hst) as Hlt.
  case_decide; [lia|]. cbn [wrapping_actors with_all_wrappings].
  apply mesh_scan_same in Hscan as [Hf _].
  destruct (wrapping_actors (wrapping s) !! seg) as [acts|] eqn:Ea.
  - destruct (points_loop wr acts) as [[r acts'] evs] eqn:E.
    unfold settled, segment. cbn.
    pose proof (lookup_lt_Some _ _ _ Ea) as Hlt'.
    rewrite !list_lookup_insert_eq by done. cbn.
    split; [done|]. split; [done|].
    exists evs. by eapply points_loop_idem.
  - unfold settled, segment. destruct wr; cbn;
      rewrite list_lookup_insert_eq by done; rewrite Ea; by cbn.
Qed.

Lemma update_wrapping_segment_again seg wr r s :
  settled wr r (segment seg s) →
  ∃ evs, update_wrapping_segment seg wr s = (r, call evs s).
Proof.
  unfold settled, segment. cbn [fst snd]. intros (Hst & Hf & Ha).
  unfold update_wrapping_segment.
  rewrite (wrapping_scan_same wr seg wr 0 wr s Hst (mesh_scan_self [] wr Hf)).
  pose proof (lookup_lt_Some _ _ _ Hst) as Hlt.
  case_decide; [lia|]. cbn [wrapping_actors with_all_wrappings].
  rewrite (list_insert_id _ _ _ Hst).
  destruct (wrapping_actors (wrapping s) !! seg) as [acts|] eqn:Ea.
  - destruct Ha as [evs ->]. exists evs.
    cbn. rewrite (list_insert_id _ _ _ Ea).
    f_equal. f_equal. destruct s as [? ? ? ? ? ? ? ? ? ? ? ? w]. by destruct w.
  - exists []. rewrite call_nil.
    destruct wr; subst r; f_equal;
      destruct s as [? ? ? ? ? ? ? ? ? ? ? ? w]; by destruct w.
Qed.

Lemma wrappings_match_ext st1 st2 seg l :
  (∀ j, seg ≤ j → st1 !! j = st2 !! j) →
  wrappings_match st1 seg l = wrappings_match st2 seg l.
Proof.
  revert seg. induction l as [|wr rest IH]; intros seg H; simpl; [done|].
  rewrite (H seg) by lia. destruct (st2 !! seg) as [st|]; [|done].
  destruct (mesh_scan st 0 wr); try done.
  apply IH. intros j Hj. apply H. lia.
Qed.

Lemma segment_wrapping seg s s' :
  wrapping s' = wrapping s → segment seg s' = segment seg s.
Proof. unfold segment. by intros ->. Qed.

Lemma update_wrapping_loop_twice seg l s :
  wrappings_match (all_wrappings (wrapping s)) seg l = true →
  ∀ s2, wrapping s2 = wrapping (update_wrapping_loop seg l s).2 →
    ∃ evs,
      update_wrapping_loop seg l s2
      = ((update_wrapping_loop seg l s).1, call evs s2).
Proof.
  revert seg s. induction l as [|wr rest IH]; intros seg s Hm s2 Hs2;
    simpl in *.
  { exists []. by rewrite call_nil. }
  destruct (all_wrappings (wrapping s) !! seg) as [st|] eqn:Hst; [|done].
  destruct (mesh_scan st 0 wr) eqn:Hscan; try done.
  pose proof (update_wrapping_segment_first seg wr s st Hst Hscan) as Hset.
  assert (Hrest : wrappings_match
                    (all_wrappings
                       (wrapping (update_wrapping_segment seg wr s).2))
                    (S seg) rest = true).
  { rewrite <- Hm. apply wrappings_match_ext. intros j Hj.
    pose proof (update_wrapping_segment_other seg wr s j ltac:(lia)) as Ho.
    unfold segment in Ho. by injection Ho. }
  destruct (update_wrapping_segment seg wr s) as [[|e] s1] eqn:E;
    cbn [fst snd] in *.
  - pose proof (update_wrapping_loop_other (S seg) rest s1 seg ltac:(lia))
      as Ho.
    rewrite <- Ho, <- (segment_wrapping seg _ s2 Hs2) in Hset.
    destruct (update_wrapping_segment_again seg wr Returned s2 Hset)
      as [evs0 ->].
    destruct (IH (S seg) s1 Hrest (call evs0 s2) Hs2) as [evs ->].
    exists (evs0 ++ evs). by rewrite call_call.
  - rewrite <- (segment_wrapping seg _ s2 Hs2) in Hset.
    destruct (update_wrapping_segment_again seg wr _ s2 Hset) as [evs0 ->].
    by exists evs0.
Qed.

Lemma update_wrapping_loop_first seg wr rest s st :
  all_wrappings (wrapping s) !! seg = Some st →
  mesh_scan st 0 wr = ScanSame →
  all_wrappings (wrapping (update_wrapping_loop seg (wr :: rest) s).2) !! seg
  = Some wr.
Proof.
  intros Hst Hscan. simpl.
  destruct (update_wrapping_segment_first seg wr s st Hst Hscan) as [H _].
  destruct (update_wrapping_segment seg wr s) as [[|e] s1]; cbn in *; [|done].
  pose proof (update_wrapping_loop_other (S seg) rest s1 seg ltac:(lia)) as Ho.
  unfold segment in Ho. injection Ho as -> _. done.
Qed.

Lemma update_wrapping_twice l s :
  wrappings_match (all_wrappings (wrapping s)) 0 l = true →
  ∃ evs,
    update_wrapping l (update_wrapping l s).2
    = ((update_wrapping l s).1, call evs (update_wrapping l s).2).
Proof.
  intros Hm. unfold update_wrapping at 2 3 4.
  destruct (all_wrappings (wrapping s)) as [|st0 stored] eqn:Hall.
  { destruct l; [|done]. exists []. by rewrite call_nil. }
  rewrite <- Hall in Hm.
  destruct l as [|wr rest].
  { exists []. rewrite call_nil. cbn. unfold update_wrapping. by rewrite Hall. }
  unfold update_wrapping.
  assert (∃ st, all_wrappings (wrapping s) !! 0 = Some st
                ∧ mesh_scan st 0 wr = ScanSame) as (st & Hst & Hscan).
  { simpl in Hm. destruct (_ !! 0) as [st|]; [|done]. exists st.
    split; [done|]. by destruct (mesh_scan st 0 wr). }
  pose proof (update_wrapping_loop_first 0 wr rest s st Hst Hscan) as H0.
  destruct (all_wrappings
              (wrapping (update_wrapping_loop 0 (wr :: rest) s).2))
    as [|? ?]; [done|].
  by apply update_wrapping_loop_twice.
Qed.

Lemma twice_scene (f : VtkModel → Outcome * VtkModel) s :
  (∃ evs, f (f s).2 = ((f s).1, call evs (f s).2)) →
  (f (f s).2).1 = (f s).1 ∧ scene (f (f s).2).2 = scene (f s).2.
Proof. intros [evs ->]. split; [done|apply scene_call]. Qed.

(** C9.  A frame whose channel counts are those of the stored frame is
    pushed twice in a row: the second push has the outcome of the first and
    leaves the actors, their geometry, the stored frames and the styles as
    the first push left them; only the log of calls grows.  This holds for
    the four sphere categories, the meshes, the muscles, the local frames
    and the wrappings. *)
Theorem C9_same_frame_twice (s : VtkModel) :
  (∀ c m,
     channel_size m = channel_size (ps_frame (point_set c s)) →
     let once := update_point_set recursion_limit c m s in
     let twice := update_point_set recursion_limit c m once.2 in
     twice.1 = once.1 ∧ scene twice.2 = scene once.2)
  ∧ (∀ l,
       mesh_scan (all_meshes (mesh s)) 0 l = ScanSame →
       let once := update_mesh l s in
       let twice := update_mesh l once.2 in
       twice.1 = once.1 ∧ scene twice.2 = scene once.2)
  ∧ (∀ l,
       mesh_scan (all_muscles (muscle s)) 0 l = ScanSame →
       let once := update_muscle l s in
       let twice := update_muscle l once.2 in
       twice.1 = once.1 ∧ scene twice.2 = scene once.2)
  ∧ (∀ l,
       length l = n_rt (rt s) →
       let once := update_rt l s in
       let twice := update_rt l once.2 in
       twice.1 = once.1 ∧ scene twice.2 = scene once.2)
  ∧ (∀ l,
       wrappings_match (all_wrappings (wrapping s)) 0 l = true →
       let once := update_wrapping l s in
       let twice := update_wrapping l once.2 in
       twice.1 = once.1 ∧ scene twice.2 = scene once.2).
Proof.
  split; [|split; [|split; [|split]]].
  - intros c m H.
    exact (twice_scene (update_point_set recursion_limit c m) s
             (update_point_set_twice 999 c m s H)).
  - intros l H.
    exact (twice_scene (update_mesh l) s (update_mesh_at_twice 999 l s H)).
  - intros l H.
    exact (twice_scene (update_muscle l) s
             (update_muscle_at_twice 999 l s H)).
  - intros l H.
    exact (twice_scene (update_rt l) s (update_rt_at_twice 999 l s H)).
  - intros l H.
    exact (twice_scene (update_wrapping l) s (update_wrapping_twice l s H)).
Qed.

Lemma C9_same_frame_twice_witness :
  scene (update_markers two_markers
           (update_markers two_markers
              (update_markers two_markers fresh_model).2).2).2
  = scene (update_markers two_markers
             (update_markers two_markers fresh_model).2).2
  ∧ scene (update_mesh [triangle]
             (update_mesh [triangle]
                (update_mesh [triangle] fresh_model).2).2).2
    = scene (update_mesh [triangle]
               (update_mesh [triangle] fresh_model).2).2.
Proof.
  split.
  - refine (proj2 (proj1 (C9_same_frame_twice
                            (update_markers two_markers fresh_model).2)
                     CatMarkers two_markers _)).
    vm_compute. reflexivity.
  - refine (proj2 (proj1 (proj2 (C9_same_frame_twice
                                   (update_mesh [triangle] fresh_model).2))
                     [triangle] _)).
    vm_compute. reflexivity.
Defined.

(** * Further properties of the code *)

(** ** What a call leaves alone *)

Lemma touches_part_frame p s s' :
  touches_part p s s' →
  (∀ c, p ≠ PartPoints c → point_set c s' = point_set c s)
  ∧ (p ≠ PartMesh → mesh s' = mesh s)
  ∧ (p ≠ PartMuscle → muscle s' = muscle s)
  ∧ (p ≠ PartWrapping → wrapping s' = wrapping s)
  ∧ (p ≠ PartRt → rt s' = rt s)
  ∧ (p ≠ PartGlobalRefFrame →
     has_global_ref_frame s' = has_global_ref_frame s)
  ∧ global_ref_frame_length s' = global_ref_frame_length s
  ∧ global_ref_frame_width s' = global_ref_frame_width s
  ∧ ∃ evs, vtk_calls s' = vtk_calls s ++ evs.
Proof.
  intros Ht; destruct p as [c0 | | | | | ]; destruct Ht as (evs & n & x & ->);
    (split; [intros c Hc; first [by destruct c, c0|by destruct c]|]);
    split_and!; try done; try (by destruct c0); exists evs; by try destruct c0.
Qed.

Lemma run_snoc ks k s : run (ks ++ [k]) s = (perform k (run ks s)).2.
Proof. unfold run. by rewrite foldl_app. Qed.

(** X1.  A sequence of calls, returning or raising, changes only the
    categories its calls belong to: a category none of the calls is about
    keeps its frame, its style and its actors, the lengths of the global
    frame stay, and the log of calls to the renderer and the actors only
    grows. *)
Theorem X1_calls_leave_other_categories (ks : list Call) (s : VtkModel) :
  (∀ c, Forall (fun k => part_of k ≠ PartPoints c) ks →
        point_set c (run ks s) = point_set c s)
  ∧ (Forall (fun k => part_of k ≠ PartMesh) ks →
     mesh (run ks s) = mesh s)
  ∧ (Forall (fun k => part_of k ≠ PartMuscle) ks →
     muscle (run ks s) = muscle s)
  ∧ (Forall (fun k => part_of k ≠ PartWrapping) ks →
     wrapping (run ks s) = wrapping s)
  ∧ (Forall (fun k => part_of k ≠ PartRt) ks → rt (run ks s) = rt s)
  ∧ (Forall (fun k => part_of k ≠ PartGlobalRefFrame) ks →
     has_global_ref_frame (run ks s) = has_global_ref_frame s)
  ∧ global_ref_frame_length (run ks s) = global_ref_frame_length s
  ∧ global_ref_frame_width (run ks s) = global_ref_frame_width s
  ∧ ∃ evs, vtk_calls (run ks s) = vtk_calls s ++ evs.
Proof.
  induction ks as [|k ks IH] using rev_ind.
  { repeat split; try done. exists []. by rewrite app_nil_r. }
  rewrite run_snoc.
  destruct IH as (I1 & I2 & I3 & I4 & I5 & I6 & I7 & I8 & evs & I9).
  destruct (touches_part_frame _ _ _ (perform_footprint k (run ks s)))
    as (H1 & H2 & H3 & H4 & H5 & H6 & H7 & H8 & evs' & H9).
  split; [|split; [|split; [|split; [|split; [|split; [|split; [|split]]]]]]].
  - intros c [Hks Hk]%Forall_app. rewrite Forall_singleton in Hk.
    rewrite H1 by done. by apply I1.
  - intros [Hks Hk]%Forall_app. rewrite Forall_singleton in Hk.
    rewrite H2 by done. by apply I2.
  - intros [Hks Hk]%Forall_app. rewrite Forall_singleton in Hk.
    rewrite H3 by done. by apply I3.
  - intros [Hks Hk]%Forall_app. rewrite Forall_singleton in Hk.
    rewrite H4 by done. by apply I4.
  - intros [Hks Hk]%Forall_app. rewrite Forall_singleton in Hk.
    rewrite H5 by done. by apply I5.
  - intros [Hks Hk]%Forall_app. rewrite Forall_singleton in Hk.
    rewrite H6 by done. by apply I6.
  - by rewrite H7.
  - by rewrite H8.
  - exists (evs ++ evs'). by rewrite H9, I9, app_assoc.
Qed.

Lemma X1_calls_leave_other_categories_witness :
  mesh (run [UpdatePoints CatMarkers two_markers; CreateGlobalRefFrame]
          fresh_model)
  = mesh fresh_model.
Proof.
  apply (X1_calls_leave_other_categories
           [UpdatePoints CatMarkers two_markers; CreateGlobalRefFrame]
           fresh_model).
  repeat constructor; done.
Defined.

(** ** The style setters of the sphere categories *)

Lemma restyled_ok d c p s :
  ps_frame p = ps_frame (point_set c s) →
  ps_actors p = ps_actors (point_set c s) →
  time_size (ps_frame (point_set c s)) = 1 → actors_match_frame c s →
  ∀ r, r = update_point_set (S d) c (ps_frame p) (set_point_set c p s) →
  r.1 = Returned
  ∧ ps_frame (point_set c r.2) = ps_frame (point_set c s)
  ∧ ps_size (point_set c r.2) = ps_size p
  ∧ ps_color (point_set c r.2) = ps_color p
  ∧ ps_opacity (point_set c r.2) = ps_opacity p
  ∧ actor_id <$> ps_actors (point_set c r.2)
    = actor_id <$> ps_actors (point_set c s)
  ∧ Forall2 (fun a pt =>
               mapper_input a = SphereSource pt (ps_size p)
               ∧ prop_color a = Some (ps_color p)
               ∧ prop_opacity a = Some (ps_opacity p))
      (ps_actors (point_set c r.2)) (channel (ps_frame (point_set c s)))
  ∧ ∃ evs, vtk_calls r.2 = vtk_calls s ++ evs
           ∧ filter (fun e => is_renderer_call e = true) evs = [].
Proof.
  intros Hf Ha Ht Hinv r Hr.
  pose proof (point_set_set_point_set c p s) as Hp.
  assert (Hinv1 : actors_match_frame c (set_point_set c p s)).
  { unfold actors_match_frame. by rewrite Hp, Hf, Ha. }
  assert (Ht1 : time_size (ps_frame p) = 1) by by rewrite Hf.
  assert (Hc1 : channel_size (ps_frame p)
                = channel_size (ps_frame (point_set c (set_point_set c p s))))
    by by rewrite Hp.
  destruct (update_point_set_fast_ok d c (ps_frame p) (set_point_set c p s)
              Ht1 Hinv1 Hc1)
    as (H1 & H2 & H3 & H4 & evs & H5 & _ & H6).
  rewrite <- Hr in H1, H2, H3, H4, H5. rewrite Hp in H3, H4.
  assert (Hst : ps_size (point_set c r.2) = ps_size p
                ∧ ps_color (point_set c r.2) = ps_color p
                ∧ ps_opacity (point_set c r.2) = ps_opacity p).
  { rewrite Hr, update_point_set_fast by done.
    unfold fast_path. destruct (sphere_loop _ _ _ _) as [[o acts] e].
    cbn [snd]. by rewrite point_set_call, point_set_set_point_set, Hp. }
  destruct Hst as (? & ? & ?).
  split; [exact H1|]. split; [by rewrite H2|].
  split; [done|]. split; [done|]. split; [done|].
  split; [by rewrite H3, Ha|].
  split; [by rewrite <- Hf|].
  exists evs. split; [|done].
  rewrite H5. by destruct c.
Qed.

Lemma set_point_color_unfold c v s :
  set_point_color c v s
  = update_point_set (S 999) c (ps_frame (with_color v (point_set c s)))
      (set_point_set c (with_color v (point_set c s)) s).
Proof. unfold set_point_color. by rewrite point_set_set_point_set. Qed.

Lemma set_point_size_unfold c v s :
  set_point_size c v s
  = update_point_set (S 999) c (ps_frame (with_size v (point_set c s)))
      (set_point_set c (with_size v (point_set c s)) s).
Proof. unfold set_point_size. by rewrite point_set_set_point_set. Qed.

Lemma set_point_opacity_unfold c v s :
  set_point_opacity c v s
  = update_point_set (S 999) c (ps_frame (with_opacity v (point_set c s)))
      (set_point_set c (with_opacity v (point_set c s)) s).
Proof. unfold set_point_opacity. by rewrite point_set_set_point_set. Qed.

(** X2.  On a category that stores a single frame with one actor per
    channel, each of the three style setters returns, keeps the frame and
    the two other style values, and leaves the same actors, every one a
    sphere at its channel's point with the new value applied; the renderer
    is not called, so no actor is created or removed. *)
Theorem X2_sphere_setters_restyle_in_place (c : Category) (s : VtkModel) :
  time_size (ps_frame (point_set c s)) = 1 → actors_match_frame c s →
  ∀ v w,
    restyled c s (ps_size (point_set c s)) v (ps_opacity (point_set c s))
      (set_point_color c v s)
    ∧ restyled c s w (ps_color (point_set c s)) (ps_opacity (point_set c s))
        (set_point_size c w s)
    ∧ restyled c s (ps_size (point_set c s)) (ps_color (point_set c s)) w
        (set_point_opacity c w s).
Proof.
  intros Ht Hinv v w. split; [|split].
  - exact (restyled_ok 999 c (with_color v (point_set c s)) s eq_refl eq_refl
             Ht Hinv _ (set_point_color_unfold c v s)).
  - exact (restyled_ok 999 c (with_size w (point_set c s)) s eq_refl eq_refl
             Ht Hinv _ (set_point_size_unfold c w s)).
  - exact (restyled_ok 999 c (with_opacity w (point_set c s)) s eq_refl
             eq_refl Ht Hinv _ (set_point_opacity_unfold c w s)).
Qed.

Lemma X2_sphere_setters_restyle_in_place_witness :
  restyled CatMarkers (update_markers two_markers fresh_model).2
    (ps_size (markers fresh_model)) black (ps_opacity (markers fresh_model))
    (set_markers_color black (update_markers two_markers fresh_model).2).
Proof.
  refine (proj1 (X2_sphere_setters_restyle_in_place CatMarkers
                   (update_markers two_markers fresh_model).2 _ _ black 1)).
  - vm_compute. reflexivity.
  - vm_compute. reflexivity.
Defined.

Lemma restyled_raises d c p s :
  time_size (ps_frame p) ≠ 1 →
  update_point_set (S d) c (ps_frame p) (set_point_set c p s)
  = (Raised (IndexError (update_message c)), set_point_set c p s).
Proof.
  intros Ht. cbn [update_point_set]. unfold update_rejects.
  apply Nat.eqb_neq in Ht. by rewrite Ht.
Qed.

(** X3.  A style setter of a sphere category stores its value first and
    validates nothing itself: when the stored frame is not a single frame,
    the update it ends with raises the IndexError of that category's
    update, the new value stays stored, and no actor is touched. *)
Theorem X3_sphere_setter_on_invalid_frame (c : Category) (s : VtkModel) :
  time_size (ps_frame (point_set c s)) ≠ 1 →
  ∀ v w,
    set_point_color c v s
    = (Raised (IndexError (update_message c)),
       set_point_set c (with_color v (point_set c s)) s)
    ∧ set_point_size c w s
      = (Raised (IndexError (update_message c)),
         set_point_set c (with_size w (point_set c s)) s)
    ∧ set_point_opacity c w s
      = (Raised (IndexError (update_message c)),
         set_point_set c (with_opacity w (point_set c s)) s).
Proof.
  intros Ht v w. split; [|split].
  - rewrite set_point_color_unfold.
    exact (restyled_raises 999 c (with_color v (point_set c s)) s Ht).
  - rewrite set_point_size_unfold.
    exact (restyled_raises 999 c (with_size w (point_set c s)) s Ht).
  - rewrite set_point_opacity_unfold.
    exact (restyled_raises 999 c (with_opacity w (point_set c s)) s Ht).
Qed.

Lemma X3_sphere_setter_on_invalid_frame_witness :
  (set_global_center_of_mass_color black
     (new_global_center_of_mass_set (mkMarkers 2 [origin]) fresh_model).2).1
  = Raised (IndexError "Segment center of mass should be from one frame only").
Proof.
  pose proof (X3_sphere_setter_on_invalid_frame CatGlobalCoM
                (new_global_center_of_mass_set (mkMarkers 2 [origin])
                   fresh_model).2) as H.
  destruct (H ltac:(vm_compute; lia) black 1%Q) as [E _].
  unfold set_global_center_of_mass_color. by rewrite E.
Defined.

(** ** The style setters of the meshes and of the muscles *)

Lemma mesh_scan_stored pre l :
  mesh_scan (pre ++ l) (length pre) l ≠ ScanRebuild.
Proof.
  revert pre. induction l as [|m rest IH]; intros pre; simpl; [done|].
  destruct (negb (mesh_time_size m =? 1)); [done|].
  rewrite lookup_app_r, Nat.sub_diag by lia. simpl.
  rewrite Nat.eqb_refl. simpl.
  specialize (IH (pre ++ [m])).
  by rewrite <- app_assoc, length_app, Nat.add_1_r in IH.
Qed.

Lemma points_loop_only_SetPoints l acts :
  Forall (fun e => is_SetPoints e = true) (points_loop l acts).2.
Proof.
  revert acts. induction l as [|m rest IH]; intros acts; simpl; [done|].
  destruct acts as [|a acts0]; [done|].
  destruct (SetPoints_ (vertices m) a) as [a'|]; simpl; [|done].
  specialize (IH acts0). destruct (points_loop rest acts0) as [[r x] e].
  simpl in *. by constructor.
Qed.

Lemma update_mesh_at_stored d s :
  let r := update_mesh_at (S d) (all_meshes (mesh s)) s in
  all_meshes (mesh r.2) = all_meshes (mesh s)
  ∧ mesh_color (mesh r.2) = mesh_color (mesh s)
  ∧ mesh_opacity (mesh r.2) = mesh_opacity (mesh s)
  ∧ look_kept (mesh_actors (mesh s)) (mesh_actors (mesh r.2))
      (vtk_calls s) (vtk_calls r.2).
Proof.
  cbn [update_mesh_at].
  pose proof (mesh_scan_stored [] (all_meshes (mesh s))) as Hs.
  simpl in Hs. destruct (mesh_scan _ 0 _); [| done |].
  - cbn. split_and!; try done. split.
    + apply Forall2_same_length_lookup_2; [done|].
      intros i x y -> [= <-]. by repeat split.
    + exists []. by rewrite app_nil_r.
  - pose proof (points_loop_same_look (all_meshes (mesh s))
                  (mesh_actors (mesh s))) as Hl.
    pose proof (points_loop_only_SetPoints (all_meshes (mesh s))
                  (mesh_actors (mesh s))) as Hc.
    cbn [mesh_actors with_all_meshes].
    destruct (points_loop _ _) as [[r acts] evs]. cbn in *.
    split_and!; try done. split; [done|]. by exists evs.
Qed.

Lemma update_muscle_at_stored d s :
  let r := update_muscle_at (S d) (all_muscles (muscle s)) s in
  all_muscles (muscle r.2) = all_muscles (muscle s)
  ∧ muscle_color (muscle r.2) = muscle_color (muscle s)
  ∧ muscle_opacity (muscle r.2) = muscle_opacity (muscle s)
  ∧ look_kept (muscle_actors (muscle s)) (muscle_actors (muscle r.2))
      (vtk_calls s) (vtk_calls r.2).
Proof.
  cbn [update_muscle_at].
  pose proof (mesh_scan_stored [] (all_muscles (muscle s))) as Hs.
  simpl in Hs. destruct (mesh_scan _ 0 _); [| done |].
  - cbn. split_and!; try done. split.
    + apply Forall2_same_length_lookup_2; [done|].
      intros i x y -> [= <-]. by repeat split.
    + exists []. by rewrite app_nil_r.
  - pose proof (points_loop_same_look (all_muscles (muscle s))
                  (muscle_actors (muscle s))) as Hl.
    pose proof (points_loop_only_SetPoints (all_muscles (muscle s))
                  (muscle_actors (muscle s))) as Hc.
    cbn [muscle_actors with_all_muscles].
    destruct (points_loop _ _) as [[r acts] evs]. cbn in *.
    split_and!; try done. split; [done|]. by exists evs.
Qed.

(** X4.  [set_mesh_color], [set_mesh_opacity] and [set_muscle_opacity]
    store the new value and then only move points: on every model, whether
    they return or raise, the actors are the ones the model had, each with
    the colour, opacity and line width it had before, and every call made
    is a [SetPoints].  The new value reaches no existing actor; only a later
    rebuild uses it. *)
Theorem X4_mesh_setters_keep_actor_look (s : VtkModel) (v : rgb) (w : Q) :
  (mesh_color (mesh (set_mesh_color v s).2) = v
   ∧ look_kept (mesh_actors (mesh s))
       (mesh_actors (mesh (set_mesh_color v s).2))
       (vtk_calls s) (vtk_calls (set_mesh_color v s).2))
  ∧ (mesh_opacity (mesh (set_mesh_opacity w s).2) = w
     ∧ look_kept (mesh_actors (mesh s))
         (mesh_actors (mesh (set_mesh_opacity w s).2))
         (vtk_calls s) (vtk_calls (set_mesh_opacity w s).2))
  ∧ (muscle_opacity (muscle (set_muscle_opacity w s).2) = w
     ∧ look_kept (muscle_actors (muscle s))
         (muscle_actors (muscle (set_muscle_opacity w s).2))
         (vtk_calls s) (vtk_calls (set_muscle_opacity w s).2)).
Proof.
  split; [|split].
  - destruct (update_mesh_at_stored 999
                (set_mesh (with_mesh_color v (mesh s)) s))
      as (_ & H & _ & Hl).
    split; [exact H|exact Hl].
  - destruct (update_mesh_at_stored 999
                (set_mesh (with_mesh_opacity w (mesh s)) s))
      as (_ & _ & H & Hl).
    split; [exact H|exact Hl].
  - unfold set_muscle_opacity, call_method.
    destruct (update_muscle_at_stored 999
                (set_muscle (with_muscle_opacity w (muscle s)) s))
      as (_ & _ & H & Hl).
    split; [exact H|exact Hl].
Qed.

(** ** The single-frame test of the meshes *)

Lemma mesh_build_loop_raises op col id l :
  ¬ Forall one_frame l →
  (mesh_build_loop op col id l).1.1.1 = Raised one_frame_only_mesh.
Proof.
  revert col id. induction l as [|m rest IH]; intros col id Hn; simpl.
  { destruct Hn. constructor. }
  destruct (mesh_time_size m =? 1) eqn:Et; simpl; [|done].
  apply Nat.eqb_eq in Et.
  specialize (IH (if draws_outline m then black else col) (S id)).
  destruct (mesh_build_loop _ _ _ rest) as [[[r c] a] e]. simpl in *.
  apply IH. intros Hf. apply Hn. by constructor.
Qed.

Lemma points_loop_outcome l acts :
  (points_loop l acts).1.1 ≠ Raised one_frame_only_mesh.
Proof.
  revert acts. induction l as [|m rest IH]; intros acts; simpl; [done|].
  destruct acts as [|a acts0]; [done|].
  destruct (SetPoints_ (vertices m) a) as [a'|]; simpl; [|done].
  specialize (IH acts0). by destruct (points_loop rest acts0) as [[r x] e].
Qed.

Lemma new_mesh_set_at_raises d l s :
  ¬ Forall one_frame l →
  (new_mesh_set_at (S d) l s).1 = Raised one_frame_only_mesh.
Proof.
  intros Hn. cbn [new_mesh_set_at].
  pose proof (mesh_build_loop_raises (mesh_opacity (mesh s))
                (mesh_color (mesh s)) (next_actor s) l Hn) as H.
  destruct (mesh_build_loop _ _ _ l) as [[[r c] a] e]. simpl in H.
  by subst r.
Qed.

Lemma update_mesh_at_raises d l s :
  (update_mesh_at (S (S (S d))) l s).1 = Raised one_frame_only_mesh
  ↔ ¬ Forall one_frame l.
Proof.
  destruct (decide (Forall one_frame l)) as [Hf|Hn].
  - split; [|done]. intros H _. revert H.
    change (update_mesh_at (S (S (S d))) l s)
      with (match mesh_scan (all_meshes (mesh s)) 0 l with
            | ScanRaise => (Raised one_frame_only_mesh, s)
            | ScanRebuild => new_mesh_set_at (S (S d)) l s
            | ScanSame =>
                let ms := with_all_meshes l (mesh s) in
                let '(r, acts, evs) := points_loop l (mesh_actors ms) in
                (r, call evs (set_mesh (with_mesh_actors acts ms) s))
            end).
    destruct (mesh_scan _ 0 l) eqn:E.
    + by apply mesh_scan_raise in E.
    + destruct (new_mesh_set_at_ok d l s Hf) as [-> _]. done.
    + pose proof (points_loop_outcome l (mesh_actors (mesh s))) as H.
      cbn [mesh_actors with_all_meshes].
      by destruct (points_loop _ _) as [[r x] e].
  - split; [done|]. intros _.
    change (update_mesh_at (S (S (S d))) l s)
      with (match mesh_scan (all_meshes (mesh s)) 0 l with
            | ScanRaise => (Raised one_frame_only_mesh, s)
            | ScanRebuild => new_mesh_set_at (S (S d)) l s
            | ScanSame =>
                let ms := with_all_meshes l (mesh s) in
                let '(r, acts, evs) := points_loop l (mesh_actors ms) in
                (r, call evs (set_mesh (with_mesh_actors acts ms) s))
            end).
    destruct (mesh_scan _ 0 l) eqn:E.
    + done.
    + by apply new_mesh_set_at_raises.
    + apply mesh_scan_same in E as [Hf _]. done.
Qed.

(** X5.  [update_mesh] and [new_mesh_set] raise the IndexError
    "Mesh should be from one frame only" exactly when some mesh of the
    list pushed is not a single frame, whatever the model holds. *)
Theorem X5_mesh_single_frame_error (l : list Mesh) (s : VtkModel) :
  ((update_mesh l s).1 = Raised one_frame_only_mesh
   ↔ ¬ Forall one_frame l)
  ∧ ((new_mesh_set l s).1 = Raised one_frame_only_mesh
     ↔ ¬ Forall one_frame l).
Proof.
  split; [exact (update_mesh_at_raises 997 l s)|].
  destruct (decide (Forall one_frame l)) as [Hf|Hn].
  - split; [|done]. destruct (new_mesh_set_ok l s Hf) as [E _].
    intros H. by rewrite E in H.
  - split; [done|]. intros _. exact (new_mesh_set_at_raises 999 l s Hn).
Qed.

(** ** A mesh rebuild that fails half way *)

Lemma mesh_build_loop_partial op col id pre bad post :
  Forall one_frame pre → mesh_time_size bad ≠ 1 →
  ∃ col' acts evs,
    mesh_build_loop op col id (pre ++ bad :: post)
    = (Raised one_frame_only_mesh, col', acts, evs)
    ∧ length acts = length pre
    ∧ Forall2 (fun m a => shows (vertices m) a) pre acts
    ∧ count is_AddActor evs = length pre.
Proof.
  intros Hf Hb. revert col id.
  induction pre as [|m rest IH]; intros col id; simpl.
  { apply Nat.eqb_neq in Hb. rewrite Hb. simpl. by eexists _, _, _. }
  apply Forall_cons in Hf as [Hm Hf]. unfold one_frame in Hm. rewrite Hm.
  simpl.
  destruct (IH Hf (if draws_outline m then black else col) (S id))
    as (c' & acts & evs & -> & Hl & Hs & Hc).
  eexists _, _, _. split; [done|]. simpl. split; [by rewrite Hl|].
  split.
  - constructor; [|done]. destruct (draws_outline m); eexists; by split.
  - rewrite !count_cons. simpl. by rewrite Hc.
Qed.

Lemma new_mesh_set_at_partial d pre bad post s :
  Forall one_frame pre → mesh_time_size bad ≠ 1 →
  let r := new_mesh_set_at (S d) (pre ++ bad :: post) s in
  r.1 = Raised one_frame_only_mesh
  ∧ all_meshes (mesh r.2) = pre ++ bad :: post
  ∧ length (mesh_actors (mesh r.2)) = length pre
  ∧ Forall2 (fun m a => shows (vertices m) a) pre (mesh_actors (mesh r.2))
  ∧ ∃ evs,
      vtk_calls r.2
      = vtk_calls s ++ remove_calls (mesh_actors (mesh s)) ++ evs
      ∧ count is_AddActor evs = length pre.
Proof.
  intros Hf Hb.
  destruct (mesh_build_loop_partial (mesh_opacity (mesh s))
              (mesh_color (mesh s)) (next_actor s) pre bad post Hf Hb)
    as (c' & acts & evs & E & Hl & Hs & Hc).
  simpl. rewrite E. simpl.
  split_and!; try done. by exists evs.
Qed.

(** X6.  A mesh rebuild is not undone when it fails.  When the list holds
    single-frame meshes [pre] followed by a mesh that is not a single
    frame, [new_mesh_set] raises, and by then the whole list is stored, the
    actors of the previous meshes have been removed from the renderer, and
    [pre] has got its new actors, already added and showing their vertices:
    the model is left with fewer actors than stored meshes. *)
Theorem X6_failed_mesh_rebuild_is_partial
    (pre post : list Mesh) (bad : Mesh) (s : VtkModel) :
  Forall one_frame pre → mesh_time_size bad ≠ 1 →
  let r := new_mesh_set (pre ++ bad :: post) s in
  r.1 = Raised one_frame_only_mesh
  ∧ all_meshes (mesh r.2) = pre ++ bad :: post
  ∧ length (mesh_actors (mesh r.2)) = length pre
  ∧ Forall2 (fun m a => shows (vertices m) a) pre (mesh_actors (mesh r.2))
  ∧ ∃ evs,
      vtk_calls r.2
      = vtk_calls s ++ remove_calls (mesh_actors (mesh s)) ++ evs
      ∧ count is_AddActor evs = length pre.
Proof. exact (new_mesh_set_at_partial 999 pre bad post s). Qed.

Lemma X6_failed_mesh_rebuild_is_partial_witness :
  let r := new_mesh_set [triangle; mkMesh 2 [] []; triangle]
             (new_mesh_set [triangle; triangle] fresh_model).2 in
  r.1 = Raised one_frame_only_mesh
  ∧ length (all_meshes (mesh r.2)) = 3
  ∧ length (mesh_actors (mesh r.2)) = 1.
Proof.
  destruct (X6_failed_mesh_rebuild_is_partial [triangle] [triangle]
              (mkMesh 2 [] [])
              (new_mesh_set [triangle; triangle] fresh_model).2)
    as (H1 & H2 & H3 & _).
  - repeat constructor.
  - simpl. lia.
  - split; [exact H1|]. split; [exact (f_equal length H2)|exact H3].
Defined.

(** ** A rebuild of the local frames that fails half way *)

Lemma rt_build_loop_partial w id pre bad post :
  Forall rt_one_frame pre → rt_time_size bad ≠ 1 →
  ∃ acts evs,
    rt_build_loop w id (pre ++ bad :: post)
    = (Raised one_frame_only_rt, acts, evs)
    ∧ length acts = length pre
    ∧ Forall has_polydata acts
    ∧ count is_AddActor evs = length pre.
Proof.
  intros Hf Hb. revert id. induction pre as [|m rest IH]; intros id; simpl.
  { apply Nat.eqb_neq in Hb. rewrite Hb. simpl. by eexists _, _. }
  apply Forall_cons in Hf as [Hm Hf]. unfold rt_one_frame in Hm. rewrite Hm.
  simpl. destruct (IH Hf (S id)) as (acts & evs & -> & Hl & Hp & Hc).
  eexists _, _. split; [done|]. simpl. split; [by rewrite Hl|].
  split.
  - constructor; [by eexists|done].
  - rewrite !count_cons. simpl. by rewrite Hc.
Qed.

Lemma rt_points_loop_short len l acts :
  Forall rt_one_frame l → Forall has_polydata acts →
  length acts < length l →
  (rt_points_loop len l acts).1.1 = Raised list_index_out_of_range.
Proof.
  revert acts. induction l as [|r rest IH]; intros acts Hf Hp Hlen;
    simpl in *; [lia|].
  apply Forall_cons in Hf as [Hr Hf]. unfold rt_one_frame in Hr. rewrite Hr.
  simpl. destruct acts as [|a acts0]; [done|].
  apply Forall_cons in Hp as [[pd Ha] Hp]. unfold SetPoints_. rewrite Ha.
  simpl in Hlen. specialize (IH acts0 Hf Hp ltac:(lia)).
  by destruct (rt_points_loop len rest acts0) as [[o x] e].
Qed.

Lemma new_rt_set_at_partial d pre bad post s :
  Forall rt_one_frame pre → rt_time_size bad ≠ 1 →
  let r := new_rt_set_at (S d) (pre ++ bad :: post) s in
  r.1 = Raised one_frame_only_rt
  ∧ n_rt (rt r.2) = n_rt (rt s)
  ∧ all_rt (rt r.2) = all_rt (rt s)
  ∧ length (rt_actors (rt r.2)) = length pre
  ∧ Forall has_polydata (rt_actors (rt r.2))
  ∧ ∃ evs,
      vtk_calls r.2 = vtk_calls s ++ remove_calls (rt_actors (rt s)) ++ evs
      ∧ count is_AddActor evs = length pre.
Proof.
  intros Hf Hb.
  destruct (rt_build_loop_partial (rt_width (rt s)) (next_actor s) pre bad
              post Hf Hb) as (acts & evs & E & Hl & Hp & Hc).
  simpl. rewrite E. simpl. split_and!; try done. by exists evs.
Qed.

Lemma update_rt_at_short d l s :
  Forall rt_one_frame l → Forall has_polydata (rt_actors (rt s)) →
  length l = n_rt (rt s) → length (rt_actors (rt s)) < length l →
  (update_rt_at (S d) l s).1 = Raised list_index_out_of_range.
Proof.
  intros Hf Hp Hn Hlen. rewrite update_rt_at_same by done.
  pose proof (rt_points_loop_short (rt_length (rt s)) l (rt_actors (rt s))
                Hf Hp Hlen) as H.
  by destruct (rt_points_loop _ _ _) as [[o x] e].
Qed.

(** X7.  A rebuild of the local frames is not undone when it fails.  When
    the list holds single-frame transforms [pre] followed by one that is
    not a single frame, [new_rt_set] raises after it has removed the old
    actors and created those of [pre], and before it records the new
    count: [n_rt] and [all_rt] are still the old ones.  A later [update_rt]
    with a list of the old count, longer than [pre], therefore goes to the
    pass without a rebuild and raises "list index out of range". *)
Theorem X7_failed_rt_rebuild_keeps_old_count
    (pre post : list Rototrans) (bad : Rototrans) (s : VtkModel) :
  Forall rt_one_frame pre → rt_time_size bad ≠ 1 →
  let r := new_rt_set (pre ++ bad :: post) s in
  r.1 = Raised one_frame_only_rt
  ∧ n_rt (rt r.2) = n_rt (rt s)
  ∧ all_rt (rt r.2) = all_rt (rt s)
  ∧ length (rt_actors (rt r.2)) = length pre
  ∧ (∃ evs,
       vtk_calls r.2 = vtk_calls s ++ remove_calls (rt_actors (rt s)) ++ evs
       ∧ count is_AddActor evs = length pre)
  ∧ ∀ l, Forall rt_one_frame l → length l = n_rt (rt s) →
         length pre < length l →
         (update_rt l r.2).1 = Raised list_index_out_of_range.
Proof.
  intros Hf Hb.
  destruct (new_rt_set_at_partial 999 pre bad post s Hf Hb)
    as (H1 & H2 & H3 & H4 & H5 & H6).
  split; [exact H1|]. split; [exact H2|]. split; [exact H3|].
  split; [exact H4|]. split; [exact H6|].
  intros l Hl Hn Hlt.
  refine (update_rt_at_short 999 l _ Hl H5 _ _).
  - etrans; [exact Hn|]. symmetry. exact H2.
  - eapply Nat.le_lt_trans; [|exact Hlt]. apply Nat.eq_le_incl. exact H4.
Qed.

Lemma X7_failed_rt_rebuild_keeps_old_count_witness :
  let r := new_rt_set [identity_rt; mkRototrans 2 origin origin origin origin]
             (new_rt_set [identity_rt; identity_rt] fresh_model).2 in
  r.1 = Raised one_frame_only_rt
  ∧ n_rt (rt r.2) = 2
  ∧ length (rt_actors (rt r.2)) = 1
  ∧ (update_rt [identity_rt; identity_rt] r.2).1
    = Raised list_index_out_of_range.
Proof.
  destruct (X7_failed_rt_rebuild_keeps_old_count [identity_rt] []
              (mkRototrans 2 origin origin origin origin)
              (new_rt_set [identity_rt; identity_rt] fresh_model).2)
    as (H1 & H2 & _ & H4 & _ & H6).
  - repeat constructor.
  - simpl. lia.
  - split; [exact H1|]. split; [exact H2|]. split; [exact H4|].
    apply H6.
    + repeat constructor.
    + vm_compute. reflexivity.
    + simpl. lia.
Defined.

(** ** The segments of the wrappings *)

Lemma new_wrapping_set_slots l seg s :
  length (all_wrappings (wrapping (new_wrapping_set l seg s).2))
  = length (all_wrappings (wrapping s))
  ∧ length (wrapping_actors (wrapping (new_wrapping_set l seg s).2))
    = length (wrapping_actors (wrapping s)).
Proof.
  unfold new_wrapping_set. case_decide; [done|].
  cbn [wrapping_actors with_all_wrappings].
  destruct (wrapping_actors (wrapping s) !! seg); cbn.
  - destruct (wrapping_build_loop _ _ _ _) as [[r acts] evs]. cbn.
    by rewrite !length_insert.
  - by rewrite length_insert.
Qed.

Lemma wrapping_scan_slots wr seg i todo s :
  length (all_wrappings (wrapping (wrapping_scan wr seg i todo s).2))
  = length (all_wrappings (wrapping s))
  ∧ length (wrapping_actors (wrapping (wrapping_scan wr seg i todo s).2))
    = length (wrapping_actors (wrapping s)).
Proof.
  revert i s. induction todo as [|m rest IH]; intros i s; simpl; [done|].
  destruct (negb _); [done|].
  destruct (_ !! seg) as [stored|]; [|done].
  match goal with |- context [if ?b then _ else _] => destruct b end;
    [|apply IH].
  pose proof (new_wrapping_set_slots wr seg s) as [H1 H2].
  destruct (new_wrapping_set wr seg s) as [[|e] s1]; simpl in *; [|done].
  destruct (IH (S i) s1) as [-> ->]. done.
Qed.

Lemma update_wrapping_segment_slots seg wr s :
  length (all_wrappings (wrapping (update_wrapping_segment seg wr s).2))
  = length (all_wrappings (wrapping s))
  ∧ length (wrapping_actors (wrapping (update_wrapping_segment seg wr s).2))
    = length (wrapping_actors (wrapping s)).
Proof.
  unfold update_wrapping_segment.
  pose proof (wrapping_scan_slots wr seg 0 wr s) as [H1 H2].
  destruct (wrapping_scan wr seg 0 wr s) as [[|e] s1]; simpl in *; [|done].
  rewrite <- H1, <- H2. case_decide; [done|].
  cbn [wrapping_actors with_all_wrappings].
  destruct (wrapping_actors (wrapping s1) !! seg).
  - destruct (points_loop _ _) as [[r acts] evs]. cbn.
    by rewrite !length_insert.
  - destruct wr; cbn; by rewrite length_insert.
Qed.

Lemma update_wrapping_loop_slots seg l s :
  length (all_wrappings (wrapping (update_wrapping_loop seg l s).2))
  = length (all_wrappings (wrapping s))
  ∧ length (wrapping_actors (wrapping (update_wrapping_loop seg l s).2))
    = length (wrapping_actors (wrapping s)).
Proof.
  revert seg s. induction l as [|wr rest IH]; intros seg s; simpl; [done|].
  pose proof (update_wrapping_segment_slots seg wr s) as [H1 H2].
  destruct (update_wrapping_segment seg wr s) as [[|e] s1]; simpl in *;
    [|done].
  destruct (IH (S seg) s1) as [-> ->]. done.
Qed.

Lemma update_wrapping_slots l s :
  all_wrappings (wrapping s) ≠ [] →
  length (all_wrappings (wrapping (update_wrapping l s).2))
  = length (all_wrappings (wrapping s)).
Proof.
  intros Hne. unfold update_wrapping.
  destruct (all_wrappings (wrapping s)) eqn:E; [done|].
  rewrite <- E. apply update_wrapping_loop_slots.
Qed.

Lemma perform_slots k s :
  all_wrappings (wrapping s) ≠ [] →
  length (all_wrappings (wrapping (perform k s).2))
  = length (all_wrappings (wrapping s)).
Proof.
  intros Hne. destruct (decide (part_of k = PartWrapping)) as [e|n].
  - destruct k; try discriminate e; cbn [perform].
    + by apply update_wrapping_slots.
    + apply new_wrapping_set_slots.
    + unfold set_wrapping_color.
      by rewrite update_wrapping_slots.
    + unfold set_wrapping_opacity.
      by rewrite update_wrapping_slots.
  - destruct (touches_part_frame _ _ _ (perform_footprint k s))
      as (_ & _ & _ & H & _).
    by rewrite H.
Qed.

Lemma run_slots ks s :
  all_wrappings (wrapping s) ≠ [] →
  length (all_wrappings (wrapping (run ks s)))
  = length (all_wrappings (wrapping s)).
Proof.
  intros Hne. induction ks as [|k ks IH] using rev_ind; [done|].
  rewrite run_snoc, perform_slots; [done|].
  intros E. rewrite E in IH. simpl in IH.
  destruct (all_wrappings (wrapping s)); [done|]. simpl in IH. lia.
Qed.

Lemma update_wrapping_segment_beyond seg wr s :
  length (all_wrappings (wrapping s)) ≤ seg →
  ∃ msg, update_wrapping_segment seg wr s = (Raised (IndexError msg), s).
Proof.
  intros Hle. unfold update_wrapping_segment.
  destruct wr as [|m rest]; simpl.
  - case_decide; [|lia]. by eexists.
  - destruct (negb _); [by eexists|].
    rewrite lookup_ge_None_2 by done. by eexists.
Qed.

Lemma update_wrapping_loop_beyond seg l s :
  seg ≤ length (all_wrappings (wrapping s)) →
  length (all_wrappings (wrapping s)) < seg + length l →
  (update_wrapping_loop seg l s).1 ≠ Returned.
Proof.
  revert seg s. induction l as [|wr rest IH]; intros seg s Hseg Hlt;
    simpl in *.
  { lia. }
  destruct (decide (length (all_wrappings (wrapping s)) ≤ seg)) as [Hle|Hgt].
  - by destruct (update_wrapping_segment_beyond seg wr s Hle) as [msg ->].
  - pose proof (update_wrapping_segment_slots seg wr s) as [H1 _].
    destruct (update_wrapping_segment seg wr s) as [[|e] s1]; simpl in *;
      [|done].
    apply IH; lia.
Qed.

(** X8.  The number of wrapping segments is fixed by the first
    [update_wrapping] that finds none stored: once the model holds
    segments, no sequence of calls changes their number, and an
    [update_wrapping] with more segments than that never returns, it
    raises. *)
Theorem X8_wrapping_segment_count_is_fixed
    (s : VtkModel) (ks : list Call) (l : list (list Mesh)) :
  all_wrappings (wrapping s) ≠ [] →
  length (all_wrappings (wrapping (run ks s)))
  = length (all_wrappings (wrapping s))
  ∧ (length (all_wrappings (wrapping s)) < length l →
     (update_wrapping l (run ks s)).1 ≠ Returned).
Proof.
  intros Hne. pose proof (run_slots ks s Hne) as Hl. split; [done|].
  intros Hlt. unfold update_wrapping.
  assert (Hpos : 0 < length (all_wrappings (wrapping (run ks s)))).
  { rewrite Hl. destruct (all_wrappings (wrapping s)); [done|]. simpl. lia. }
  destruct (all_wrappings (wrapping (run ks s))) eqn:E; [simpl in Hpos; lia|].
  apply update_wrapping_loop_beyond; [lia|]. rewrite E, Hl. simpl. lia.
Qed.

Lemma X8_wrapping_segment_count_is_fixed_witness :
  length (all_wrappings
            (wrapping (run [UpdateWrapping [[triangle]]] one_segment_model)))
  = 1
  ∧ (update_wrapping [[triangle]; [triangle]]
       (run [UpdateWrapping [[triangle]]] one_segment_model)).1 ≠ Returned.
Proof.
  destruct (X8_wrapping_segment_count_is_fixed one_segment_model
              [UpdateWrapping [[triangle]]] [[triangle]; [triangle]])
    as [H1 H2].
  - vm_compute. discriminate.
  - split; [exact H1|]. apply H2. vm_compute. lia.
Defined.

(** ** The first frame of wrappings *)







(** ** The window *)

Lemma block_buttons_length bs e :
  length (block_buttons bs e).1 = length bs.
Proof.
  revert e. induction bs as [|b rest IH]; intros e; simpl; [done|].
  specialize (IH (setEnabled b false e)).
  destruct (block_buttons rest _) as [wt e']. simpl in *. by rewrite IH.
Qed.

Lemma block_buttons_store bs e x :
  (block_buttons bs e).2 x = if bool_decide (x ∈ bs) then false else e x.
Proof.
  revert e. induction bs as [|b rest IH]; intros e;
    cbn [block_buttons fst snd zip zip_with existsb].
  { by rewrite bool_decide_eq_false_2 by apply not_elem_of_nil. }
  specialize (IH (setEnabled b false e)).
  destruct (block_buttons rest _) as [wt e']. simpl in *. rewrite IH.
  unfold setEnabled. destruct (x =? b) eqn:E.
  - apply Nat.eqb_eq in E as ->.
    rewrite (bool_decide_eq_true_2 (b ∈ b :: rest)) by constructor.
    by destruct (bool_decide _).
  - apply Nat.eqb_neq in E.
    destruct (decide (x ∈ rest)) as [Hin|Hout].
    + rewrite !bool_decide_eq_true_2; [done|by constructor|done].
    + rewrite !bool_decide_eq_false_2; [done| |done].
      intros [->|?]%elem_of_cons; done.
Qed.

(** What the second loop leaves of button [x]: enabled if some listed
    occurrence of it was recorded as enabled, else as the loop found it. *)
Lemma restore_buttons_store bs wt e x :
  restore_buttons bs wt e x
  = if existsb (fun p => (p.1 =? x) && p.2) (zip bs wt) then true else e x.
Proof.
  revert wt e. induction bs as [|b rest IH]; intros wt e; simpl; [done|].
  destruct wt as [|t ts]; simpl; [done|].
  rewrite IH. destruct (existsb _ (zip rest ts)).
  { by rewrite orb_true_r. }
  rewrite orb_false_r. destruct t; simpl.
  - unfold setEnabled. rewrite Nat.eqb_sym, andb_true_r.
    by destruct (x =? b).
  - by rewrite andb_false_r.
Qed.

(** The first loop records a listed button as enabled at most at its first
    occurrence, and there exactly when the loop found it enabled. *)
Lemma block_buttons_was_true bs e x :
  existsb (fun p => (p.1 =? x) && p.2) (zip bs (block_buttons bs e).1)
  = bool_decide (x ∈ bs) && e x.
Proof.
  revert e. induction bs as [|b rest IH]; intros e;
    cbn [block_buttons fst snd zip zip_with existsb].
  { by rewrite bool_decide_eq_false_2 by apply not_elem_of_nil. }
  specialize (IH (setEnabled b false e)).
  destruct (block_buttons rest _) as [wt e']. simpl in *. rewrite IH.
  unfold setEnabled. rewrite (Nat.eqb_sym b x). destruct (x =? b) eqn:E.
  - apply Nat.eqb_eq in E as ->.
    rewrite (bool_decide_eq_true_2 (b ∈ b :: rest)) by constructor.
    simpl. by rewrite andb_false_r, orb_false_r.
  - apply Nat.eqb_neq in E. simpl.
    destruct (decide (x ∈ rest)) as [Hin|Hout].
    + rewrite !bool_decide_eq_true_2; [done|by constructor|done].
    + rewrite !bool_decide_eq_false_2; [done| |done].
      intros [->|?]%elem_of_cons; done.
Qed.

(** X10.  [record] leaves every button as it found it: the buttons it was
    asked to block are all disabled while the frame is written, and after
    the call each button, listed once, several times or not at all, is
    enabled exactly if it was before. *)
Theorem X10_record_restores_buttons
    (finish : bool) (bs : list nat) (f : option string)
    (e : Buttons) (w : VtkWindow) :
  Forall (fun b => (block_buttons bs e).2 b = false) bs
  ∧ ∀ x, (record finish bs f (e, w)).1 x = e x.
Proof.
  split.
  - apply Forall_forall. intros b Hb. rewrite block_buttons_store.
    by rewrite bool_decide_eq_true_2.
  - intros x. unfold record.
    pose proof (block_buttons_store bs e x) as Hs.
    pose proof (block_buttons_was_true bs e x) as Hw.
    destruct (block_buttons bs e) as [wt e1]. simpl in *.
    rewrite restore_buttons_store, Hw, Hs.
    destruct (bool_decide (x ∈ bs)); simpl; [|done].
    by destruct (e x).
Qed.

Lemma win_count_app f evs1 evs2 :
  win_count f (evs1 ++ evs2) = win_count f evs1 + win_count f evs2.
Proof. unfold win_count. by rewrite filter_app, length_app. Qed.

Lemma update_frame_once w :
  should_reset_camera (update_frame w) = false
  ∧ ∃ evs,
      win_calls (update_frame w) = win_calls w ++ evs
      ∧ win_count is_RenResetCamera evs
        = (if should_reset_camera w then 1 else 0)
      ∧ win_count is_InteractorRender evs = 1.
Proof.
  unfold update_frame. destruct (should_reset_camera w) eqn:E; cbn.
  - split; [done|].
    exists [RenResetCamera; InteractorRender; ProcessEvents].
    by rewrite <- app_assoc.
  - split; [done|]. by exists [InteractorRender; ProcessEvents].
Qed.

(** X11.  [update_frame] resets the camera only when the window's flag asks
    for it, and clears the flag: over any number of repaints in a row the
    camera is reset once if the flag was set and never if it was not, while
    every repaint renders once. *)
Theorem X11_update_frame_resets_camera_once (w : VtkWindow) (n : nat) :
  let w' := Nat.iter (S n) update_frame w in
  should_reset_camera w' = false
  ∧ ∃ evs,
      win_calls w' = win_calls w ++ evs
      ∧ win_count is_RenResetCamera evs
        = (if should_reset_camera w then 1 else 0)
      ∧ win_count is_InteractorRender evs = S n.
Proof.
  induction n as [|n IH]; [apply update_frame_once|].
  cbn zeta in *. destruct IH as (Hflag & evs & Hc & Hr & Hi).
  rewrite (Nat.iter_succ (S n)).
  destruct (update_frame_once (Nat.iter (S n) update_frame w))
    as (Hflag' & evs' & Hc' & Hr' & Hi').
  split; [done|]. exists (evs ++ evs').
  rewrite Hc', Hc, app_assoc, !win_count_app, Hr, Hr', Hi, Hi', Hflag.
  split; [done|]. split; lia.
Qed.

(** ** What the mesh rebuild builds *)








(** ** What the rebuilds of the muscles and of the local frames build *)









(** ** When an update of the meshes or of the muscles rebuilds *)

Lemma mesh_scan_rebuild st l :
  Forall one_frame l →
  (mesh_scan st 0 l = ScanRebuild ↔ differs_from st l)
  ∧ (mesh_scan st 0 l = ScanSame ↔ ¬ differs_from st l).
Proof.
  intros Hf.
  assert (Hsame : mesh_scan st 0 l = ScanSame → ¬ differs_from st l).
  { intros H (i & m & Hm & Hd). apply mesh_scan_same in H as [_ H].
    destruct (H i m Hm) as (m0 & H0 & Hc). by apply (Hd m0). }
  assert (Hreb : ∀ i, mesh_scan st i l = ScanRebuild →
            ∃ j m, l !! j = Some m
                   ∧ ∀ m0, st !! (i + j) = Some m0 →
                           mesh_channel_size m ≠ mesh_channel_size m0).
  { clear Hsame. induction l as [|m rest IH]; intros i; simpl; [done|].
    apply Forall_cons in Hf as [Hm Hf]. unfold one_frame in Hm. rewrite Hm.
    simpl. destruct (st !! i) as [m0|] eqn:E.
    - destruct (mesh_channel_size m =? mesh_channel_size m0) eqn:Ec; simpl.
      + intros H. destruct (IH Hf _ H) as (j & m' & Hj & Hd).
        exists (S j), m'. split; [done|].
        by rewrite <- Nat.add_succ_comm.
      + intros _. exists 0, m. split; [done|]. rewrite Nat.add_0_r, E.
        intros ? [= <-]. by apply Nat.eqb_neq.
    - intros _. exists 0, m. split; [done|]. by rewrite Nat.add_0_r, E. }
  destruct (mesh_scan st 0 l) eqn:E.
  - by apply mesh_scan_raise in E.
  - split; [|split; [done|]].
    + split; [intros _; apply (Hreb 0 E)|done].
    + intros Hn. destruct Hn. apply (Hreb 0 E).
  - split; [split; [done|]|split; [auto|done]].
    intros Hd. by destruct (Hsame eq_refl).
Qed.

Lemma new_mesh_set_at_depth d d' l s :
  new_mesh_set_at (S (S d)) l s = new_mesh_set_at (S (S d')) l s.
Proof.
  cbn [new_mesh_set_at].
  destruct (mesh_build_loop _ _ _ l) as [[[r c] acts] evs].
  destruct r; [|done].
  cbn [update_mesh_at all_meshes mesh set_mesh call set_next_actor].
  pose proof (mesh_scan_stored [] l) as Hs. simpl in Hs.
  by destruct (mesh_scan l 0 l).
Qed.

Lemma new_muscle_set_at_depth d d' l s :
  new_muscle_set_at (S (S d)) l s = new_muscle_set_at (S (S d')) l s.
Proof.
  cbn [new_muscle_set_at].
  destruct (muscle_build_loop _ _ _ l) as [[r acts] evs].
  destruct r; [|done].
  cbn [update_muscle_at all_muscles muscle set_muscle call set_next_actor].
  pose proof (mesh_scan_stored [] l) as Hs. simpl in Hs.
  by destruct (mesh_scan l 0 l).
Qed.

Lemma update_mesh_at_cases d l s :
  Forall one_frame l →
  (differs_from (all_meshes (mesh s)) l →
   update_mesh_at (S (S (S d))) l s = new_mesh_set_at (S (S (S d))) l s)
  ∧ (¬ differs_from (all_meshes (mesh s)) l →
     let r := update_mesh_at (S (S (S d))) l s in
     all_meshes (mesh r.2) = l
     ∧ look_kept (mesh_actors (mesh s)) (mesh_actors (mesh r.2))
         (vtk_calls s) (vtk_calls r.2)).
Proof.
  intros Hf.
  destruct (mesh_scan_rebuild (all_meshes (mesh s)) l Hf) as [Hr Hs].
  split.
  - intros Hd. apply Hr in Hd.
    rewrite (new_mesh_set_at_depth (S d) d).
    cbn [update_mesh_at]. by rewrite Hd.
  - intros Hd. apply Hs in Hd. rewrite update_mesh_at_same by done.
    pose proof (points_loop_same_look l (mesh_actors (mesh s))) as Hl.
    pose proof (points_loop_only_SetPoints l (mesh_actors (mesh s))) as Hc.
    destruct (points_loop _ _) as [[r acts] evs]. cbn in *.
    split; [done|]. split; [done|]. by exists evs.
Qed.

Lemma update_muscle_at_cases d l s :
  Forall one_frame l →
  (differs_from (all_muscles (muscle s)) l →
   update_muscle_at (S (S (S d))) l s = new_muscle_set_at (S (S (S d))) l s)
  ∧ (¬ differs_from (all_muscles (muscle s)) l →
     let r := update_muscle_at (S (S (S d))) l s in
     all_muscles (muscle r.2) = l
     ∧ look_kept (muscle_actors (muscle s)) (muscle_actors (muscle r.2))
         (vtk_calls s) (vtk_calls r.2)).
Proof.
  intros Hf.
  destruct (mesh_scan_rebuild (all_muscles (muscle s)) l Hf) as [Hr Hs].
  split.
  - intros Hd. apply Hr in Hd.
    rewrite (new_muscle_set_at_depth (S d) d).
    cbn [update_muscle_at]. by rewrite Hd.
  - intros Hd. apply Hs in Hd. rewrite update_muscle_at_same by done.
    pose proof (points_loop_same_look l (muscle_actors (muscle s))) as Hl.
    pose proof (points_loop_only_SetPoints l (muscle_actors (muscle s)))
      as Hc.
    destruct (points_loop _ _) as [[r acts] evs]. cbn in *.
    split; [done|]. split; [done|]. by exists evs.
Qed.

(** X14.  For a list of single-frame meshes, [update_mesh] does what
    [new_mesh_set] does exactly when some pushed mesh has no stored mesh
    at its index or one with another channel count; otherwise it stores
    the list and only moves the points of the actors it has, which keep
    their identity and look, so that a list shorter than the stored one
    never causes a rebuild.  [update_muscle] decides in the same way. *)
Theorem X14_mesh_update_rebuilds_iff_differs (l : list Mesh) (s : VtkModel) :
  Forall one_frame l →
  ((differs_from (all_meshes (mesh s)) l →
    update_mesh l s = new_mesh_set l s)
   ∧ (¬ differs_from (all_meshes (mesh s)) l →
      all_meshes (mesh (update_mesh l s).2) = l
      ∧ look_kept (mesh_actors (mesh s))
          (mesh_actors (mesh (update_mesh l s).2))
          (vtk_calls s) (vtk_calls (update_mesh l s).2)))
  ∧ ((differs_from (all_muscles (muscle s)) l →
      update_muscle l s = new_muscle_set l s)
     ∧ (¬ differs_from (all_muscles (muscle s)) l →
        all_muscles (muscle (update_muscle l s).2) = l
        ∧ look_kept (muscle_actors (muscle s))
            (muscle_actors (muscle (update_muscle l s).2))
            (vtk_calls s) (vtk_calls (update_muscle l s).2))).
Proof.
  intros Hf. split.
  - exact (update_mesh_at_cases 997 l s Hf).
  - exact (update_muscle_at_cases 997 l s Hf).
Qed.

Lemma X14_mesh_update_rebuilds_iff_differs_witness :
  update_mesh [triangle; two_triangles]
    (update_mesh [triangle] fresh_model).2
  = new_mesh_set [triangle; two_triangles]
      (update_mesh [triangle] fresh_model).2.
Proof.
  destruct (X14_mesh_update_rebuilds_iff_differs [triangle; two_triangles]
              (update_mesh [triangle] fresh_model).2) as [[H _] _].
  - repeat constructor.
  - apply H. exists 1, two_triangles. split; [done|].
    intros m0 Hm0. vm_compute in Hm0. discriminate Hm0.
Defined.

(** ** When an update of the local frames rebuilds *)

Lemma rt_points_loop_same_look len l acts :
  Forall2 same_look acts (rt_points_loop len l acts).1.2.
Proof.
  assert (Hrefl : ∀ xs : list Actor, Forall2 same_look xs xs).
  { intros xs. apply Forall2_same_length_lookup_2; [done|].
    by intros i x y -> [= <-]. }
  revert acts. induction l as [|m rest IH]; intros acts; simpl; [done|].
  destruct (negb _); [done|].
  destruct acts as [|a acts0]; [constructor|].
  destruct (SetPoints_ _ a) as [a'|] eqn:Ea; simpl; [|done].
  specialize (IH acts0). destruct (rt_points_loop len rest acts0) as [[r x] e].
  simpl in *. constructor; [by eapply SetPoints_same_look|done].
Qed.

Lemma rt_points_loop_only_SetPoints len l acts :
  Forall (fun e => is_SetPoints e = true) (rt_points_loop len l acts).2.
Proof.
  revert acts. induction l as [|m rest IH]; intros acts; simpl; [done|].
  destruct (negb _); [done|].
  destruct acts as [|a acts0]; [done|].
  destruct (SetPoints_ _ a) as [a'|]; simpl; [|done].
  specialize (IH acts0). destruct (rt_points_loop len rest acts0) as [[r x] e].
  simpl in *. by constructor.
Qed.

Lemma new_rt_set_at_depth d d' l s :
  new_rt_set_at (S (S d)) l s = new_rt_set_at (S (S d')) l s.
Proof.
  cbn [new_rt_set_at].
  destruct (rt_build_loop _ _ l) as [[r acts] evs].
  destruct r; [|done].
  cbn [update_rt_at n_rt rt set_rt call set_next_actor with_n_rt
         with_rt_actors].
  by rewrite Nat.eqb_refl.
Qed.

Lemma update_rt_at_cases d l s :
  (length l ≠ n_rt (rt s) →
   update_rt_at (S (S (S d))) l s = new_rt_set_at (S (S (S d))) l s)
  ∧ (length l = n_rt (rt s) →
     let r := update_rt_at (S (S (S d))) l s in
     all_rt (rt r.2) = l ∧ n_rt (rt r.2) = n_rt (rt s)
     ∧ look_kept (rt_actors (rt s)) (rt_actors (rt r.2))
         (vtk_calls s) (vtk_calls r.2)).
Proof.
  split.
  - intros Hn. rewrite (new_rt_set_at_depth (S d) d).
    cbn [update_rt_at]. apply Nat.eqb_neq in Hn. by rewrite Hn.
  - intros Hn. rewrite update_rt_at_same by done.
    pose proof (rt_points_loop_same_look (rt_length (rt s)) l
                  (rt_actors (rt s))) as Hl.
    pose proof (rt_points_loop_only_SetPoints (rt_length (rt s)) l
                  (rt_actors (rt s))) as Hc.
    destruct (rt_points_loop _ _ _) as [[r acts] evs]. cbn in *.
    split; [done|]. split; [done|]. split; [done|]. by exists evs.
Qed.

(** X15.  [update_rt] decides on the number of transforms alone: it does
    what [new_rt_set] does exactly when the list pushed is not as long as
    the recorded [n_rt]; with the same length it stores the list and only
    moves the points of the actors it has, which keep their identity and
    look, whether it then returns or raises. *)
Theorem X15_rt_update_rebuilds_iff_count_differs
    (l : list Rototrans) (s : VtkModel) :
  (length l ≠ n_rt (rt s) → update_rt l s = new_rt_set l s)
  ∧ (length l = n_rt (rt s) →
     all_rt (rt (update_rt l s).2) = l
     ∧ n_rt (rt (update_rt l s).2) = n_rt (rt s)
     ∧ look_kept (rt_actors (rt s)) (rt_actors (rt (update_rt l s).2))
         (vtk_calls s) (vtk_calls (update_rt l s).2)).
Proof. exact (update_rt_at_cases 997 l s). Qed.

Lemma X15_rt_update_rebuilds_iff_count_differs_witness :
  update_rt [identity_rt; identity_rt] fresh_model
  = new_rt_set [identity_rt; identity_rt] fresh_model.
Proof.
  apply (X15_rt_update_rebuilds_iff_count_differs [identity_rt; identity_rt]
           fresh_model).
  vm_compute. discriminate.
Defined.

(** ** The style setters of the wrappings *)

Lemma same_look_refl a : same_look a a.
Proof. by repeat split. Qed.

Lemma same_look_trans a b c : same_look a b → same_look b c → same_look a c.
Proof.
  intros (H1 & H2 & H3 & H4) (G1 & G2 & G3 & G4).
  repeat split; congruence.
Qed.

Lemma same_looks_refl (xs : list Actor) : Forall2 same_look xs xs.
Proof.
  apply Forall2_same_length_lookup_2; [done|].
  intros i x y -> [= <-]. apply same_look_refl.
Qed.

Lemma same_looks_refl' (xss : list (list Actor)) :
  Forall2 (Forall2 same_look) xss xss.
Proof. induction xss; constructor; [apply same_looks_refl|done]. Qed.

Lemma wrapping_look_kept_refl s : wrapping_look_kept s s.
Proof.
  split_and!; try done.
  - apply same_looks_refl'.
  - exists []. by rewrite app_nil_r.
Qed.

Lemma wrapping_look_kept_trans s1 s2 s3 :
  wrapping_look_kept s1 s2 → wrapping_look_kept s2 s3 →
  wrapping_look_kept s1 s3.
Proof.
  intros (H1 & H2 & H3 & H4 & e1 & H5 & H6) (G1 & G2 & G3 & G4 & e2 & G5 & G6).
  split_and!; try congruence.
  - eapply Forall2_trans; [|exact H4|exact G4].
    intros x y z Hxy Hyz.
    eapply Forall2_trans; [|exact Hxy|exact Hyz].
    apply same_look_trans.
  - exists (e1 ++ e2). rewrite G5, H5, app_assoc. split; [done|].
    by apply Forall_app.
Qed.

Lemma wrapping_scan_stored wr seg pre todo s :
  all_wrappings (wrapping s) !! seg = Some (pre ++ todo) →
  (wrapping_scan wr seg (length pre) todo s).2 = s.
Proof.
  revert pre. induction todo as [|m rest IH]; intros pre Hst; simpl; [done|].
  destruct (negb (mesh_time_size m =? 1)); [done|].
  rewrite Hst, lookup_app_r, Nat.sub_diag by lia. simpl.
  rewrite Nat.eqb_refl. simpl.
  specialize (IH (pre ++ [m])).
  rewrite length_app, Nat.add_1_r, <- app_assoc in IH. by apply IH.
Qed.

Lemma update_wrapping_segment_stored seg wr s :
  all_wrappings (wrapping s) !! seg = Some wr →
  wrapping_look_kept s (update_wrapping_segment seg wr s).2.
Proof.
  intros Hst. unfold update_wrapping_segment.
  pose proof (wrapping_scan_stored wr seg [] wr s Hst) as Hscan.
  simpl in Hscan.
  destruct (wrapping_scan wr seg 0 wr s) as [[|e] s1]; simpl in Hscan;
    subst s1; [|apply wrapping_look_kept_refl].
  pose proof (lookup_lt_Some _ _ _ Hst) as Hlt.
  case_decide; [lia|]. cbn [wrapping_actors with_all_wrappings].
  rewrite (list_insert_id _ _ _ Hst).
  destruct (wrapping_actors (wrapping s) !! seg) as [acts|] eqn:Ea.
  - pose proof (points_loop_same_look wr acts) as Hl.
    pose proof (points_loop_only_SetPoints wr acts) as Hc.
    destruct (points_loop wr acts) as [[r acts'] evs]. cbn in *.
    split_and!; try done.
    + rewrite <- (list_insert_id _ _ _ Ea) at 1.
      apply Forall2_insert; [apply same_looks_refl'|done].
    + by exists evs.
  - assert (Hk : wrapping_look_kept s
                   (set_wrapping
                      (with_all_wrappings (all_wrappings (wrapping s))
                         (wrapping s)) s)).
    { split_and!; try done.
      - apply same_looks_refl'.
      - exists []. by rewrite app_nil_r. }
    by destruct wr.
Qed.

Lemma update_wrapping_loop_stored pre l s :
  all_wrappings (wrapping s) = pre ++ l →
  wrapping_look_kept s (update_wrapping_loop (length pre) l s).2.
Proof.
  revert pre s. induction l as [|wr rest IH]; intros pre s Hall; simpl.
  { apply wrapping_look_kept_refl. }
  assert (Hst : all_wrappings (wrapping s) !! length pre = Some wr).
  { rewrite Hall, lookup_app_r, Nat.sub_diag by lia. done. }
  pose proof (update_wrapping_segment_stored (length pre) wr s Hst) as Hk.
  destruct (update_wrapping_segment (length pre) wr s) as [[|e] s1];
    simpl in *; [|done].
  eapply wrapping_look_kept_trans; [exact Hk|].
  specialize (IH (pre ++ [wr]) s1).
  rewrite length_app, Nat.add_1_r, <- app_assoc in IH. apply IH.
  destruct Hk as [-> _]. done.
Qed.

Lemma update_wrapping_stored s :
  all_wrappings (wrapping s) ≠ [] →
  wrapping_look_kept s (update_wrapping (all_wrappings (wrapping s)) s).2.
Proof.
  intros Hne. unfold update_wrapping.
  destruct (all_wrappings (wrapping s)) as [|wr rest] eqn:E; [done|].
  rewrite <- E. by apply (update_wrapping_loop_stored [] _ s).
Qed.

(** X16.  On a model that stores wrapping segments, [set_wrapping_color]
    and [set_wrapping_opacity] store the new value and then only move
    points: whether they return or raise, the stored segments stay, every
    actor keeps the colour and opacity it had, and every call made is a
    [SetPoints].  The new value is used by the next rebuild of a segment
    only. *)
Theorem X16_wrapping_setters_keep_actor_look
    (s : VtkModel) (v : rgb) (w : Q) :
  all_wrappings (wrapping s) ≠ [] →
  (wrapping_color (wrapping (set_wrapping_color v s).2) = v
   ∧ Forall2 (Forall2 same_look) (wrapping_actors (wrapping s))
       (wrapping_actors (wrapping (set_wrapping_color v s).2))
   ∧ ∃ evs, vtk_calls (set_wrapping_color v s).2 = vtk_calls s ++ evs
            ∧ Forall (fun e => is_SetPoints e = true) evs)
  ∧ (wrapping_opacity (wrapping (set_wrapping_opacity w s).2) = w
     ∧ Forall2 (Forall2 same_look) (wrapping_actors (wrapping s))
         (wrapping_actors (wrapping (set_wrapping_opacity w s).2))
     ∧ ∃ evs, vtk_calls (set_wrapping_opacity w s).2 = vtk_calls s ++ evs
              ∧ Forall (fun e => is_SetPoints e = true) evs).
Proof.
  intros Hne. split.
  - destruct (update_wrapping_stored
                (set_wrapping (with_wrapping_color v (wrapping s)) s) Hne)
      as (_ & H2 & _ & H4 & H5).
    split; [exact H2|]. split; [exact H4|exact H5].
  - destruct (update_wrapping_stored
                (set_wrapping (with_wrapping_opacity w (wrapping s)) s) Hne)
      as (_ & _ & H3 & H4 & H5).
    split; [exact H3|]. split; [exact H4|exact H5].
Qed.

Lemma X16_wrapping_setters_keep_actor_look_witness :
  Forall2 (Forall2 same_look)
    (wrapping_actors
       (wrapping (update_wrapping [[triangle]] fresh_model).2))
    (wrapping_actors
       (wrapping (set_wrapping_color black
                    (update_wrapping [[triangle]] fresh_model).2).2)).
Proof.
  destruct (X16_wrapping_setters_keep_actor_look
              (update_wrapping [[triangle]] fresh_model).2 black 1)
    as [(_ & H & _) _].
  - vm_compute. discriminate.
  - exact H.
Defined.
